(** * IEP autocompletion: the line-prefix parser, the shell-side completion
      path, and the code editor's completion session.

    The development embeds, function by function,
    - [baseTextCtrl.py]: [parseLine_autocomplete], [autoComplete_process],
      [autoComplete_do], [autoComplete_do_now], [keyPressEvent];
    - [codeeditor/extensions/autocompletion.py]: the [AutoCompletion] class;
    - [logging.py]: [splitConsole], [OutputStreamSplitter];
    - [iep/iepcore/shellTabs.py]: [DebugControl.setTrace], [onTriggered];
    - [tools/iepInteractiveHelp.py]: [get_title_text];
    - [iep/__init__.py]: [translate].

    Python values are modelled as the code has them: a [str] is a sequence of
    characters, an [int] is a [Z], a call that can raise returns an
    [outcome].  Lists that are shared between objects live in a store. *)

From Stdlib Require Import ZArith Ascii String List Bool Lia Permutation Sorted.
From Stdlib Require Import DecimalString.
From stdpp Require Import base tactics option list sorting gmap.
Import ListNotations.

Local Open Scope Z_scope.

(** ** Python primitives *)

Module Py.

(** A Python [str]; this model keeps to 8-bit characters: a character
    stands for the code point of its number, below 256. *)
Definition str : Type := list ascii.

(** String literals. *)
Definition py (s : string) : str := list_ascii_of_string s.

Inductive exn : Type :=
| IndexError
| ValueError
| AttributeError
| TypeError.

(** The result of a call: a value, or a raised exception. *)
Inductive outcome (A : Type) : Type :=
| Ret (a : A)
| Raise (e : exn).
Arguments Ret {A} a.
Arguments Raise {A} e.

Definition bind {A B : Type} (m : outcome A) (k : A -> outcome B) : outcome B :=
  match m with
  | Ret a => k a
  | Raise e => Raise e
  end.

Definition returns {A : Type} (m : outcome A) : Prop := exists a, m = Ret a.

Notation "x <- m ;; k" := (bind m (fun x => k))
  (at level 100, m at next level, right associativity).

(** [len(s)] *)
Definition len {A : Type} (s : list A) : Z := Z.of_nat (length s).

(** [s[i]] for an [int] index: negative indices count from the end, an
    index out of range raises [IndexError]. *)
Definition index {A : Type} (s : list A) (i : Z) : outcome A :=
  let j := if i <? 0 then i + len s else i in
  if j <? 0 then Raise IndexError
  else match nth_error s (Z.to_nat j) with
       | Some c => Ret c
       | None => Raise IndexError
       end.

(** A slice bound: negative bounds count from the end, and every bound is
    clamped to [0 .. len]. *)
Definition clamp (n i : Z) : Z :=
  if i <? 0 then Z.max 0 (i + n) else Z.min i n.

(** [s[lo:hi]] *)
Definition slice {A : Type} (s : list A) (lo hi : Z) : list A :=
  let a := clamp (len s) lo in
  let b := clamp (len s) hi in
  firstn (Z.to_nat (b - a)) (skipn (Z.to_nat a) s).

(** [s[lo:]] *)
Definition slice_from {A : Type} (s : list A) (lo : Z) : list A :=
  skipn (Z.to_nat (clamp (len s) lo)) s.

(** [s[:hi]] *)
Definition slice_to {A : Type} (s : list A) (hi : Z) : list A :=
  firstn (Z.to_nat (clamp (len s) hi)) s.

(** [s.rfind(c)] for a one-character [c]: the highest index of [c] in
    [s], or [-1]. *)
Fixpoint rfind (c : ascii) (s : str) : Z :=
  match s with
  | [] => -1
  | x :: s' =>
      let r := rfind c s' in
      if 0 <=? r then r + 1
      else if Ascii.eqb x c then 0 else -1
  end.

(** [s.count(c)] for a one-character [c]. *)
Fixpoint count (c : ascii) (s : str) : Z :=
  match s with
  | [] => 0
  | x :: s' => (if Ascii.eqb x c then 1 else 0) + count c s'
  end.

(** [c in s] for a one-character [c]. *)
Definition contains (c : ascii) (s : str) : bool :=
  existsb (Ascii.eqb c) s.

(** [s.startswith(p)] *)
Fixpoint startswith (s p : str) : bool :=
  match p, s with
  | [], _ => true
  | _ :: _, [] => false
  | a :: p', b :: s' => Ascii.eqb b a && startswith s' p'
  end.

(** The code of the character lies between [lo] and [hi]. *)
Definition in_range (lo hi : nat) (c : ascii) : bool :=
  (lo <=? nat_of_ascii c)%nat && (nat_of_ascii c <=? hi)%nat.

(** The characters [str.lower] changes: [A] to [Z] and the capital letters
    from 192 to 222, the multiplication sign 215 apart.  Each has its small
    letter 32 places further. *)
Definition is_upper (c : ascii) : bool :=
  in_range 65 90 c || in_range 192 214 c || in_range 216 222 c.

(** The characters whose capital stands 32 places before: [a] to [z] and
    the small letters from 224 to 254, the division sign 247 apart. *)
Definition is_lower (c : ascii) : bool :=
  in_range 97 122 c || in_range 224 246 c || in_range 248 254 c.

Definition lower_char (c : ascii) : ascii :=
  if is_upper c then ascii_of_nat (nat_of_ascii c + 32) else c.

(** [c.upper()], as code points: what it gives can lie beyond 255 or hold
    two characters.  The micro sign 181 gives the Greek capital mu, the
    sharp s 223 gives [SS], the y with diaeresis 255 gives its capital
    376. *)
Definition upper_char (c : ascii) : list nat :=
  let n := nat_of_ascii c in
  if is_lower c then [(n - 32)%nat]
  else if (n =? 181)%nat then [924%nat]
  else if (n =? 223)%nat then [83%nat; 83%nat]
  else if (n =? 255)%nat then [376%nat]
  else [n].

(** [s.lower()] *)
Definition lower (s : str) : str := map lower_char s.

(** [s.upper()], as the code points of the result. *)
Definition upper (s : str) : list nat := flat_map upper_char s.

(** [c.isalnum()]: the digits, the letters [A] to [Z] and [a] to [z], and
    beyond 127 the ordinal indicators 170 and 186, the superscripts 178,
    179 and 185, the micro sign 181, the fractions 188 to 190 and the
    letters from 192 on, the signs 215 and 247 apart. *)
Definition isalnum_char (c : ascii) : bool :=
  in_range 48 57 c || in_range 65 90 c || in_range 97 122 c
  || in_range 170 170 c || in_range 178 179 c || in_range 181 181 c
  || in_range 185 186 c || in_range 188 190 c
  || in_range 192 214 c || in_range 216 246 c || in_range 248 255 c.

(** [s.isalnum()]: every character is alphanumeric, and there is at least
    one. *)
Definition isalnum (s : str) : bool :=
  match s with
  | [] => false
  | _ => forallb isalnum_char s
  end.

(** [s.split(sep)] for a one-character separator. *)
Fixpoint split (sep : ascii) (s : str) : list str :=
  match s with
  | [] => [[]]
  | c :: s' =>
      if Ascii.eqb c sep then [] :: split sep s'
      else match split sep s' with
           | w :: ws => (c :: w) :: ws
           | [] => [[c]]
           end
  end.

(** [sep.join(l)] *)
Fixpoint join (sep : str) (l : list str) : str :=
  match l with
  | [] => []
  | [w] => w
  | w :: ws => w ++ sep ++ join sep ws
  end.

(** The order of [str] values, given by their code points: lexicographic
    by code point. *)
Fixpoint str_ltb (a b : list nat) : bool :=
  match a, b with
  | _, [] => false
  | [], _ :: _ => true
  | x :: a', y :: b' =>
      if (x <? y)%nat then true
      else if (y <? x)%nat then false
      else str_ltb a' b'
  end.

(** [l.index(x)]: the first position of [x]; [ValueError] when absent. *)
Fixpoint list_index (x : str) (l : list str) : outcome Z :=
  match l with
  | [] => Raise ValueError
  | y :: l' =>
      if bool_decide (y = x) then Ret 0
      else bind (list_index x l') (fun i => Ret (i + 1))
  end.

(** [l.remove(x)]: drops the first occurrence of [x]; [ValueError] when
    absent. *)
Fixpoint list_remove (x : str) (l : list str) : outcome (list str) :=
  match l with
  | [] => Raise ValueError
  | y :: l' =>
      if bool_decide (y = x) then Ret l'
      else bind (list_remove x l') (fun r => Ret (y :: r))
  end.

(** [x in l] *)
Definition list_in (x : str) (l : list str) : bool :=
  bool_decide (x ∈ l).

(** [l.sort(key=key)] and [l.sort(key=key, reverse=True)].  Python's sort
    is stable, also under [reverse=True]: elements with equal keys keep
    their original order.  A stable sort has one possible result, which
    the insertion sort below computes. *)
Section Sort.
Context {A K : Type} (ltb : K -> K -> bool) (key : A -> K).

(** [x] stood in front of every element of [l]: it stays in front of
    those whose key is not strictly before its own. *)
Fixpoint insert_sorted (x : A) (l : list A) : list A :=
  match l with
  | [] => [x]
  | y :: l' =>
      if ltb (key y) (key x) then y :: insert_sorted x l'
      else x :: l
  end.

Definition sort (l : list A) : list A := foldr insert_sorted [] l.
End Sort.

(** Ascending order on [K] is [ltb]; descending order swaps it. *)
Definition sort_reverse {A K : Type} (ltb : K -> K -> bool) (key : A -> K)
  : list A -> list A :=
  sort (fun a b => ltb b a) key.

End Py.

Export Py.

(** ** More Python primitives *)

Module PyText.

(** [str(n)] for an [int], which is also what [format] puts for it: the
    decimal numeral, with a minus sign when negative. *)
Definition str_of_int (n : Z) : str :=
  list_ascii_of_string (DecimalString.NilZero.string_of_int (Z.to_int n)).

(** [s.find(sub)]: the lowest index where [sub] starts in [s]. *)
Fixpoint find (sub s : str) : option nat :=
  if startswith s sub then Some 0%nat
  else match s with
       | [] => None
       | _ :: s' => option_map S (find sub s')
       end.

(** [s.split(sep, 1)]: one split, at the first place where [sep] stands;
    an empty separator raises. *)
Definition split1 (sep s : str) : outcome (list str) :=
  match sep with
  | [] => Raise ValueError
  | _ =>
      match find sep s with
      | Some i => Ret [firstn i s; skipn (i + length sep) s]
      | None => Ret [s]
      end
  end.

End PyText.

Export PyText.

(** ** baseTextCtrl.py *)

Module BaseTextCtrl.

(** [namechars]: valid chars to make a name. *)
Definition namechars : str :=
  py "abcdefghijklmnopqrstuvwxyzABCDEFGHIJKLMNOPQRSTUVWXYZ_0123456789".

Definition squote : ascii := "'"%char.
Definition dquote : ascii := "034"%char.

(** How the [for] loop of [parseLine_autocomplete] was left. *)
Inductive loop_exit : Type :=
| Returned (r : str * str)   (* a [return] inside the loop *)
| Broke (i i_base : Z)       (* [break] *)
| Exhausted (i i_base : Z).  (* the range ran out: the [else] clause runs *)

(** The loop [for i in range(len(text)-1,-1,-1)], with [n] indices still
    to visit (the next one is [n-1]); [i] and [i_base] are the values the
    two variables hold when the iteration starts. *)
Fixpoint scan (text : str) (n : nat) (i i_base : Z) : outcome loop_exit :=
  match n with
  | O => Ret (Exhausted i i_base)
  | S n' =>
      let i := Z.of_nat n' in
      bind (index text i) (fun c =>
      if Ascii.eqb c "."%char then
        scan text n' i (if i_base =? 0 then i else i_base)
      else if Ascii.eqb c squote || Ascii.eqb c dquote then
        (* a string *)
        if i_base =? i + 1 then
          Ret (Returned (py "''", slice_from text (i_base + 1)))
        else Ret (Returned (py "", py ""))
      else if Ascii.eqb c "]"%char then
        (* may be a list *)
        bind (if (i_base =? i + 1) && (0 <? i) then
                bind (index text (i - 1)) (fun d => Ret (Ascii.eqb d "["%char))
              else Ret false) (fun is_list =>
        if is_list then Ret (Returned (py "[]", slice_from text (i_base + 1)))
        else Ret (Returned (py "", py "")))
      else if negb (contains c namechars) then
        Ret (Broke i i_base)
      else scan text n' i i_base)
  end.

(** The statements after the loop. *)
Definition finish (text : str) (i i_base : Z) : str * str :=
  if i_base =? 0 then (py "", slice_from text (i + 1))
  else (slice text (i + 1) i_base, slice_from text (i_base + 1)).

(** [parseLine_autocomplete(text)] *)
Definition parseLine_autocomplete (text : str) : outcome (str * str) :=
  (* is the line commented? *)
  let i := rfind "#"%char text in
  if (0 <=? i)
     && (count dquote (slice_to text i) mod 2 =? 0)
     && (count squote (slice_to text i) mod 2 =? 0)
  then Ret (py "", py "")
  else
    let i_base := 0 in
    bind (scan text (length text) i i_base) (fun e =>
    match e with
    | Returned r => Ret r
    | Broke i i_base => Ret (finish text i i_base)
    | Exhausted i i_base =>
        (* we need to decrease this extra bit when the loop fully unrolled *)
        let i := i - 1 in
        Ret (finish text i i_base)
    end).

(** The Scintilla messages the completion path sends. *)
Inductive sci_message : Type :=
| SCI_AUTOCCANCEL
| SCI_AUTOCSHOW (lenentered : Z) (names : str).

(** A shell as [autoComplete_process] sees it. *)
Record shell : Type := {
  shell_is_self : bool;        (* [editor2 is self] *)
  shell_builtins : list str    (* [editor2._builtins] *)
}.

(** What [autoComplete_process] reads from its surroundings. *)
Record context : Type := {
  autoComp_name : str;               (* [self._autoComp_name] *)
  editor_is_self : bool;             (* [iep.editors.getCurrentEditor() is self] *)
  current_shell : option shell;      (* [iep.shells.getCurrentShell()] *)
  autoCompActive : bool              (* [self.autoCompActive()] *)
}.

(** [baseObject, name = parts]: exactly two values, or [ValueError]. *)
Definition unpack2 (parts : list str) : outcome (str * str) :=
  match parts with
  | [a; b] => Ret (a, b)
  | _ => Raise ValueError
  end.

(** The loop that looks for the name in the sorted response:
    [thename] is the first item whose lower-cased form starts with
    [name], or the empty string. *)
Fixpoint find_thename (name : str) (response : list str) : str :=
  match response with
  | [] => py ""
  | item :: rest =>
      if startswith (lower item) name then item
      else find_thename name rest
  end.

(** The response made a list, with the builtins added. *)
Definition response_names (ctx : context) (baseObject : str)
    (response : str) : list str :=
  let response := split ","%char response in
  match current_shell ctx with
  | Some editor2 =>
      match baseObject with
      | [] => response ++ shell_builtins editor2
      | _ => response
      end
  | None => response
  end.

(** The response list after it was sorted with [key=str.upper]. *)
Definition sorted_response (ctx : context) (baseObject : str)
    (response : str) : list str :=
  sort str_ltb upper (response_names ctx baseObject response).

(** [autoComplete_process(self, response)]: the messages it sends. *)
Definition autoComplete_process (ctx : context) (response : str)
  : outcome (list sci_message) :=
  (* Should we process at all? *)
  match autoComp_name ctx with
  | [] => Ret [SCI_AUTOCCANCEL]
  | _ =>
      bind (unpack2 (split "."%char (autoComp_name ctx))) (fun '(baseObject, name) =>
      let is_shell :=
        match current_shell ctx with
        | Some editor2 => shell_is_self editor2
        | None => false
        end in
      if negb (editor_is_self ctx) && negb is_shell then
        (* This editor is no longer active *)
        Ret [SCI_AUTOCCANCEL]
      else
        let response := sorted_response ctx baseObject response in
        let thename := find_thename name response in
        match thename with
        | [] => Ret [SCI_AUTOCCANCEL]
        | _ =>
            if negb (autoCompActive ctx) then
              Ret [SCI_AUTOCSHOW (len name) (join (py " ") response)]
            else Ret []
        end)
  end.

(** The attributes of the text control that the completion path reads and
    writes. *)
Record ctrl : Type := Ctrl {
  delayTimer_line : str;       (* [self._delayTimer._line] *)
  delayTimer_started : bool;   (* the single-shot timer runs *)
  ctrl_autoComp_name : str     (* [self._autoComp_name] *)
}.

(** What [autoComplete_do] reads from the widget. *)
Record surroundings : Type := Surroundings {
  isValidPython : bool;        (* [self._isValidPython()] *)
  lineString : str;            (* [self.getLineString(linenr)] *)
  lineIndex : Z                (* the index on that line *)
}.

(** [autoComplete_do]: the new attributes and the messages sent. *)
Definition autoComplete_do (env : surroundings) (c : ctrl)
  : outcome (ctrl * list sci_message) :=
  (* only proceed if valid python *)
  if negb (isValidPython env) then Ret (c, [SCI_AUTOCCANCEL])
  else
    (* Get line up to cursor *)
    let text := slice_to (lineString env) (lineIndex env) in
    (* is the char valid? *)
    valid <- match text with
             | [] => Ret false
             | _ => last <- index text (-1) ;;
                    Ret (contains last namechars || Ascii.eqb last "."%char)
             end ;;
    if negb valid then Ret (c, [SCI_AUTOCCANCEL])
    else
      (* Store line and (re)start timer *)
      Ret (Ctrl text true (ctrl_autoComp_name c), []).

(** [autoComplete_do_now], run when the timer fires: the new attributes,
    and the request posted at the shell, if any.  [shell] tells whether
    there is a current shell; posting at no shell raises. *)
Definition autoComplete_do_now (shell : bool) (c : ctrl)
  : ctrl * outcome (option str) :=
  let c := Ctrl (delayTimer_line c) false (ctrl_autoComp_name c) in
  (* Parse the line, to see what (partial) name we need to complete *)
  let line := delayTimer_line c in
  match line with
  | [] => (c, Ret None)
  | _ =>
      match parseLine_autocomplete line with
      | Raise e => (c, Raise e)
      | Ret (baseObject, name) =>
          let name := lower name in
          (* Store name to search for *)
          let c := Ctrl (delayTimer_line c) (delayTimer_started c)
                        (baseObject ++ py "." ++ name) in
          (* Process by posting a request at the shell *)
          match name, baseObject with
          | [], [] => (c, Ret None)
          | _, _ =>
              let req := py "DIR " ++ baseObject in
              if shell then (c, Ret (Some req))
              else (c, Raise AttributeError)
          end
      end
  end.

(** [ord(s)]: the code of a one-character string, [TypeError] otherwise. *)
Definition ord (s : str) : outcome Z :=
  match s with
  | [c] => Ret (Z.of_nat (nat_of_ascii c))
  | _ => Raise TypeError
  end.

(** [keyPressEvent] with the handlers of the base class, which handle no
    key.  The widget applies the key in between; [after] is what
    [autoComplete_do] then finds. *)
Definition keyPressEvent (text : str) (after : surroundings) (c : ctrl)
  : ctrl * outcome (list sci_message) :=
  (* Cancel any autocompletion in progress *)
  let c := Ctrl (py "") (delayTimer_started c) (py "") in
  (* Process character press *)
  match text with
  | [] => (c, Ret [])
  | _ =>
      match ord text with
      | Raise e => (c, Raise e)
      | Ret key =>
          if (48 <=? key) || (key =? 8) then
            (* If a char that allows completion or backspace was pressed *)
            match autoComplete_do after c with
            | Ret (c', msgs) => (c', Ret msgs)
            | Raise e => (c, Raise e)
            end
          else (c, Ret [])
      end
  end.

(** The surroundings of [autoComplete_process] when the control has the
    attributes [c]. *)
Definition context_of (c : ctrl) (is_editor : bool) (sh : option shell)
    (active : bool) : context :=
  {| autoComp_name := ctrl_autoComp_name c;
     editor_is_self := is_editor;
     current_shell := sh;
     autoCompActive := active |}.

End BaseTextCtrl.

Import BaseTextCtrl.

(** ** The position tracker *)

Module PositionTracker.

(** Modelled from the spec: the adjustment of the anchor under edits of
    the buffer.  The sources only create the anchor cursor and call
    [setKeepPositionOnInsert(True)] on it; the adjustment itself is done
    by the toolkit's text cursor, which is not part of the sources.  The
    rules are those of the position tracker's contract: an insertion
    before the anchor shifts it forward by the inserted length, a deletion
    that ends at or before the anchor shifts it backward by the deleted
    length, an edit that spans across the anchor invalidates it. *)
Definition anchor_after_insert (p n anchor : Z) : Z :=
  if p <? anchor then anchor + n else anchor.

Definition anchor_after_delete (p n anchor : Z) : option Z :=
  if p + n <=? anchor then Some (anchor - n)
  else if p <? anchor then None
  else Some anchor.

(** The buffer operation "replace text in range [a,b) with string s". *)
Definition replace_range (buffer : str) (a b : Z) (s : str) : str :=
  slice_to buffer a ++ s ++ slice_from buffer b.

(** A buffer with an anchor bound to it. *)
Record tracked : Type := Tracked {
  buffer : str;
  anchor : Z
}.

Definition insert (p : Z) (s : str) (t : tracked) : tracked :=
  Tracked (replace_range (buffer t) p p s)
          (anchor_after_insert p (len s) (anchor t)).

Definition delete (p n : Z) (t : tracked) : option tracked :=
  match anchor_after_delete p n (anchor t) with
  | Some a => Some (Tracked (replace_range (buffer t) p (p + n) []) a)
  | None => None
  end.

End PositionTracker.

(** ** codeeditor/extensions/autocompletion.py *)

Module AutoCompletion.

(** A reference to a Python list in the store. *)
Definition loc : Type := positive.

(** The calls made on [self.__completer.popup()]. *)
Inductive popup_call : Type :=
| show
| hide
| move (position : Z)
| setGeometry (width height : Z)
| setCurrentIndex (row : Z).

(** An editor with the [AutoCompletion] extension. *)
Record editor : Type := Editor {
  document : str;                  (* the text of the widget *)
  textCursor : Z;                  (* [self.textCursor().position()] *)
  completerModel : list str;       (* the string list of [__completerModel] *)
  completionPrefix : str;          (* the prefix given to [__completer] *)
  completerNames : list str;       (* [__completerNames] *)
  recentCompletions : loc;         (* [__recentCompletions], a shared list *)
  autocompleteStart : option Z;    (* [__autocompleteStart]: [None] or the anchor *)
  popup : list popup_call          (* calls on the popup, oldest first *)
}.

(** The store of list objects, and the editor under consideration. *)
Record world : Type := World {
  lists : gmap loc (list str);
  self : editor
}.

Definition with_self (w : world) (e : editor) : world :=
  World (lists w) e.

Definition call_popup (c : popup_call) (e : editor) : editor :=
  Editor (document e) (textCursor e) (completerModel e) (completionPrefix e)
         (completerNames e) (recentCompletions e) (autocompleteStart e)
         (popup e ++ [c]).

Definition set_autocompleteStart (a : option Z) (e : editor) : editor :=
  Editor (document e) (textCursor e) (completerModel e) (completionPrefix e)
         (completerNames e) (recentCompletions e) a (popup e).

Definition setCompletionPrefix (prefix : str) (e : editor) : editor :=
  Editor (document e) (textCursor e) (completerModel e) prefix
         (completerNames e) (recentCompletions e) (autocompleteStart e)
         (popup e).

Definition set_names (names : list str) (e : editor) : editor :=
  Editor (document e) (textCursor e) names (completionPrefix e)
         names (recentCompletions e) (autocompleteStart e) (popup e).

Definition set_text (doc : str) (cursor : Z) (a : option Z) (e : editor)
  : editor :=
  Editor doc cursor (completerModel e) (completionPrefix e)
         (completerNames e) (recentCompletions e) a (popup e).

(** The list [self.__recentCompletions] refers to. *)
Definition recent (w : world) : list str :=
  default [] (lists w !! recentCompletions (self w)).

(** [__init__]: the model holds the keyword list, the list of recent
    completions is a new empty list. *)
Definition init (kwlist : list str) (doc : str) (cursor : Z)
    (store : gmap loc (list str)) : world :=
  let l := fresh (dom store) in
  World (<[l := []]> store) (Editor doc cursor kwlist [] [] l None []).

(** [recentCompletionsList] and [setRecentCompletionsList] *)
Definition recentCompletionsList (w : world) : loc :=
  recentCompletions (self w).

Definition setRecentCompletionsList (value : loc) (w : world) : world :=
  let e := self w in
  with_self w
    (Editor (document e) (textCursor e) (completerModel e)
            (completionPrefix e) (completerNames e) value
            (autocompleteStart e) (popup e)).

(** Modelled from the spec: the rows of [__completer.completionModel()].
    The completer belongs to the toolkit; it is set up case-insensitive,
    and its completion model holds the candidates that case-insensitively
    start with the prefix, in the order of the string list. *)
Definition completionModel (e : editor) : list str :=
  List.filter (fun c => startswith (lower c) (lower (completionPrefix e)))
              (completerModel e).

(** Modelled from the spec: [cursor.selectedText()] after the cursor was
    given the position [start] with [KeepAnchor]: the text between the
    anchor and the text cursor. *)
Definition selectedText (e : editor) (start : Z) : str :=
  slice (document e) (Z.min start (textCursor e)) (Z.max start (textCursor e)).

(** Modelled from the spec: [movePosition(Left, n=offset)] from the text
    cursor: the current cursor position minus offset, not before the start
    of the document. *)
Definition movePosition_Left (e : editor) (offset : Z) : Z :=
  if offset <=? 0 then textCursor e else Z.max 0 (textCursor e - offset).

(** [autocompleteActive] *)
Definition autocompleteActive (e : editor) : bool :=
  match autocompleteStart e with
  | Some _ => true
  | None => false
  end.

(** [autocompleteCancel] *)
Definition autocompleteCancel (e : editor) : editor :=
  set_autocompleteStart None (call_popup hide e).

(** [__positionAutocompleter] *)
Definition positionAutocompleter (e : editor) : outcome editor :=
  match autocompleteStart e with
  | None => Raise TypeError
  | Some cur =>
      Ret (call_popup (setGeometry 200 100) (call_popup (move cur) e))
  end.

(** [completionIndex], local to [__updateAutocompleterPrefix]. *)
Definition completionIndex (recentCompletions : list str) (data : str) : Z :=
  match list_index data recentCompletions with
  | Ret i => i
  | Raise _ => -1
  end.

(** The order of [bool] keys: [False < True]. *)
Definition bool_ltb (a b : bool) : bool := negb a && b.

(** The two sorts of [__updateAutocompleterPrefix] on the list of
    [(row, value)] tuples: the last sort has priority over the first. *)
Definition rank (recentCompletions : list str) (prefix : str)
    (completions : list (Z * str)) : list (Z * str) :=
  (* Sort on most recent completions *)
  let completions :=
    sort_reverse Z.ltb (fun c => completionIndex recentCompletions (snd c))
                 completions in
  (* Sort on matching case (prefer matching case) *)
  sort_reverse bool_ltb (fun c => startswith (snd c) prefix) completions.

(** The list of [(row, value)] tuples of all possible completions. *)
Definition completion_rows (model : list str) : list (Z * str) :=
  imap (fun row data => (Z.of_nat row, data)) model.

(** [__updateAutocompleterPrefix] *)
Definition updateAutocompleterPrefix (w : world) : outcome world :=
  let e := self w in
  match autocompleteStart e with
  | None => Ret (with_self w (call_popup hide e))
  | Some start =>
      let prefix := selectedText e start in
      let e := setCompletionPrefix prefix e in
      let model := completionModel e in
      if negb (len model =? 0) then
        let completions := completion_rows model in
        let completions := rank (recent w) prefix completions in
        (* apply the best match *)
        best <- index completions 0 ;;
        Ret (with_self w (call_popup (setCurrentIndex (fst best)) e))
      else
        (* No match, just hide *)
        Ret (with_self w (autocompleteCancel e))
  end.

(** The part of [autocompleteShow] that takes the names: when they are
    given and differ from [__completerNames], they become the string list
    of the model and the new [__completerNames]. *)
Definition replace_names (names : option (list str)) (w : world) : world :=
  match names with
  | Some names =>
      if negb (bool_decide (names = completerNames (self w))) then
        with_self w (set_names names (self w))
      else w
  | None => w
  end.

(** [autocompleteShow] *)
Definition autocompleteShow (offset : Z) (names : option (list str))
    (w : world) : outcome world :=
  let e := self w in
  let startcursor := movePosition_Left e offset in
  let reopen :=
    match autocompleteStart e with
    | None => true
    | Some start => negb (startcursor =? start)
    end in
  w <- (if reopen then
          let e := set_autocompleteStart (Some startcursor) e in
          e <- positionAutocompleter e ;;
          w <- updateAutocompleterPrefix (with_self w e) ;;
          Ret (with_self w (call_popup show (self w)))
        else Ret w) ;;
  updateAutocompleterPrefix (replace_names names w).

(** [onAutoComplete] *)
Definition onAutoComplete (text : str) (w : world) : outcome world :=
  let e := self w in
  match autocompleteStart e with
  | None => Raise AttributeError
  | Some start =>
      (* Replace the text from the anchor to the cursor with [text] *)
      let a := Z.min start (textCursor e) in
      let b := Z.max start (textCursor e) in
      let doc := PositionTracker.replace_range (document e) a b text in
      let e := set_text doc (clamp (len (document e)) a + len text)
                        (autocompleteStart e) e in
      let e := autocompleteCancel e in
      (* Update the recent completions list *)
      let l := recent w in
      l <- (if list_in text l then list_remove text l else Ret l) ;;
      Ret (World (<[recentCompletions e := l ++ [text]]> (lists w)) e)
  end.

(** A key press, as [keyPressEvent] looks at it. *)
Inductive key : Type :=
| Key_Escape
| Key_Tab
| Key_Backspace
| Key_Shift
| Key_Other.

Record event : Type := Event {
  event_key : key;
  NoModifier : bool;     (* [event.modifiers() == Qt.NoModifier] *)
  event_text : str
}.

Definition key_eqb (a b : key) : bool :=
  match a, b with
  | Key_Escape, Key_Escape | Key_Tab, Key_Tab
  | Key_Backspace, Key_Backspace | Key_Shift, Key_Shift
  | Key_Other, Key_Other => true
  | _, _ => false
  end.

(** Modelled from the spec: the text widget's own [keyPressEvent]
    (toolkit code).  Backspace removes the character before the cursor, an
    ordinary key inserts its text at the cursor, and the anchor follows the
    edit as the position tracker says; Escape, Tab and Shift are taken to
    leave the text as it is. *)
Definition super_keyPressEvent (ev : event) (e : editor) : editor :=
  let c := textCursor e in
  match event_key ev with
  | Key_Backspace =>
      if 0 <? c then
        set_text (PositionTracker.replace_range (document e) (c - 1) c [])
                 (c - 1)
                 match autocompleteStart e with
                 | Some a => PositionTracker.anchor_after_delete (c - 1) 1 a
                 | None => None
                 end
                 e
      else e
  | Key_Other =>
      let t := event_text ev in
      set_text (PositionTracker.replace_range (document e) c c t)
               (c + len t)
               (option_map (PositionTracker.anchor_after_insert c (len t))
                           (autocompleteStart e))
               e
  | _ => e
  end.

(** [keyPressEvent] *)
Definition keyPressEvent (ev : event) (w : world) : outcome world :=
  let e := self w in
  if key_eqb (event_key ev) Key_Escape && NoModifier ev && autocompleteActive e
  then Ret (with_self w (autocompleteCancel e))  (* Consume the key *)
  else if key_eqb (event_key ev) Key_Tab && NoModifier ev && autocompleteActive e
  then Ret w  (* Let the completer handle this one! *)
  else
    let stays :=
      match autocompleteStart e with
      | None => true
      | Some start =>
          isalnum (event_text ev)
          || bool_decide (event_text ev = py "_")
          || key_eqb (event_key ev) Key_Shift
          || (key_eqb (event_key ev) Key_Backspace && (start <? textCursor e))
      end in
    let e := if stays then e else autocompleteCancel e in
    (* Apply the key that was pressed *)
    let e := super_keyPressEvent ev e in
    if autocompleteActive e then
      e <- positionAutocompleter e ;;
      updateAutocompleterPrefix (with_self w e)
    else Ret (with_self w e).

End AutoCompletion.

Import PositionTracker AutoCompletion.

(** ** logging.py *)

Module Logging.

(** A file object, such as the original [sys.stdout]. *)
Definition file : Type := nat.

(** What [_deferFunction] holds: the method [dummyDeferFunction], which
    does nothing, or a function given to [splitConsole]. *)
Inductive deferFunction : Type :=
| dummyDeferFunction
| given (f : nat).

(** An [OutputStreamSplitter]; its [_history] is a list that several
    splitters can share. *)
Record OutputStreamSplitter : Type := Splitter {
  original : file;            (* [_original] *)
  history : loc;              (* [_history] *)
  defer : deferFunction       (* [_deferFunction] *)
}.

(** What [sys.stdout] or [sys.stderr] holds. *)
Inductive stream : Type :=
| plain (f : file)
| split_stream (s : OutputStreamSplitter).

(** What a write does outside: the text reaches a file, a given function
    is called with it. *)
Inductive effect : Type :=
| file_write (f : file) (text : str)
| call (f : nat) (text : str).

Record console : Type := Console {
  stdout : stream;                     (* [sys.stdout] *)
  stderr : stream;                     (* [sys.stderr] *)
  histories : gmap loc (list str);     (* the history lists *)
  effects : list effect                (* oldest first *)
}.

(** [OutputStreamSplitter(fileObject)]: the properties of a splitter are
    copied, anything else gets a new, empty history. *)
Definition new_splitter (fileObject : stream) (h : gmap loc (list str))
  : OutputStreamSplitter * gmap loc (list str) :=
  match fileObject with
  | split_stream s => (Splitter (original s) (history s) (defer s), h)
  | plain f =>
      let l := fresh (dom h) in
      (Splitter f l dummyDeferFunction, <[l := []]> h)
  end.

(** [splitConsole(stdoutFun, stderrFun)]: the console afterwards, and the
    history returned. *)
Definition splitConsole (stdoutFun stderrFun : option nat) (c : console)
  : console * str :=
  (* Split stdout and stderr *)
  let '(out, h) := new_splitter (stdout c) (histories c) in
  let '(err, h) := new_splitter (stderr c) h in
  (* Make them share their history *)
  let err := Splitter (original err) (history out) (defer err) in
  (* Set defer functions *)
  let out :=
    match stdoutFun with
    | Some f => Splitter (original out) (history out) (given f)
    | None => out
    end in
  let err :=
    match stderrFun with
    | Some f => Splitter (original err) (history err) (given f)
    | None => err
    end in
  (* Return history *)
  (Console (split_stream out) (split_stream err) h (effects c),
   join (py "") (default [] (h !! history out))).

(** [stream.write(text)] *)
Definition write (s : stream) (text : str) (c : console) : console :=
  match s with
  | plain f =>
      Console (stdout c) (stderr c) (histories c) (effects c ++ [file_write f text])
  | split_stream s =>
      let written := effects c ++ [file_write (original s) text] in
      let h := <[history s := default [] (histories c !! history s) ++ [text]]>
                 (histories c) in
      let called :=
        match defer s with
        | dummyDeferFunction => written
        | given f => written ++ [call f text]
        end in
      Console (stdout c) (stderr c) h called
  end.

(** The two streams a program writes to. *)
Inductive channel : Type := to_stdout | to_stderr.

Definition write_to (ch : channel) (text : str) (c : console) : console :=
  match ch with
  | to_stdout => write (stdout c) text c
  | to_stderr => write (stderr c) text c
  end.

End Logging.

(** ** iep/iepcore/shellTabs.py *)

Module ShellTabs.

(** An action of the menu, with the attributes [setTrace] gives it. *)
Record action : Type := Action {
  action_text : str;                (* [action.text()] *)
  action_index : Z;                 (* [action._index] *)
  action_isCurrent : option bool    (* [action._isCurrent], when set *)
}.

(** The button of the [DebugControl]. *)
Record DebugControl : Type := Control {
  menu : option (list action);      (* [self.menu()] and its actions *)
  defaultAction : option action;    (* the default action of the menu *)
  text : str                        (* the text of the button *)
}.

(** The actions [setTrace] adds for the frames, the first of which gets
    the index [thisIndex]; [theAction] is the current frame found so far. *)
Fixpoint frame_actions (index : Z) (frames : list str) (thisIndex : Z)
    (theAction : option action) : list action * option action :=
  match frames with
  | [] => ([], theAction)
  | frame :: frames' =>
      let isCurrent := thisIndex =? index in
      let a := Action (str_of_int thisIndex ++ py ": " ++ frame) thisIndex
                      (Some isCurrent) in
      let theAction := if isCurrent then Some a else theAction in
      let '(rest, theAction) := frame_actions index frames' (thisIndex + 1) theAction in
      (a :: rest, theAction)
  end.

(** [setTrace(info)]; [info] is [None] or holds the index and the frames. *)
Definition setTrace (info : option (Z * list str)) (d : DebugControl)
  : DebugControl :=
  (* Get info *)
  let '(index, frames) :=
    match info with
    | Some (index, frames) => (index, frames)
    | None => (-1, [])
    end in
  match frames with
  | [] =>
      (* Remove trace *)
      Control None None (py "Debug")
  | _ =>
      (* Create menu and add __main__ *)
      let main := Action (py "MAIN: stop debugging") 0 None in
      (* Fill trace *)
      let '(actions, theAction) := frame_actions index frames 1 None in
      (* Highlight current item and set the button text *)
      match theAction with
      | Some a =>
          Control (Some (main :: actions)) (Some a)
                  (py "Stack Trace (" ++ str_of_int (action_index a) ++ py "/"
                   ++ str_of_int (len frames) ++ py "):  ")
      | None => Control (Some (main :: actions)) None (text d)
      end
  end.

(** What [onTriggered] has done: a command run in the shell, a frame
    handed to [debugFocus]. *)
Inductive step : Type :=
| executeCommand (command : str)
| debugFocus (lineFromDebugState : str).

Definition newline : ascii := "010"%char.

(** [onTriggered(action)]; [shell] tells whether there is a current
    shell. *)
Definition onTriggered (shell : bool) (a : action) : outcome (list step) :=
  if negb shell then Ret []
  else if action_index a <? 1 then
    (* Stop debugging *)
    Ret [executeCommand (py "DB STOP" ++ [newline])]
  else
    (* Change stack index *)
    isCurrent <- match action_isCurrent a with
                 | Some b => Ret b
                 | None => Raise AttributeError
                 end ;;
    let steps :=
      if negb isCurrent then
        [executeCommand (py "DB FRAME " ++ str_of_int (action_index a) ++ [newline])]
      else [] in
    (* Open file and select line *)
    parts <- split1 (py ": ") (action_text a) ;;
    line <- index parts 1 ;;
    Ret (steps ++ [debugFocus line]).

End ShellTabs.

(** ** tools/iepInteractiveHelp.py *)

Module InteractiveHelp.

(** [get_title_text(objectName, h_class, h_repr)] *)
Definition get_title_text (objectName h_class h_repr : str) : str :=
  let title_text := py "<b><i>Object:</i></b> " ++ objectName in
  let title_text :=
    match h_class with
    | [] => title_text
    | _ => title_text ++ py ", <b><i>class:</i></b> " ++ h_class
    end in
  let title_text :=
    match h_repr with
    | [] => title_text
    | _ =>
        let h_repr :=
          if 40 <? len h_repr then slice_to h_repr 37 ++ py "..." else h_repr in
        title_text ++ py ", <b><i>repr:</i></b> " ++ h_repr
    end in
  (* Finish *)
  title_text ++ [ShellTabs.newline] ++ py "<hr />" ++ [ShellTabs.newline].

End InteractiveHelp.

(** ** iep/__init__.py *)

Module Iep.

(** [c.isspace()], for the characters a [str] of this development holds:
    what [strip], [lstrip] and [rstrip] without argument remove. *)
Definition isspace (c : ascii) : bool :=
  let n := nat_of_ascii c in
  ((9 <=? n)%nat && (n <=? 13)%nat) || ((28 <=? n)%nat && (n <=? 32)%nat)
  || (n =? 133)%nat || (n =? 160)%nat.

(** [s.lstrip()] *)
Fixpoint lstrip (s : str) : str :=
  match s with
  | c :: s' => if isspace c then lstrip s' else s
  | [] => []
  end.

(** [s.rstrip()] *)
Definition rstrip (s : str) : str := rev (lstrip (rev s)).

(** [s.strip()] *)
Definition strip (s : str) : str := lstrip (rstrip s).

(** [sub in s] *)
Definition contains_sub (sub s : str) : bool :=
  match find sub s with
  | Some _ => true
  | None => false
  end.

(** [splitMainAndTt(s)], local to [translate]. *)
Definition splitMainAndTt (s : str) : outcome (str * str) :=
  if contains_sub (py ":::") s then
    parts <- split1 (py ":::") s ;;
    main <- index parts 0 ;;
    tt <- index parts 1 ;;
    Ret (rstrip main, lstrip tt)
  else Ret (s, py "").

(** A [Translation]: a string with extra attributes. *)
Record Translation : Type := {
  translation_str : str;   (* the string itself *)
  original : str;
  tt : str;
  key : str
}.

(** [translate(context, text, disambiguation)];
    [QtCore_translate] stands for [QtCore.QCoreApplication.translate]. *)
Definition translate
    (QtCore_translate : str -> str -> option str -> str)
    (context text : str) (disambiguation : option str)
  : outcome Translation :=
  (* Get translation and split tooltip *)
  let newtext := QtCore_translate context text disambiguation in
  bind (splitMainAndTt newtext) (fun '(s, tt) =>
  (* Create translation object (string with extra attributes) *)
  k <- splitMainAndTt text ;;
  Ret {| translation_str := s;
         original := text;
         tt := tt;
         key := strip (fst k) |}).

End Iep.

(** ** Vocabulary of the statements *)

Module Spec.

(** The orders the sorts use are strict weak orders. *)
Record strict_weak {K : Type} (ltb : K -> K -> bool) : Prop := StrictWeak {
  sw_irrefl : forall a, ltb a a = false;
  sw_trans : forall a b c, ltb a b = true -> ltb b c = true -> ltb a c = true;
  sw_cotrans : forall a b c, ltb a c = true -> ltb a b = true \/ ltb b c = true
}.

(** [a] may stand before [b] in the result of a stable sort of a list
    in which the order of the elements was [before]: its key comes first,
    or the keys tie and [a] stood before [b]. *)
Definition stable_before {A K : Type} (ltb : K -> K -> bool) (key : A -> K)
    (before : A -> A -> Prop) (a b : A) : Prop :=
  ltb (key a) (key b) = true \/ (ltb (key b) (key a) = false /\ before a b).

(** *** The parser *)

Definition is_namechar (c : ascii) : bool := contains c namechars.

Definition is_quote (c : ascii) : bool :=
  Ascii.eqb c squote || Ascii.eqb c dquote.

Definition name_or_dot (c : ascii) : bool :=
  is_namechar c || Ascii.eqb c "."%char.

(** A dot followed by name characters only. *)
Definition dot_then_name (s : str) : bool :=
  match s with
  | c :: rest => Ascii.eqb c "."%char && forallb is_namechar rest
  | [] => false
  end.

Definition ends_with (c : ascii) (s : str) : bool :=
  match List.last (map Some s) None with
  | Some d => Ascii.eqb d c
  | None => false
  end.

(** The text is [pre ++ c :: suf], where [suf] is what the backward scan
    walks over and [c] is the character that stops it.  The pattern is one
    the parser does not recognize when [c] is a quote that is not directly
    followed by the only dot, a closing bracket that does not end an empty
    [[]] directly followed by the only dot, or another character that
    stops the scan before anything was read. *)
Definition unrecognized (pre : str) (c : ascii) (suf : str) : bool :=
  if is_quote c then negb (dot_then_name suf)
  else if Ascii.eqb c "]"%char then
    negb (dot_then_name suf && ends_with "["%char pre)
  else match suf with
       | [] => true
       | _ :: _ => false
       end.

(** The value of [i_base] once the backward scan has walked over [s],
    whose first character stands at index [off]; [ib] is the value before.
    The variable is set at a dot only while it still holds [0]. *)
Fixpoint i_base_after (off : nat) (s : str) (ib : Z) : Z :=
  match s with
  | [] => ib
  | x :: s' =>
      let ib1 := i_base_after (S off) s' ib in
      if Ascii.eqb x "."%char then
        if ib1 =? 0 then Z.of_nat off else ib1
      else ib1
  end.

(** The test that opens [parseLine_autocomplete]: is the line commented? *)
Definition is_commented (text : str) : bool :=
  let i := rfind "#"%char text in
  (0 <=? i)
  && (count dquote (slice_to text i) mod 2 =? 0)
  && (count squote (slice_to text i) mod 2 =? 0).

(** A character at which the backward scan breaks off: not a name
    character, not a dot, not a quote, not a closing bracket. *)
Definition is_break (c : ascii) : bool :=
  negb (name_or_dot c) && negb (is_quote c) && negb (Ascii.eqb c "]"%char).

(** *** The completion session *)

(** The candidates the popup lists for the text between [start] and the
    text cursor. *)
Definition filtered (w : world) (start : Z) : list str :=
  completionModel (setCompletionPrefix (selectedText (self w) start) (self w)).

(** The operations of the [AutoCompletion] class. *)
Inductive operation : Type :=
| Show (offset : Z) (names : option (list str))
| Cancel
| Accept (text : str)
| UpdatePrefix
| KeyPress (ev : event)
| SetRecent (value : loc).

Definition run (op : operation) (w : world) : outcome world :=
  match op with
  | Show offset names => autocompleteShow offset names w
  | Cancel => Ret (with_self w (autocompleteCancel (self w)))
  | Accept text => onAutoComplete text w
  | UpdatePrefix => updateAutocompleterPrefix w
  | KeyPress ev => keyPressEvent ev w
  | SetRecent value => Ret (setRecentCompletionsList value w)
  end.

(** A sequence of operations, one after the other. *)
Fixpoint run_all (ops : list operation) (w : world) : outcome world :=
  match ops with
  | [] => Ret w
  | op :: ops' => w' <- run op w ;; run_all ops' w'
  end.

(** Every list of the store holds each value at most once. *)
Definition unique_lists (w : world) : Prop :=
  forall l r, lists w !! l = Some r -> NoDup r.

(** The calls [w'] made on the popup after [w]. *)
Definition popup_calls (w w' : world) (calls : list popup_call) : Prop :=
  popup (self w') = popup (self w) ++ calls.

(** The order of the tuples before the sorts: by row. *)
Definition by_row (a b : Z * str) : Prop := fst a < fst b.

(** The order of the tuples after the first sort: by position in the
    list of recent completions, later positions first. *)
Definition by_recency (recentCompletions : list str) : relation (Z * str) :=
  stable_before (fun a b => Z.ltb b a)
                (fun c => completionIndex recentCompletions (snd c)) by_row.

(** The order of the tuples after the second sort: matching case first. *)
Definition by_case (recentCompletions : list str) (prefix : str)
  : relation (Z * str) :=
  stable_before (fun a b => bool_ltb b a)
                (fun c => startswith (snd c) prefix)
                (by_recency recentCompletions).

(** A call that creates or places the popup. *)
Definition creates_popup (c : popup_call) : bool :=
  match c with
  | show | move _ | setGeometry _ _ => true
  | _ => false
  end.

(** The request places the popup anew: the anchor it computes is not the
    anchor of an open session. *)
Definition places_anew (offset : Z) (w : world) : Prop :=
  match autocompleteStart (self w) with
  | None => True
  | Some start => movePosition_Left (self w) offset <> start
  end.

(** The texts a sequence of operations accepts, in order. *)
Fixpoint accepted (ops : list operation) : list str :=
  match ops with
  | [] => []
  | Accept text :: ops' => text :: accepted ops'
  | _ :: ops' => accepted ops'
  end.

(** No operation of the sequence hands the editor another list. *)
Definition keeps_its_list (ops : list operation) : bool :=
  forallb (fun op => match op with SetRecent _ => false | _ => true end) ops.

(** The keys [keyPressEvent] answers by cancelling an open session whose
    anchor is [start], the cursor being at [cursor]: Escape without
    modifier, and, Tab without modifier apart, every key whose text is
    neither alphanumeric nor an underscore and that is neither Shift nor a
    Backspace behind the anchor. *)
Definition closes_session (ev : event) (start cursor : Z) : bool :=
  (key_eqb (event_key ev) Key_Escape && NoModifier ev)
  || (negb (key_eqb (event_key ev) Key_Tab && NoModifier ev)
      && negb (isalnum (event_text ev))
      && negb (bool_decide (event_text ev = py "_"))
      && negb (key_eqb (event_key ev) Key_Shift)
      && negb (key_eqb (event_key ev) Key_Backspace && (start <? cursor))).

(** *** The console *)

(** A sequence of writes, one after the other. *)
Definition write_all (ws : list (Logging.channel * str)) (c : Logging.console)
  : Logging.console :=
  fold_left (fun c w => Logging.write_to (fst w) (snd w) c) ws c.

(** [splitConsole] called again and again, with the given functions. *)
Definition split_all (args : list (option nat * option nat))
    (c : Logging.console) : Logging.console :=
  fold_left (fun c a => fst (Logging.splitConsole (fst a) (snd a) c)) args c.

(** The stream a channel stands for. *)
Definition stream_of (ch : Logging.channel) (c : Logging.console)
  : Logging.stream :=
  match ch with
  | Logging.to_stdout => Logging.stdout c
  | Logging.to_stderr => Logging.stderr c
  end.

(** The file behind a stream. *)
Definition file_behind (s : Logging.stream) : Logging.file :=
  match s with
  | Logging.plain f => f
  | Logging.split_stream s => Logging.original s
  end.

(** The function a stream calls at a write, if any. *)
Definition function_of (s : Logging.stream) : option nat :=
  match s with
  | Logging.plain _ => None
  | Logging.split_stream s =>
      match Logging.defer s with
      | Logging.dummyDeferFunction => None
      | Logging.given f => Some f
      end
  end.

(** The function in force after calls that each give a function or none:
    the one given last, or the one in force before. *)
Definition last_given (funs : list (option nat)) (before : option nat)
  : option nat :=
  fold_left (fun acc f => match f with Some k => Some k | None => acc end)
            funs before.

(** What ends every title of the help tool. *)
Definition title_finish : str :=
  [ShellTabs.newline] ++ py "<hr />" ++ [ShellTabs.newline].

End Spec.

Import Spec.

(** ** Sample states *)

Module Examples.

Definition names_abc : list str := [py "alpha"; py "amend"; py "beta"].

(** An editor on the text [0123456789], the cursor at its end, no session
    open; the model holds keywords, the recency list holds [amend]. *)
Definition editor_10 : world :=
  World {[ 1%positive := [py "amend"] ]}
        (Editor (py "0123456789") 10 [py "and"; py "as"; py "assert"] [] []
                1%positive None []).

(** The same editor with a session open at the cursor and the model
    holding [Amend], [alpha] and [amend]; the text typed so far is [a]. *)
Definition session_a : world :=
  World {[ 1%positive := [py "alpha"; py "amend"] ]}
        (Editor (py "0123456789a") 11 [py "Amend"; py "alpha"; py "amend"]
                [] [] 1%positive (Some 10) []).

(** A session open at the start of the text [z], the cursor behind it. *)
Definition session_z : world :=
  World ∅ (Editor (py "z") 1 [py "zeta"] (py "z") [py "zeta"] 1%positive
                  (Some 0) []).

(** A session open at position 0 of the text [xa], the cursor at the end;
    the model holds [xavier]. *)
Definition session_xa : world :=
  World ∅ (Editor (py "xa") 2 [py "xavier"] (py "xa") [py "xavier"]
                  1%positive (Some 0) []).

(** Typing a character. *)
Definition type (c : string) : operation :=
  KeyPress (Event Key_Other true (py c)).

(** Escape, without modifier. *)
Definition escape : event := Event Key_Escape true (py "").

(** A control whose timer holds the line [x = os.path.jo]. *)
Definition ctrl_os_path : ctrl := Ctrl (py "x = os.path.jo") true (py "").

(** A control whose timer holds the line [os.path.zz]. *)
Definition ctrl_zz : ctrl := Ctrl (py "os.path.zz") true (py "").

(** A control whose timer holds the line [x = os.jo]. *)
Definition ctrl_os : ctrl := Ctrl (py "x = os.jo") true (py "").

(** A console before the first split. *)
Definition console_0 : Logging.console :=
  Logging.Console (Logging.plain 1%nat) (Logging.plain 2%nat) ∅ [].

(** The button before debugging starts. *)
Definition debug_button : ShellTabs.DebugControl :=
  ShellTabs.Control None None (py "Debug").

(** A stack trace of two frames. *)
Definition frames_2 : list str :=
  [py "File one.py, line 3, in f"; py "File two.py, line 14, in g"].

(** A representation of 45 characters. *)
Definition repr_45 : str := py "<module 'os' from '/usr/lib/python3.2/os.py'>".

(** An editor that waits for the names in [food], having [ba] typed. *)
Definition ctx_food : context :=
  {| autoComp_name := py "food.ba";
     editor_is_self := true;
     current_shell := None;
     autoCompActive := false |}.

End Examples.

Import Examples.

(** ** Facts about the Python primitives *)

Section SortFacts.
Context {A K : Type} (ltb : K -> K -> bool) (key : A -> K).

Lemma insert_sorted_perm (x : A) (l : list A) :
  Permutation (insert_sorted ltb key x l) (x :: l).
Proof.
  induction l as [|y l IH]; simpl; [reflexivity|].
  destruct (ltb (key y) (key x)); [|reflexivity].
  rewrite IH. apply perm_swap.
Qed.

Lemma sort_perm (l : list A) : Permutation (sort ltb key l) l.
Proof.
  induction l as [|x l IH]; simpl; [reflexivity|].
  rewrite insert_sorted_perm. now constructor.
Qed.

Lemma sort_length (l : list A) : length (sort ltb key l) = length l.
Proof. apply Permutation_length, sort_perm. Qed.

Context (Hsw : strict_weak ltb) (before : A -> A -> Prop).

Lemma insert_sorted_stable (x : A) (l : list A) :
  Forall (before x) l ->
  StronglySorted (stable_before ltb key before) l ->
  StronglySorted (stable_before ltb key before) (insert_sorted ltb key x l).
Proof.
  induction l as [|y l IH]; intros Hx Hl; simpl.
  - repeat constructor.
  - inversion Hx as [|? ? Hxy Hxl]; subst.
    inversion Hl as [|? ? Hl' Hy]; subst.
    destruct (ltb (key y) (key x)) eqn:E.
    + constructor; [now apply IH|].
      rewrite insert_sorted_perm. constructor; [now left|assumption].
    + constructor; [assumption|].
      constructor; [right; split; assumption|].
      rewrite Forall_forall in Hy, Hxl |- *.
      intros z Hz. right. split; [|now apply Hxl].
      destruct (ltb (key z) (key x)) eqn:Ezx; [|reflexivity].
      destruct (Hy z Hz) as [Hyz|[Hzy _]].
      * rewrite (sw_trans _ Hsw _ _ _ Hyz Ezx) in E. discriminate.
      * destruct (sw_cotrans _ Hsw _ (key y) _ Ezx) as [H|H]; congruence.
Qed.

(** The sort is stable: the result is ordered by key, and elements whose
    keys tie keep the order they had. *)
Lemma sort_stable (l : list A) :
  StronglySorted before l ->
  StronglySorted (stable_before ltb key before) (sort ltb key l).
Proof.
  induction 1 as [|x l Hl IH Hx]; simpl; [constructor|].
  apply insert_sorted_stable; [|assumption].
  now rewrite sort_perm.
Qed.

End SortFacts.


Lemma Z_descending : strict_weak (fun a b : Z => Z.ltb b a).
Proof.
  split; intros; rewrite ?Z.ltb_lt, ?Z.ltb_ge in *; lia.
Qed.

Lemma bool_descending : strict_weak (fun a b : bool => bool_ltb b a).
Proof.
  split.
  - now intros [].
  - now intros [] [] [].
  - intros [] [] []; simpl; auto.
Qed.





(** ** The candidate ranker *)

Lemma completion_rows_lookup (model : list str) (r : Z) (c : str) :
  (r, c) ∈ completion_rows model <-> 0 <= r /\ model !! Z.to_nat r = Some c.
Proof.
  unfold completion_rows. rewrite elem_of_lookup_imap. split.
  - intros (i & x & E & Hi). inversion E; subst.
    rewrite Nat2Z.id. split; [lia|assumption].
  - intros [Hr Hc]. exists (Z.to_nat r), c. split; [|assumption].
    f_equal. lia.
Qed.

Lemma completion_rows_sorted (model : list str) :
  StronglySorted by_row (completion_rows model).
Proof.
  unfold completion_rows.
  assert (G : forall (k : nat),
    StronglySorted by_row (imap (fun row data => (Z.of_nat (k + row), data)) model)
    /\ Forall (fun a => Z.of_nat k <= fst a)
         (imap (fun row data => (Z.of_nat (k + row), data)) model)).
  { induction model as [|x model IH]; intros k; simpl.
    - split; constructor.
    - destruct (IH (S k)) as [IH1 IH2].
      assert (E : imap ((fun row data => (Z.of_nat (k + row), data)) ∘ S) model
                  = imap (fun row data => (Z.of_nat (S k + row), data)) model).
      { apply imap_ext. intros i y _. simpl. do 2 f_equal. lia. }
      rewrite E. split.
      + constructor; [assumption|].
        eapply Forall_impl; [exact IH2|].
        intros [r c]; unfold by_row; simpl. lia.
      + constructor; [simpl; lia|].
        eapply Forall_impl; [exact IH2|].
        intros [r c]; simpl. lia. }
  apply (G 0%nat).
Qed.

Lemma rank_perm (R : list str) (prefix : str) (l : list (Z * str)) :
  Permutation (rank R prefix l) l.
Proof.
  unfold rank, sort_reverse. now rewrite !sort_perm.
Qed.

Lemma rank_sorted (R : list str) (prefix : str) (model : list str) :
  StronglySorted (by_case R prefix) (rank R prefix (completion_rows model)).
Proof.
  unfold rank, sort_reverse, by_case, by_recency.
  apply sort_stable; [apply bool_descending|].
  apply sort_stable; [apply Z_descending|].
  apply completion_rows_sorted.
Qed.

(** The tuple the ranker puts first. *)
Lemma rank_head (R : list str) (prefix : str) (model : list str) :
  model <> [] ->
  exists row best rest,
    rank R prefix (completion_rows model) = (Z.of_nat row, best) :: rest
    /\ model !! row = Some best
    /\ forall r c, model !! r = Some c -> r <> row ->
         by_case R prefix (Z.of_nat row, best) (Z.of_nat r, c).
Proof.
  intros Hne.
  pose proof (rank_perm R prefix (completion_rows model)) as HP.
  pose proof (rank_sorted R prefix model) as HS.
  destruct (rank R prefix (completion_rows model)) as [|[z best] rest] eqn:E.
  { apply Permutation_nil in HP. unfold completion_rows in HP.
    apply (f_equal length) in HP. rewrite length_imap in HP.
    destruct model; [congruence|discriminate]. }
  assert (Hin : (z, best) ∈ completion_rows model).
  { rewrite <- HP. left. }
  apply completion_rows_lookup in Hin as [Hz Hbest].
  exists (Z.to_nat z), best, rest.
  rewrite Z2Nat.id by assumption.
  split; [reflexivity|]. split; [assumption|].
  intros r c Hc Hr.
  assert (Hrc : (Z.of_nat r, c) ∈ (z, best) :: rest).
  { rewrite HP. apply completion_rows_lookup. rewrite Nat2Z.id. split; [lia|assumption]. }
  inversion HS as [|? ? _ Hall]; subst.
  apply elem_of_cons in Hrc as [Heq|Hrest].
  - inversion Heq; subst. rewrite Nat2Z.id in Hr. congruence.
  - rewrite Forall_forall in Hall. now apply Hall.
Qed.

Lemma list_index_nonneg (c : str) (R : list str) (i : Z) :
  list_index c R = Ret i -> 0 <= i.
Proof.
  revert i; induction R as [|y R IH]; intros i; simpl; [discriminate|].
  destruct (bool_decide (y = c)).
  - intros E; inversion E; lia.
  - destruct (list_index c R) as [k|e]; simpl; [|discriminate].
    intros E; inversion E. specialize (IH k eq_refl). lia.
Qed.

Lemma completionIndex_cons (y : str) (R : list str) (c : str) :
  completionIndex (y :: R) c =
    if bool_decide (y = c) then 0
    else if 0 <=? completionIndex R c then completionIndex R c + 1 else -1.
Proof.
  unfold completionIndex; simpl.
  destruct (bool_decide (y = c)); [reflexivity|].
  destruct (list_index c R) as [i|e] eqn:E; simpl; [|reflexivity].
  apply list_index_nonneg in E.
  destruct (Z.leb_spec 0 i); [reflexivity|lia].
Qed.

Lemma completionIndex_range (R : list str) (c : str) :
  -1 <= completionIndex R c < len R.
Proof.
  unfold len. induction R as [|y R IH]; [unfold completionIndex; simpl; lia|].
  rewrite completionIndex_cons. simpl length.
  destruct (bool_decide (y = c)); [lia|].
  destruct (Z.leb_spec 0 (completionIndex R c)); lia.
Qed.

(** A position that is not [-1] is the first place where the value is. *)
Lemma completionIndex_found (R : list str) (c : str) :
  0 <= completionIndex R c ->
  R !! Z.to_nat (completionIndex R c) = Some c.
Proof.
  induction R as [|y R IH]; [unfold completionIndex; simpl; lia|].
  rewrite completionIndex_cons.
  destruct (bool_decide (y = c)) eqn:E.
  - apply bool_decide_eq_true in E. now subst.
  - destruct (Z.leb_spec 0 (completionIndex R c)) as [H|H]; [|lia].
    intros _. replace (Z.to_nat (completionIndex R c + 1))
      with (S (Z.to_nat (completionIndex R c))) by lia.
    now apply IH.
Qed.

Lemma completionIndex_first (R : list str) (c : str) (j : nat) :
  R !! j = Some c -> 0 <= completionIndex R c <= Z.of_nat j.
Proof.
  revert j; induction R as [|y R IH]; intros j Hj; [discriminate|].
  rewrite completionIndex_cons.
  destruct (bool_decide (y = c)) eqn:E; [lia|].
  apply bool_decide_eq_false in E.
  destruct j as [|j]; simpl in Hj; [congruence|].
  specialize (IH j Hj).
  destruct (Z.leb_spec 0 (completionIndex R c)); lia.
Qed.

Lemma completionIndex_NoDup (R : list str) (c : str) (j : nat) :
  NoDup R -> R !! j = Some c -> completionIndex R c = Z.of_nat j.
Proof.
  intros HR Hj.
  pose proof (completionIndex_first R c j Hj) as [H0 H1].
  pose proof (completionIndex_found R c H0) as Hf.
  pose proof (NoDup_lookup R _ _ c HR Hf Hj). lia.
Qed.

(** C1: the ranker sorts the filtered completions twice with a stable sort,
    first by position in the recency list, later positions first and absent
    candidates last, then so that the candidates that start with the typed
    prefix in its exact case come first, ties keeping the order of the first
    sort.  Hence the pre-selected candidate [best] starts with the exact-case
    prefix whenever some listed candidate does, and among the candidates
    that tie with it on that, none stands later in the recency list. *)
Theorem C1_rank_prefers_recent_unless_matching_case (w : world) (start : Z) :
  autocompleteStart (self w) = Some start ->
  filtered w start <> [] ->
  let prefix := selectedText (self w) start in
  let R := recent w in
  exists row best w',
    updateAutocompleterPrefix w = Ret w'
    /\ popup_calls w w' [setCurrentIndex (Z.of_nat row)]
    /\ StronglySorted (by_case R prefix)
         (rank R prefix (completion_rows (filtered w start)))
    /\ hd_error (rank R prefix (completion_rows (filtered w start)))
       = Some (Z.of_nat row, best)
    /\ filtered w start !! row = Some best
    /\ forall r c, filtered w start !! r = Some c ->
         (startswith c prefix = true -> startswith best prefix = true)
         /\ (startswith c prefix = startswith best prefix ->
             completionIndex R c <= completionIndex R best
             /\ (completionIndex R c = completionIndex R best -> (row <= r)%nat)
             /\ forall j, NoDup R -> R !! j = Some c ->
                  exists i, R !! i = Some best /\ (j <= i)%nat).
Proof.
  intros Hstart Hne prefix R.
  destruct (rank_head R prefix (filtered w start) Hne)
    as (row & best & rest & Hrank & Hbest & Hall).
  exists row, best.
  unfold updateAutocompleterPrefix. rewrite Hstart.
  fold prefix. change (completionModel (setCompletionPrefix prefix (self w)))
    with (filtered w start).
  assert (Hlen : negb (len (filtered w start) =? 0) = true).
  { unfold len. destruct (filtered w start); [congruence|reflexivity]. }
  rewrite Hlen. fold R. rewrite Hrank. simpl.
  eexists. split; [reflexivity|].
  split; [reflexivity|].
  split; [rewrite <- Hrank; apply rank_sorted|].
  split; [reflexivity|]. split; [assumption|].
  intros r c Hc.
  destruct (decide (r = row)) as [->|Hr].
  { rewrite Hbest in Hc. inversion Hc; subst c.
    split; [auto|]. intros _. split; [lia|]. split; [lia|].
    intros j _ Hj. exists j. split; [assumption|lia]. }
  specialize (Hall r c Hc Hr).
  unfold by_case, by_recency, stable_before, by_row, bool_ltb in Hall.
  simpl in Hall.
  split.
  - intros Ec. rewrite Ec in Hall.
    destruct (startswith best prefix); [reflexivity|].
    destruct Hall as [H|[H _]]; discriminate.
  - intros Etie. rewrite Etie in Hall.
    assert (Hrec : completionIndex R c <= completionIndex R best
                   /\ (completionIndex R c = completionIndex R best -> (row <= r)%nat)).
    { destruct Hall as [H|[_ [H|[H1 H2]]]].
      - destruct (startswith best prefix); discriminate.
      - apply Z.ltb_lt in H. lia.
      - apply Z.ltb_ge in H1. lia. }
    destruct Hrec as [H1 H2]. split; [assumption|]. split; [assumption|].
    intros j HR Hj.
    pose proof (completionIndex_NoDup R c j HR Hj) as Ej.
    assert (H0 : 0 <= completionIndex R best) by lia.
    exists (Z.to_nat (completionIndex R best)).
    split; [now apply completionIndex_found|lia].
Qed.

(** ** The session: what [__updateAutocompleterPrefix] does *)

Lemma update_inactive (w : world) :
  autocompleteStart (self w) = None ->
  updateAutocompleterPrefix w = Ret (with_self w (call_popup hide (self w))).
Proof.
  intros H. unfold updateAutocompleterPrefix. now rewrite H.
Qed.

Lemma update_no_match (w : world) (start : Z) :
  autocompleteStart (self w) = Some start ->
  filtered w start = [] ->
  updateAutocompleterPrefix w =
    Ret (with_self w (autocompleteCancel
           (setCompletionPrefix (selectedText (self w) start) (self w)))).
Proof.
  intros Hs Hf. unfold updateAutocompleterPrefix. rewrite Hs.
  unfold filtered in Hf. now rewrite Hf.
Qed.

Lemma update_match (w : world) (start : Z) :
  autocompleteStart (self w) = Some start ->
  filtered w start <> [] ->
  exists row best,
    updateAutocompleterPrefix w =
      Ret (with_self w (call_popup (setCurrentIndex (Z.of_nat row))
             (setCompletionPrefix (selectedText (self w) start) (self w))))
    /\ filtered w start !! row = Some best.
Proof.
  intros Hs Hne.
  destruct (rank_head (recent w) (selectedText (self w) start)
              (filtered w start) Hne) as (row & best & rest & Hrank & Hbest & _).
  exists row, best. split; [|assumption].
  unfold updateAutocompleterPrefix. rewrite Hs.
  change (completionModel (setCompletionPrefix (selectedText (self w) start) (self w)))
    with (filtered w start).
  assert (Hlen : negb (len (filtered w start) =? 0) = true).
  { unfold len. destruct (filtered w start); [congruence|reflexivity]. }
  rewrite Hlen, Hrank. reflexivity.
Qed.

Lemma filtered_spec (w : world) (start : Z) (c : str) :
  c ∈ filtered w start <->
  c ∈ completerModel (self w)
  /\ startswith (lower c) (lower (selectedText (self w) start)) = true.
Proof.
  unfold filtered, completionModel; simpl.
  rewrite !list_elem_of_In.
  apply (filter_In
    (fun c => startswith (lower c) (lower (selectedText (self w) start)))).
Qed.

(** C5: when no candidate case-insensitively starts with the current prefix
    while a session is open, the ranker selects nothing and the session is
    closed, the popup being hidden; and whatever row the ranker selects is a
    row of the filtered candidates.  The update always returns. *)
Theorem C5_no_match_closes_session (w : world) :
  exists w' calls,
    updateAutocompleterPrefix w = Ret w'
    /\ popup_calls w w' calls
    /\ (forall start,
          autocompleteStart (self w) = Some start ->
          filtered w start = [] ->
          calls = [hide] /\ autocompleteStart (self w') = None)
    /\ (forall row,
          setCurrentIndex row ∈ calls ->
          exists start c,
            autocompleteStart (self w) = Some start
            /\ 0 <= row
            /\ filtered w start !! Z.to_nat row = Some c
            /\ c ∈ completerModel (self w)
            /\ startswith (lower c) (lower (selectedText (self w) start)) = true).
Proof.
  destruct (autocompleteStart (self w)) as [start|] eqn:Hs.
  - destruct (filtered w start) as [|c0 l0] eqn:Hf.
    + eexists _, [hide]. rewrite (update_no_match w start Hs Hf).
      split; [reflexivity|]. split; [reflexivity|]. split.
      * intros s _ _. split; reflexivity.
      * intros row Hrow. apply list_elem_of_singleton in Hrow. discriminate.
    + assert (Hne : filtered w start <> []) by (rewrite Hf; discriminate).
      destruct (update_match w start Hs Hne) as (row & best & Hu & Hbest).
      eexists _, [setCurrentIndex (Z.of_nat row)]. rewrite Hu.
      split; [reflexivity|]. split; [reflexivity|]. split.
      * intros s Es Ef. inversion Es; subst s. congruence.
      * intros r Hr. apply list_elem_of_singleton in Hr. inversion Hr; subst r.
        exists start, best. split; [reflexivity|]. split; [lia|].
        rewrite Nat2Z.id. split; [assumption|].
        apply filtered_spec. eapply list_elem_of_lookup_2. eassumption.
  - eexists _, [hide]. rewrite (update_inactive w Hs).
    split; [reflexivity|]. split; [reflexivity|]. split.
    + intros s Es. discriminate.
    + intros row Hrow. apply list_elem_of_singleton in Hrow. discriminate.
Qed.

(** ** The line-prefix parser *)

Lemma index_nat {A : Type} (s : list A) (n : nat) (c : A) :
  nth_error s n = Some c -> index s (Z.of_nat n) = Ret c.
Proof.
  intros H. unfold index.
  destruct (Z.ltb_spec (Z.of_nat n) 0) as [?|_]; [lia|].
  destruct (Z.ltb_spec (Z.of_nat n) 0) as [?|_]; [lia|].
  now rewrite Nat2Z.id, H.
Qed.

Lemma index_in_range {A : Type} (s : list A) (n : nat) :
  (n < length s)%nat -> exists c, index s (Z.of_nat n) = Ret c.
Proof.
  intros H. destruct (nth_error s n) as [c|] eqn:E.
  - exists c. now apply index_nat.
  - apply nth_error_None in E. lia.
Qed.

(** The loop never raises: every index it reads lies in the text. *)
Lemma scan_returns (text : str) (n : nat) (i i_base : Z) :
  (n <= length text)%nat -> returns (scan text n i i_base).
Proof.
  revert i i_base; induction n as [|n IH]; intros i i_base Hn; cbn [scan].
  - eexists; reflexivity.
  - destruct (index_in_range text n) as [c Hc]; [lia|].
    rewrite Hc; cbn [bind].
    destruct (Ascii.eqb c "."); [apply IH; lia|].
    destruct (Ascii.eqb c squote || Ascii.eqb c dquote).
    { destruct (_ =? _); eexists; reflexivity. }
    destruct (Ascii.eqb c "]").
    { destruct ((i_base =? Z.of_nat n + 1) && (0 <? Z.of_nat n)) eqn:E.
      - apply andb_true_iff in E as [_ E]. apply Z.ltb_lt in E.
        destruct (index_in_range text (n - 1)) as [d Hd]; [lia|].
        replace (Z.of_nat n - 1) with (Z.of_nat (n - 1)) by lia.
        rewrite Hd; cbn [bind]. destruct (Ascii.eqb d "["); eexists; reflexivity.
      - cbn [bind]. eexists; reflexivity. }
    destruct (negb (contains c namechars)); [eexists; reflexivity|].
    apply IH; lia.
Qed.

Lemma parseLine_returns (text : str) : returns (parseLine_autocomplete text).
Proof.
  unfold parseLine_autocomplete.
  destruct (_ && _); [eexists; reflexivity|].
  destruct (scan_returns text (length text) (rfind "#" text) 0) as [e He]; [lia|].
  rewrite He; cbn [bind]. destruct e; eexists; reflexivity.
Qed.

Lemma i_base_after_snoc (s : str) (x : ascii) (off : nat) (ib : Z) :
  i_base_after off (s ++ [x]) ib =
  i_base_after off s
    (if Ascii.eqb x "."%char
     then if ib =? 0 then Z.of_nat (off + length s) else ib
     else ib).
Proof.
  revert off; induction s as [|y s IH]; intros off; simpl.
  - now rewrite Nat.add_0_r.
  - rewrite IH. replace (S off + length s)%nat with (off + S (length s))%nat by lia.
    reflexivity.
Qed.

(** The loop walks over name characters and dots and only updates
    [i_base]. *)
Lemma scan_walk (pre suf post : str) (i ib : Z) :
  forallb name_or_dot suf = true ->
  scan (pre ++ suf ++ post) (length pre + length suf) i ib =
  scan (pre ++ suf ++ post) (length pre)
       (match suf with [] => i | _ => Z.of_nat (length pre) end)
       (i_base_after (length pre) suf ib).
Proof.
  revert post i ib. induction suf as [|x suf IH] using rev_ind; intros post i ib Hall.
  - simpl. now rewrite Nat.add_0_r.
  - rewrite forallb_app in Hall. apply andb_true_iff in Hall as [Hsuf Hx].
    simpl in Hx. rewrite andb_true_r in Hx.
    rewrite length_app; simpl.
    replace (length pre + (length suf + 1))%nat
      with (S (length pre + length suf)) by lia.
    cbn [scan].
    assert (Hidx : nth_error (pre ++ (suf ++ [x]) ++ post)
                             (length pre + length suf) = Some x).
    { rewrite nth_error_app2 by lia.
      replace (length pre + length suf - length pre)%nat with (length suf) by lia.
      rewrite <- app_assoc. rewrite nth_error_app2 by lia.
      now rewrite Nat.sub_diag. }
    rewrite (index_nat _ _ _ Hidx). cbn [bind].
    rewrite i_base_after_snoc.
    rewrite <- (app_assoc suf [x] post) in *.
    unfold name_or_dot, is_namechar in Hx.
    destruct (Ascii.eqb x ".") eqn:Edot.
    + rewrite IH by assumption.
      destruct suf; simpl; [now rewrite Nat.add_0_r|].
      destruct (suf ++ [x]) eqn:E; [now destruct suf|reflexivity].
    + rewrite orb_false_r in Hx.
      assert (Hq : Ascii.eqb x squote || Ascii.eqb x dquote = false).
      { unfold squote, dquote.
        destruct (Ascii.eqb_spec x "'"); [subst; discriminate|].
        destruct (Ascii.eqb_spec x "034"); [subst; discriminate|]. reflexivity. }
      rewrite Hq.
      assert (Hb : Ascii.eqb x "]" = false).
      { destruct (Ascii.eqb_spec x "]"); [subst; discriminate|]. reflexivity. }
      rewrite Hb, Hx. cbn [negb].
      rewrite IH by assumption.
      destruct suf; simpl; [now rewrite Nat.add_0_r|].
      destruct (suf ++ [x]) eqn:E; [now destruct suf|reflexivity].
Qed.

Lemma namechar_not_dot (c : ascii) :
  is_namechar c = true -> Ascii.eqb c "."%char = false.
Proof.
  intros H. destruct (Ascii.eqb_spec c "."); [subst; discriminate|reflexivity].
Qed.

Lemma i_base_after_names (s : str) (off : nat) (ib : Z) :
  forallb is_namechar s = true -> i_base_after off s ib = ib.
Proof.
  revert off; induction s as [|x s IH]; intros off H; simpl in *; [reflexivity|].
  apply andb_true_iff in H as [Hx Hs].
  rewrite (namechar_not_dot x Hx). now apply IH.
Qed.

Lemma i_base_after_bound (s : str) (off : nat) :
  i_base_after off s 0 = 0 \/ Z.of_nat off <= i_base_after off s 0.
Proof.
  revert off; induction s as [|x s IH]; intros off; simpl; [now left|].
  destruct (IH (S off)) as [H|H].
  - rewrite H. destruct (Ascii.eqb x "."); simpl; [right; lia|now left].
  - destruct (Ascii.eqb x "."); [|right; lia].
    destruct (Z.eqb_spec (i_base_after (S off) s 0) 0); right; lia.
Qed.

Lemma i_base_after_zero (s : str) (off : nat) :
  (1 <= off)%nat ->
  forallb name_or_dot s = true ->
  i_base_after off s 0 = 0 ->
  forallb is_namechar s = true.
Proof.
  revert off; induction s as [|x s IH]; intros off Hoff Hall H0; [reflexivity|].
  simpl in *. apply andb_true_iff in Hall as [Hx Hs].
  unfold name_or_dot in Hx.
  destruct (Ascii.eqb x ".") eqn:E.
  - destruct (Z.eqb_spec (i_base_after (S off) s 0) 0); lia.
  - rewrite orb_false_r in Hx. rewrite Hx. simpl.
    apply (IH (S off)); [lia|assumption|assumption].
Qed.

(** [i_base] ends on the index right after the stopping character exactly
    when what was walked over is one dot and then a name. *)
Lemma i_base_after_here (s : str) (off : nat) :
  (1 <= off)%nat ->
  forallb name_or_dot s = true ->
  (i_base_after off s 0 =? Z.of_nat off) = dot_then_name s.
Proof.
  intros Hoff Hall. destruct s as [|x s]; cbn [i_base_after dot_then_name].
  - apply Z.eqb_neq. lia.
  - cbn [forallb] in Hall. apply andb_true_iff in Hall as [Hx Hs].
    destruct (i_base_after_bound s (S off)) as [H|H].
    + rewrite H. rewrite (i_base_after_zero s (S off)) by (lia || assumption).
      destruct (Ascii.eqb x "."); cbn [andb].
      * rewrite ?Z.eqb_refl. reflexivity.
      * apply Z.eqb_neq. lia.
    + assert (Hn : forallb is_namechar s = false).
      { destruct (forallb is_namechar s) eqn:E; [|reflexivity].
        rewrite (i_base_after_names s (S off) 0 E) in H. lia. }
      rewrite Hn, andb_false_r.
      destruct (Ascii.eqb x ".").
      * destruct (Z.eqb_spec (i_base_after (S off) s 0) 0); [lia|].
        apply Z.eqb_neq. lia.
      * apply Z.eqb_neq. lia.
Qed.

Lemma ends_with_last (pre : str) (d : ascii) :
  nth_error pre (length pre - 1) = Some d -> pre <> [] ->
  ends_with "["%char pre = Ascii.eqb d "["%char.
Proof.
  intros H Hne. unfold ends_with.
  destruct pre as [|x pre] using rev_ind; [congruence|].
  rewrite map_app. cbn [map]. rewrite last_last.
  rewrite length_app in H; simpl in H.
  rewrite nth_error_app2 in H by lia.
  replace (length pre + 1 - 1 - length pre)%nat with 0%nat in H by lia.
  simpl in H. now inversion H.
Qed.

(** Every pattern the parser does not recognize degrades to two empty
    strings. *)
Lemma parseLine_unrecognized (pre : str) (c : ascii) (suf : str) :
  forallb name_or_dot suf = true ->
  name_or_dot c = false ->
  unrecognized pre c suf = true ->
  parseLine_autocomplete (pre ++ c :: suf) = Ret (py "", py "").
Proof.
  intros Hsuf Hc Hun. unfold parseLine_autocomplete.
  destruct (_ && _); [reflexivity|].
  set (text := pre ++ c :: suf).
  assert (Etext : text = (pre ++ [c]) ++ suf ++ []).
  { unfold text. now rewrite <- app_assoc, app_nil_r. }
  assert (Elen : length text = (length (pre ++ [c]) + length suf)%nat).
  { rewrite Etext, !length_app. simpl. lia. }
  rewrite Elen. rewrite Etext at 1.
  rewrite scan_walk by assumption. rewrite <- Etext.
  rewrite length_app; simpl length.
  replace (length pre + 1)%nat with (S (length pre)) by lia.
  assert (Hidx : nth_error text (length pre) = Some c).
  { unfold text. rewrite nth_error_app2 by lia. now rewrite Nat.sub_diag. }
  cbn [scan]. rewrite (index_nat _ _ _ Hidx). cbn [bind].
  unfold name_or_dot in Hc. apply orb_false_iff in Hc as [Hname Hdot].
  rewrite Hdot.
  pose proof (i_base_after_here suf (S (length pre)) ltac:(lia) Hsuf) as Hhere.
  replace (Z.of_nat (S (length pre))) with (Z.of_nat (length pre) + 1) in Hhere by lia.
  unfold unrecognized, is_quote in Hun.
  destruct (Ascii.eqb c squote || Ascii.eqb c dquote).
  { rewrite Hhere. apply negb_true_iff in Hun. now rewrite Hun. }
  destruct (Ascii.eqb c "]").
  { rewrite Hhere. apply negb_true_iff in Hun.
    destruct (dot_then_name suf); simpl in *; [|reflexivity].
    destruct (Z.ltb_spec 0 (Z.of_nat (length pre))) as [Hpos|Hpos]; [|reflexivity].
    destruct (nth_error pre (length pre - 1)) as [d|] eqn:Hd';
      [|apply nth_error_None in Hd'; lia].
    assert (Hd : nth_error text (length pre - 1) = Some d).
    { unfold text. rewrite nth_error_app1 by lia. assumption. }
    replace (Z.of_nat (length pre) - 1) with (Z.of_nat (length pre - 1)) by lia.
    rewrite (index_nat _ _ _ Hd). cbn [bind].
    rewrite (ends_with_last pre d Hd') in Hun by (destruct pre; simpl in *; [lia|discriminate]).
    now rewrite Hun. }
  unfold is_namechar in Hname. rewrite Hname. cbn [negb].
  destruct suf; [|discriminate]. simpl i_base_after.
  unfold finish. simpl. unfold slice_from, clamp.
  destruct (Z.ltb_spec (Z.of_nat (length pre) + 1) 0); [lia|].
  rewrite skipn_all2; [reflexivity|].
  unfold len. rewrite Elen, length_app. simpl. lia.
Qed.

Lemma rfind_absent (c : ascii) (s : str) : c ∉ s -> rfind c s = -1.
Proof.
  induction s as [|x s IH]; intros H; simpl; [reflexivity|].
  apply not_elem_of_cons in H as [Hx Hs]. rewrite (IH Hs). simpl.
  destruct (Ascii.eqb_spec x c); congruence.
Qed.

(** [rfind] finds the last occurrence. *)
Lemma rfind_last (c : ascii) (pre suf : str) :
  c ∉ suf -> rfind c (pre ++ c :: suf) = len pre.
Proof.
  intros H. unfold len. induction pre as [|x pre IH]; cbn [app rfind length].
  - rewrite (rfind_absent c suf H). simpl. now rewrite Ascii.eqb_refl.
  - rewrite IH. destruct (Z.leb_spec 0 (Z.of_nat (length pre))); lia.
Qed.

Lemma slice_to_app {A : Type} (pre suf : list A) :
  slice_to (pre ++ suf) (len pre) = pre.
Proof.
  unfold slice_to, clamp, len. rewrite length_app.
  destruct (Z.ltb_spec (Z.of_nat (length pre)) 0); [lia|].
  rewrite Z.min_l by lia. rewrite Nat2Z.id.
  rewrite firstn_app, firstn_all, Nat.sub_diag. simpl. apply app_nil_r.
Qed.

(** C2 (as the code has it): after a string literal the parser returns the
    marker for strings, so the first example holds.  The marker for lists is
    returned only when the dot directly follows an empty pair of brackets:
    [x = [].ap] gives it, the example [x = [1,2].ap] gives two empty
    strings. *)
Theorem C2_string_and_empty_list_markers :
  parseLine_autocomplete (py "x = 'abc'.up") = Ret (py "''", py "up")
  /\ parseLine_autocomplete (py "x = [].ap") = Ret (py "[]", py "ap")
  /\ parseLine_autocomplete (py "x = [1,2].ap") = Ret (py "", py "").
Proof. repeat split; vm_compute; reflexivity. Qed.

(** C2, the example that fails: on [x = [1,2].ap] the parser does not return
    the list marker. *)
Lemma C2_list_example_fails :
  parseLine_autocomplete (py "x = [1,2].ap") = Ret (py "", py "")
  /\ parseLine_autocomplete (py "x = [1,2].ap") <> Ret (py "[]", py "ap").
Proof. split; vm_compute; [reflexivity|discriminate]. Qed.

(** C3 (as the code has it): when the last [#] of the text has an even
    number of double quotes and an even number of single quotes before it,
    the whole line counts as a comment and the parser returns two empty
    strings. *)
Theorem C3_last_marker_outside_quotes (pre suf : str) :
  "#"%char ∉ suf ->
  count dquote pre mod 2 = 0 ->
  count squote pre mod 2 = 0 ->
  parseLine_autocomplete (pre ++ "#"%char :: suf) = Ret (py "", py "").
Proof.
  intros Hsuf Hd Hs. unfold parseLine_autocomplete.
  rewrite (rfind_last _ pre suf Hsuf), slice_to_app, Hd, Hs.
  unfold len. destruct (Z.leb_spec 0 (Z.of_nat (length pre))); [reflexivity|lia].
Qed.

Lemma C3_commented_line :
  parseLine_autocomplete (py "# food.ban") = Ret (py "", py "").
Proof.
  apply (C3_last_marker_outside_quotes [] (py " food.ban")).
  - vm_compute. intros H. repeat (apply elem_of_cons in H as [H|H]; [discriminate|]).
    now apply elem_of_nil in H.
  - reflexivity.
  - reflexivity.
Defined.

(** C3, an input on which the claim fails: the first [#] of [#'#x] has no
    quote before it, yet the line is not taken for a comment, because only
    the last [#] is looked at. *)
Lemma C3_first_marker_ignored :
  count dquote [] mod 2 = 0
  /\ count squote [] mod 2 = 0
  /\ [] ++ "#"%char :: py "'#x" = py "#'#x"
  /\ parseLine_autocomplete (py "#'#x") = Ret (py "", py "x")
  /\ parseLine_autocomplete (py "#'#x") <> Ret (py "", py "").
Proof. repeat split; vm_compute; try reflexivity. discriminate. Qed.

(** A dot at index 0 is not told from no dot at all, since [i_base = 0]
    stands for both: the dot ends up in the partial name. *)
Example leading_dot :
  parseLine_autocomplete (py ".") = Ret (py "", py ".")
  /\ parseLine_autocomplete (py ".ab") = Ret (py "", py ".ab")
  /\ parseLine_autocomplete (py "a.") = Ret (py "a", py "").
Proof. repeat split; vm_compute; reflexivity. Qed.

(** C4: an ordinary identifier context is split at the rightmost dot. *)
Theorem C4_split_at_rightmost_dot :
  parseLine_autocomplete (py "eat = banan") = Ret (py "", py "banan")
  /\ parseLine_autocomplete (py "eat = food.fruit.ban")
     = Ret (py "food.fruit", py "ban").
Proof. split; vm_compute; reflexivity. Qed.

(** C6: the parser is total.  It is a structural recursion over the indices
    of the text, it returns a pair on every input and raises on none, and
    the empty text and every pattern it does not recognize give two empty
    strings. *)
Theorem C6_parser_total :
  (forall text, exists base partial,
      parseLine_autocomplete text = Ret (base, partial))
  /\ parseLine_autocomplete (py "") = Ret (py "", py "")
  /\ (forall pre c suf,
        forallb name_or_dot suf = true ->
        name_or_dot c = false ->
        unrecognized pre c suf = true ->
        parseLine_autocomplete (pre ++ c :: suf) = Ret (py "", py "")).
Proof.
  split; [|split].
  - intros text. destruct (parseLine_returns text) as [[base partial] H].
    now exists base, partial.
  - reflexivity.
  - apply parseLine_unrecognized.
Qed.

Lemma C6_witness :
  parseLine_autocomplete (py "x = 'abc") = Ret (py "", py "")
  /\ parseLine_autocomplete (py "a]") = Ret (py "", py "")
  /\ parseLine_autocomplete (py "1 + (") = Ret (py "", py "").
Proof.
  destruct C6_parser_total as (_ & _ & H).
  split; [|split].
  - apply (H (py "x = ") "'"%char (py "abc")); reflexivity.
  - apply (H (py "a") "]"%char (py "")); reflexivity.
  - apply (H (py "1 + ") "("%char (py "")); reflexivity.
Defined.

(** ** The position tracker *)

Lemma replace_range_insert (b : str) (p : Z) (s : str) :
  0 <= p <= len b ->
  replace_range b p p s
  = firstn (Z.to_nat p) b ++ s ++ skipn (Z.to_nat p) b.
Proof.
  intros Hp. unfold replace_range, slice_to, slice_from, clamp.
  destruct (Z.ltb_spec p 0); [lia|].
  now rewrite Z.min_l by lia.
Qed.

(** Taking out what was put in gives the buffer back. *)
Lemma replace_range_round_trip (b : str) (p : Z) (s : str) :
  0 <= p <= len b ->
  replace_range (replace_range b p p s) p (p + len s) [] = b.
Proof.
  intros Hp. rewrite replace_range_insert by assumption.
  unfold len in *.
  set (b1 := firstn (Z.to_nat p) b). set (b2 := skipn (Z.to_nat p) b).
  assert (H1 : length b1 = Z.to_nat p).
  { unfold b1. rewrite length_firstn. lia. }
  unfold replace_range, slice_to, slice_from, clamp, len.
  rewrite !length_app.
  destruct (Z.ltb_spec p 0); [lia|].
  destruct (Z.ltb_spec (p + Z.of_nat (length s)) 0); [lia|].
  rewrite !Z.min_l by lia.
  rewrite firstn_app, <- H1, firstn_all, Nat.sub_diag. cbn [firstn].
  rewrite app_nil_r. cbn [app].
  replace (Z.to_nat (p + Z.of_nat (length s))) with (length b1 + length s)%nat by lia.
  rewrite app_assoc, skipn_app, <- length_app, skipn_all, Nat.sub_diag.
  change (b1 ++ b2 = b). apply firstn_skipn.
Qed.

(** C9: inserting characters before the anchor shifts the anchor forward
    by their number, deleting a range that ends at or before the anchor
    shifts it backward by the length of the range, and deleting the
    characters that were just inserted gives back the buffer and the
    anchor. *)
Theorem C9_anchor_round_trip (t : tracked) (p : Z) (s : str) :
  0 <= p <= anchor t ->
  anchor t <= len (buffer t) ->
  (p < anchor t -> anchor (insert p s t) = anchor t + len s)
  /\ (forall n, 0 <= n -> p + n <= anchor t ->
        anchor_after_delete p n (anchor t) = Some (anchor t - n))
  /\ delete p (len s) (insert p s t) = Some t.
Proof.
  intros Hp Ha. destruct t as [b a]; simpl in *.
  split; [|split].
  - intros Hlt. unfold anchor_after_insert.
    destruct (Z.ltb_spec p a); [reflexivity|lia].
  - intros n Hn Hpn. unfold anchor_after_delete.
    destruct (Z.leb_spec (p + n) a); [reflexivity|lia].
  - unfold delete, insert; simpl.
    assert (Hs : 0 <= len s) by (unfold len; lia).
    rewrite replace_range_round_trip by lia.
    unfold anchor_after_insert, anchor_after_delete.
    destruct (Z.ltb_spec p a).
    + destruct (Z.leb_spec (p + len s) (a + len s)); [|lia].
      do 2 f_equal. lia.
    + assert (p = a) by lia. subst p.
      destruct (Z.leb_spec (a + len s) a).
      * do 2 f_equal. lia.
      * destruct (Z.ltb_spec a a); [lia|reflexivity].
Qed.

Lemma C9_witness :
  delete 2 (len (py "xy")) (insert 2 (py "xy") (Tracked (py "abcdef") 4))
  = Some (Tracked (py "abcdef") 4).
Proof.
  apply (C9_anchor_round_trip (Tracked (py "abcdef") 4) 2 (py "xy")).
  - simpl. lia.
  - vm_compute. discriminate.
Defined.

(** ** The shell-side completion path *)



(** C10: the completion of a name behind a dotted base.  For the line
    [os.path.zz] the timer's handler requests the names in [os.path] and
    stores the name [os.path.zz].  When the response comes, in which no
    name starts with [zz], [autoComplete_process] raises [ValueError] where
    it unpacks the stored name split at every dot: no message is sent, the
    popup is not cancelled. *)
Theorem C10_dotted_base_raises :
  let c := fst (autoComplete_do_now true ctrl_zz) in
  snd (autoComplete_do_now true ctrl_zz) = Ret (Some (py "DIR os.path"))
  /\ ctrl_autoComp_name c = py "os.path.zz"
  /\ Forall (fun item => startswith (lower item) (py "zz") = false)
            (split ","%char (py "abspath,join"))
  /\ autoComplete_process (context_of c true None false) (py "abspath,join")
     = Raise ValueError.
Proof.
  split; [reflexivity|]. split; [reflexivity|]. split; [|reflexivity].
  repeat constructor.
Qed.


(** ** The recency list *)

Lemma list_remove_spec (x : str) (l : list str) :
  x ∈ l ->
  exists l1 l2,
    l = l1 ++ x :: l2 /\ (x ∉ l1) /\ list_remove x l = Ret (l1 ++ l2).
Proof.
  induction l as [|y l IH]; intros Hin; [now apply elem_of_nil in Hin|].
  simpl. destruct (bool_decide (y = x)) eqn:E.
  - apply bool_decide_eq_true in E; subst y.
    exists [], l. split; [reflexivity|]. split; [apply not_elem_of_nil|reflexivity].
  - apply bool_decide_eq_false in E.
    apply elem_of_cons in Hin as [->|Hin]; [congruence|].
    destruct (IH Hin) as (l1 & l2 & Hl & Hx & Hr).
    exists (y :: l1), l2. split; [simpl; congruence|]. split.
    + apply not_elem_of_cons. split; [congruence|assumption].
    + now rewrite Hr.
Qed.

Lemma filter_absent (x : str) (l : list str) :
  x ∉ l -> List.filter (fun y => negb (bool_decide (y = x))) l = l.
Proof.
  induction l as [|y l IH]; intros H; simpl; [reflexivity|].
  apply not_elem_of_cons in H as [Hy Hl].
  rewrite bool_decide_eq_false_2 by congruence. simpl. now rewrite IH.
Qed.

(** What accepting [text] makes of the list [l]. *)
Lemma accept_list (text : str) (l : list str) :
  exists r,
    (if list_in text l then list_remove text l else Ret l) = Ret r
    /\ (NoDup l ->
        r = List.filter (fun y => negb (bool_decide (y = text))) l
        /\ NoDup (r ++ [text])
        /\ (text ∈ l -> length (r ++ [text]) = length l)).
Proof.
  unfold list_in. destruct (bool_decide (text ∈ l)) eqn:E.
  - apply bool_decide_eq_true in E.
    destruct (list_remove_spec text l E) as (l1 & l2 & Hl & Hx & Hr).
    exists (l1 ++ l2). split; [assumption|]. intros Hnd. subst l.
    apply NoDup_app in Hnd as (Hnd1 & Hdisj & Hnd2).
    apply NoDup_cons in Hnd2 as [Hx2 Hnd2].
    split; [|split].
    + rewrite List.filter_app. simpl.
      rewrite bool_decide_eq_true_2 by reflexivity. simpl.
      now rewrite !filter_absent.
    + apply NoDup_app. split; [|split].
      * apply NoDup_app. split; [assumption|]. split; [|assumption].
        intros y Hy1 Hy2. apply (Hdisj y Hy1). now right.
      * intros y Hy Hy'. apply list_elem_of_singleton in Hy'. subst y.
        apply elem_of_app in Hy as [Hy|Hy]; contradiction.
      * apply NoDup_singleton.
    + intros _. rewrite !length_app. simpl. lia.
  - apply bool_decide_eq_false in E.
    exists l. split; [reflexivity|]. intros Hnd.
    split; [now rewrite filter_absent|]. split; [|contradiction].
    apply NoDup_app. split; [assumption|]. split; [|apply NoDup_singleton].
    intros y Hy Hy'. apply list_elem_of_singleton in Hy'. now subst y.
Qed.

Lemma recent_NoDup (w : world) : unique_lists w -> NoDup (recent w).
Proof.
  intros H. unfold recent.
  destruct (lists w !! recentCompletions (self w)) as [r|] eqn:E; simpl.
  - eapply H; eassumption.
  - constructor.
Qed.

(** Accepting a completion. *)
Lemma accept_step (text : str) (w w' : world) :
  onAutoComplete text w = Ret w' ->
  unique_lists w ->
  unique_lists w'
  /\ recentCompletions (self w') = recentCompletions (self w)
  /\ recent w'
     = List.filter (fun y => negb (bool_decide (y = text))) (recent w) ++ [text]
  /\ NoDup (recent w')
  /\ List.last (recent w') [] = text
  /\ (text ∈ recent w -> length (recent w') = length (recent w))
  /\ (forall l, l <> recentCompletions (self w) -> lists w' !! l = lists w !! l).
Proof.
  intros Hrun Huniq. unfold onAutoComplete in Hrun.
  destruct (autocompleteStart (self w)) as [start|] eqn:Hs; [|discriminate].
  destruct (accept_list text (recent w)) as (r & Hr & Hprop).
  rewrite Hr in Hrun. cbn [bind] in Hrun.
  destruct (Hprop (recent_NoDup w Huniq)) as (Hfilter & Hnd & Hlen).
  destruct w as [ls [doc cur model pre names loc st pop]].
  simpl in *. inversion Hrun; subst w'; clear Hrun.
  unfold recent; simpl. rewrite lookup_insert_eq. simpl.
  split; [|split; [reflexivity|]].
  { intros l x Hl. cbn [lists] in Hl.
    destruct (decide (l = loc)) as [->|Hne].
    - rewrite lookup_insert_eq in Hl. inversion Hl; subst x. assumption.
    - rewrite lookup_insert_ne in Hl by congruence. eapply Huniq; eassumption. }
  split; [now rewrite Hfilter|]. split; [assumption|].
  split; [apply last_last|]. split; [assumption|].
  intros l Hne. cbn [lists]. now rewrite lookup_insert_ne by congruence.
Qed.

(** The update of the prefix returns, and touches the editor only. *)
Lemma update_frame (w : world) :
  exists e', updateAutocompleterPrefix w = Ret (with_self w e').
Proof.
  destruct (autocompleteStart (self w)) as [start|] eqn:Hs.
  - destruct (filtered w start) as [|c0 l0] eqn:Hf.
    + eexists. apply (update_no_match w start Hs Hf).
    + assert (Hne : filtered w start <> []) by (rewrite Hf; discriminate).
      destruct (update_match w start Hs Hne) as (row & best & Hu & _).
      eexists. exact Hu.
  - eexists. apply (update_inactive w Hs).
Qed.

Lemma update_lists (w w' : world) :
  updateAutocompleterPrefix w = Ret w' -> lists w' = lists w.
Proof.
  destruct (update_frame w) as [e' He]. rewrite He.
  intros H; inversion H; reflexivity.
Qed.

Lemma replace_names_lists (names : option (list str)) (w : world) :
  lists (replace_names names w) = lists w.
Proof.
  unfold replace_names. destruct names as [n|]; [|reflexivity].
  now destruct (negb _).
Qed.

Lemma show_lists (offset : Z) (names : option (list str)) (w w' : world) :
  autocompleteShow offset names w = Ret w' -> lists w' = lists w.
Proof.
  unfold autocompleteShow.
  destruct (match autocompleteStart (self w) with
            | Some start => negb (movePosition_Left (self w) offset =? start)
            | None => true
            end).
  - unfold positionAutocompleter. cbn [autocompleteStart set_autocompleteStart bind].
    match goal with
    | |- context [updateAutocompleterPrefix (with_self w ?e)] =>
        destruct (update_frame (with_self w e)) as [e1 He1]; rewrite He1
    end.
    cbn [bind]. intros H. apply update_lists in H.
    now rewrite H, replace_names_lists.
  - cbn [bind]. intros H. apply update_lists in H.
    now rewrite H, replace_names_lists.
Qed.

Lemma keyPress_lists (ev : event) (w w' : world) :
  keyPressEvent ev w = Ret w' -> lists w' = lists w.
Proof.
  unfold keyPressEvent.
  destruct (_ && _ && _); [intros H; now inversion H|].
  destruct (_ && _ && _); [intros H; now inversion H|].
  match goal with
  | |- context [super_keyPressEvent ev ?e] =>
      generalize (super_keyPressEvent ev e); intros e1
  end.
  destruct (autocompleteActive e1).
  - unfold positionAutocompleter.
    destruct (autocompleteStart e1); [|discriminate].
    cbn [bind]. intros H. now apply update_lists in H.
  - intros H; now inversion H.
Qed.

(** One operation: accepting changes the recency list as said, any other
    operation leaves every list as it was. *)
Lemma run_step (op : operation) (w w' : world) :
  run op w = Ret w' ->
  unique_lists w ->
  unique_lists w'
  /\ match op with
     | Accept text =>
         recentCompletions (self w') = recentCompletions (self w)
         /\ recent w'
            = List.filter (fun y => negb (bool_decide (y = text))) (recent w)
              ++ [text]
         /\ NoDup (recent w')
         /\ List.last (recent w') [] = text
         /\ (text ∈ recent w -> length (recent w') = length (recent w))
         /\ (forall l, l <> recentCompletions (self w) ->
               lists w' !! l = lists w !! l)
     | _ => lists w' = lists w
     end.
Proof.
  intros Hrun Huniq.
  assert (Hkeep : lists w' = lists w -> unique_lists w').
  { intros E l r. rewrite E. apply Huniq. }
  destruct op as [offset names| |text| |ev|value]; simpl in Hrun.
  - apply show_lists in Hrun. auto.
  - inversion Hrun; subst. auto.
  - apply accept_step; assumption.
  - apply update_lists in Hrun. auto.
  - apply keyPress_lists in Hrun. auto.
  - inversion Hrun; subst. auto.
Qed.

Lemma run_all_unique (ops : list operation) (w w' : world) :
  run_all ops w = Ret w' -> unique_lists w -> unique_lists w'.
Proof.
  revert w; induction ops as [|op ops IH]; intros w Hrun Huniq; simpl in Hrun.
  - inversion Hrun; subst; assumption.
  - destruct (run op w) as [w1|] eqn:E; [|discriminate].
    cbn [bind] in Hrun. apply (IH w1 Hrun).
    now destruct (run_step op w w1 E Huniq).
Qed.

Lemma init_unique (kwlist : list str) (doc : str) (cursor : Z) :
  unique_lists (init kwlist doc cursor ∅) /\ recent (init kwlist doc cursor ∅) = [].
Proof.
  unfold init, recent, unique_lists. cbn [lists self recentCompletions].
  rewrite lookup_insert_eq. split; [|reflexivity].
  intros l r Hl.
  destruct (decide (l = fresh (dom (∅ : gmap loc (list str))))) as [->|Hne].
  - rewrite lookup_insert_eq in Hl. inversion Hl. constructor.
  - rewrite lookup_insert_ne in Hl by congruence. now rewrite lookup_empty in Hl.
Qed.

(** C7: accepting a completion leaves the recency list with each value at
    most once and the accepted value last; a value that was already there is
    moved to the end, the length of the list staying what it was; no other
    operation changes any list.  So after every sequence of operations on a
    new editor, the recency list holds each value at most once. *)
Theorem C7_recency_list_invariant :
  (forall op w w',
      run op w = Ret w' ->
      unique_lists w ->
      unique_lists w'
      /\ match op with
         | Accept text =>
             recentCompletions (self w') = recentCompletions (self w)
             /\ recent w'
                = List.filter (fun y => negb (bool_decide (y = text))) (recent w)
                  ++ [text]
             /\ NoDup (recent w')
             /\ List.last (recent w') [] = text
             /\ (text ∈ recent w -> length (recent w') = length (recent w))
             /\ (forall l, l <> recentCompletions (self w) ->
                   lists w' !! l = lists w !! l)
         | _ => lists w' = lists w
         end)
  /\ (forall kwlist doc cursor ops w',
        run_all ops (init kwlist doc cursor ∅) = Ret w' ->
        unique_lists w' /\ NoDup (recent w')).
Proof.
  split; [apply run_step|].
  intros kwlist doc cursor ops w' Hrun.
  pose proof (run_all_unique ops _ w' Hrun (proj1 (init_unique kwlist doc cursor))) as H.
  split; [assumption|now apply recent_NoDup].
Qed.

Lemma C7_witness :
  exists w',
    run (Accept (py "alpha")) session_a = Ret w'
    /\ recent w' = [py "amend"; py "alpha"]
    /\ autocompleteStart (self w') = None.
Proof.
  destruct (run (Accept (py "alpha")) session_a) as [w'|] eqn:E;
    [|vm_compute in E; discriminate].
  exists w'. split; [reflexivity|].
  assert (Huniq : unique_lists session_a).
  { intros l r Hl. unfold session_a in Hl. cbn [lists] in Hl.
    apply lookup_singleton_Some in Hl as [_ <-].
    apply NoDup_ListNoDup. repeat constructor; simpl; intuition discriminate. }
  destruct (proj1 C7_recency_list_invariant _ _ _ E Huniq) as (_ & _ & Hrec & _).
  split.
  - rewrite Hrec. reflexivity.
  - vm_compute in E. inversion E. reflexivity.
Defined.

(** ** Showing the popup while a session is open *)

Lemma filtered_fields (w1 w2 : world) (a : Z) :
  document (self w1) = document (self w2) ->
  textCursor (self w1) = textCursor (self w2) ->
  completerModel (self w1) = completerModel (self w2) ->
  filtered w1 a = filtered w2 a.
Proof.
  intros Hd Hc Hm. unfold filtered, completionModel, selectedText.
  cbn [setCompletionPrefix completerModel completionPrefix].
  now rewrite Hd, Hc, Hm.
Qed.

Lemma replace_names_fields (names : option (list str)) (w : world) :
  popup (self (replace_names names w)) = popup (self w)
  /\ autocompleteStart (self (replace_names names w)) = autocompleteStart (self w)
  /\ document (self (replace_names names w)) = document (self w)
  /\ textCursor (self (replace_names names w)) = textCursor (self w)
  /\ completerNames (self (replace_names names w))
     = default (completerNames (self w)) names.
Proof.
  unfold replace_names. destruct names as [n|]; [|now repeat split].
  destruct (bool_decide (n = completerNames (self w))) eqn:E; simpl.
  - apply bool_decide_eq_true in E. now repeat split.
  - now repeat split.
Qed.

(** The names are taken the same way whatever the popup and the anchor. *)
Lemma replace_names_model (names : option (list str)) (w1 w2 : world) :
  completerNames (self w1) = completerNames (self w2) ->
  completerModel (self w1) = completerModel (self w2) ->
  completerModel (self (replace_names names w1))
  = completerModel (self (replace_names names w2)).
Proof.
  intros Hn Hm. unfold replace_names. destruct names as [n|]; [|assumption].
  rewrite Hn. now destruct (negb _).
Qed.

(** C8 (as the code has it): a request to show the popup that arrives while
    a session is open and computes the anchor of that session keeps the
    anchor, neither places nor shows the popup again, and takes the names;
    the session then stays open when some candidate matches the text typed
    so far, and is closed by the update that ends the request when none
    does.  A request that computes another anchor, with a match for the new
    prefix among the candidates held before and among those held after the
    names were taken, ends with the session open at the new anchor, the
    popup placed there and shown. *)
Theorem C8_show_while_open
    (offset : Z) (names : option (list str)) (w : world) (start : Z) :
  autocompleteStart (self w) = Some start ->
  let anchor := movePosition_Left (self w) offset in
  let w1 := replace_names names w in
  (anchor = start ->
   exists w' calls,
     autocompleteShow offset names w = Ret w'
     /\ popup_calls w w' calls
     /\ Forall (fun c => creates_popup c = false) calls
     /\ completerNames (self w') = default (completerNames (self w)) names
     /\ completerModel (self w') = completerModel (self w1)
     /\ (filtered w1 start <> [] -> autocompleteStart (self w') = Some start)
     /\ (filtered w1 start = [] ->
         autocompleteStart (self w') = None /\ calls = [hide]))
  /\ (anchor <> start ->
      filtered w anchor <> [] ->
      filtered w1 anchor <> [] ->
      exists w' row1 row2,
        autocompleteShow offset names w = Ret w'
        /\ autocompleteStart (self w') = Some anchor
        /\ completerNames (self w') = default (completerNames (self w)) names
        /\ completerModel (self w') = completerModel (self w1)
        /\ popup_calls w w' [move anchor; setGeometry 200 100;
                             setCurrentIndex row1; show; setCurrentIndex row2]).
Proof.
  intros Hs anchor w1.
  destruct (replace_names_fields names w) as (Hpop & Hst & Hdoc & Hcur & Hnames).
  fold w1 in Hpop, Hst, Hdoc, Hcur, Hnames.
  split.
  - intros Hsame. unfold autocompleteShow. rewrite Hs. fold anchor.
    rewrite Hsame, Z.eqb_refl. cbn [negb bind]. fold w1.
    rewrite Hs in Hst.
    destruct (filtered w1 start) as [|c0 l0] eqn:Hf.
    + eexists _, [hide]. rewrite (update_no_match w1 start Hst Hf).
      split; [reflexivity|]. unfold popup_calls.
      cbn [self with_self autocompleteCancel set_autocompleteStart call_popup
           setCompletionPrefix popup completerNames completerModel autocompleteStart].
      rewrite Hpop, Hnames.
      repeat split; try reflexivity; try congruence.
      repeat constructor.
    + assert (Hne : filtered w1 start <> []) by (rewrite Hf; discriminate).
      destruct (update_match w1 start Hst Hne) as (row & best & Hu & _).
      eexists _, [setCurrentIndex (Z.of_nat row)]. rewrite Hu.
      split; [reflexivity|]. unfold popup_calls.
      cbn [self with_self call_popup setCompletionPrefix popup completerNames
           completerModel autocompleteStart].
      rewrite Hpop, Hnames, Hst.
      repeat split; try reflexivity; try congruence.
      repeat constructor.
  - intros Hdiff Hold Hnew. unfold autocompleteShow. rewrite Hs. fold anchor.
    assert (E : negb (anchor =? start) = true).
    { apply negb_true_iff, Z.eqb_neq. assumption. }
    rewrite E. unfold positionAutocompleter.
    cbn [autocompleteStart set_autocompleteStart bind].
    set (e2 := call_popup (setGeometry 200 100)
                 (call_popup (move anchor)
                    (set_autocompleteStart (Some anchor) (self w)))).
    assert (Hs2 : autocompleteStart (self (with_self w e2)) = Some anchor)
      by reflexivity.
    assert (Hf2 : filtered (with_self w e2) anchor <> []).
    { rewrite (filtered_fields _ w) by reflexivity. assumption. }
    destruct (update_match _ anchor Hs2 Hf2) as (row1 & best1 & Hu1 & _).
    rewrite Hu1. cbn [bind].
    set (w3 := with_self _ _).
    destruct (replace_names_fields names w3) as (Hpop3 & Hst3 & Hdoc3 & Hcur3 & Hnames3).
    assert (Hmodel3 : completerModel (self (replace_names names w3))
                      = completerModel (self w1)).
    { apply replace_names_model; reflexivity. }
    assert (Hf3 : filtered (replace_names names w3) anchor <> []).
    { rewrite (filtered_fields _ w1); [assumption| | |assumption].
      - now rewrite Hdoc3, Hdoc.
      - now rewrite Hcur3, Hcur. }
    destruct (update_match _ anchor Hst3 Hf3) as (row2 & best2 & Hu2 & _).
    exists (with_self (replace_names names w3)
              (call_popup (setCurrentIndex (Z.of_nat row2))
                 (setCompletionPrefix
                    (selectedText (self (replace_names names w3)) anchor)
                    (self (replace_names names w3))))),
           (Z.of_nat row1), (Z.of_nat row2).
    split; [exact Hu2|]. unfold popup_calls.
    cbn [self with_self call_popup setCompletionPrefix popup completerNames
         completerModel autocompleteStart].
    rewrite Hpop3, Hnames3, Hst3, Hmodel3.
    split; [reflexivity|]. split; [reflexivity|]. split; [reflexivity|].
    unfold w3, e2.
    cbn [self with_self call_popup setCompletionPrefix set_autocompleteStart popup].
    now rewrite <- !app_assoc.
Qed.

Lemma C8_witness :
  exists w' calls,
    autocompleteShow 2 (Some [py "xylophone"; py "Xanadu"]) session_xa = Ret w'
    /\ popup_calls session_xa w' calls
    /\ Forall (fun c => creates_popup c = false) calls
    /\ autocompleteStart (self w') = Some 0.
Proof.
  destruct (C8_show_while_open 2 (Some [py "xylophone"; py "Xanadu"])
              session_xa 0 eq_refl) as [H _].
  destruct (H eq_refl) as (w' & calls & Hrun & Hcalls & Hno & _ & _ & Hopen & _).
  exists w', calls. repeat split; try assumption.
  apply Hopen. vm_compute. discriminate.
Defined.

(** C8, an input on which the claim fails: the session is open at position
    0 and the request computes that very anchor, but none of the names it
    brings starts with the typed [z], so the request ends with the session
    closed. *)
Lemma C8_same_anchor_can_close :
  autocompleteStart (self session_z) = Some 0
  /\ movePosition_Left (self session_z) 1 = 0
  /\ exists w',
       autocompleteShow 1 (Some [py "alpha"]) session_z = Ret w'
       /\ autocompleteStart (self w') = None
       /\ popup (self w') = [hide].
Proof.
  split; [reflexivity|]. split; [reflexivity|].
  eexists. split; [vm_compute; reflexivity|]. split; reflexivity.
Qed.

(** ** The statements on the sample states *)

Lemma C1_witness :
  exists w',
    updateAutocompleterPrefix session_a = Ret w'
    /\ popup (self w') = [setCurrentIndex 2]
    /\ filtered session_a 10 !! 2%nat = Some (py "amend").
Proof.
  assert (Hne : filtered session_a 10 <> []) by (vm_compute; discriminate).
  destruct (C1_rank_prefers_recent_unless_matching_case session_a 10 eq_refl Hne)
    as (row & best & w' & Hrun & Hcalls & _ & Hhd & Hbest & _).
  assert (Hc : hd_error (rank (recent session_a) (selectedText (self session_a) 10)
                           (completion_rows (filtered session_a 10)))
               = Some (2, py "amend")) by (vm_compute; reflexivity).
  rewrite Hc in Hhd. inversion Hhd as [[Hrow Hb]]. subst best.
  assert (row = 2%nat) by lia. subst row.
  exists w'. split; [assumption|]. split; [|assumption].
  unfold popup_calls in Hcalls. rewrite Hcalls. reflexivity.
Defined.

Lemma C5_witness :
  exists w',
    updateAutocompleterPrefix
      (with_self session_z (set_names [py "alpha"] (self session_z))) = Ret w'
    /\ autocompleteStart (self w') = None
    /\ popup (self w') = [hide].
Proof.
  destruct (C5_no_match_closes_session
              (with_self session_z (set_names [py "alpha"] (self session_z))))
    as (w' & calls & Hrun & Hcalls & Hclose & _).
  destruct (Hclose 0 eq_refl eq_refl) as [Hc Hs].
  exists w'. split; [assumption|]. split; [assumption|].
  unfold popup_calls in Hcalls. rewrite Hcalls, Hc. reflexivity.
Defined.

(** The sequence of the specification: a session is opened at anchor 10
    with the candidates [alpha], [amend] and [beta]; after [a] is typed the
    popup lists [alpha] and [amend] and [amend], the one in the recency
    list, is selected; after [z] is typed nothing matches and the session is
    closed. *)
Example session_sequence :
  exists w1 w2,
    run_all [Show 0 (Some names_abc); type "a"] editor_10 = Ret w1
    /\ autocompleteStart (self w1) = Some 10
    /\ filtered w1 10 = [py "alpha"; py "amend"]
    /\ List.last (popup (self w1)) hide = setCurrentIndex 1
    /\ run (type "z") w1 = Ret w2
    /\ autocompleteStart (self w2) = None
    /\ List.last (popup (self w2)) show = hide.
Proof.
  destruct (run_all [Show 0 (Some names_abc); type "a"] editor_10) as [w1|] eqn:E1;
    [|vm_compute in E1; discriminate].
  destruct (run (type "z") w1) as [w2|] eqn:E2.
  - exists w1, w2. vm_compute in E1. inversion E1; subst w1; clear E1.
    vm_compute in E2. inversion E2; subst w2; clear E2.
    repeat split; reflexivity.
  - vm_compute in E1. inversion E1; subst w1. vm_compute in E2. discriminate.
Qed.

(** A request that computes another anchor while the candidates held so far
    have no match for the new prefix: the first update closes the session
    before the names are taken, and the request ends with the session
    closed although the new names hold a match. *)
Example show_with_stale_names :
  exists w',
    autocompleteShow 1 (Some [py "axe"]) session_xa = Ret w'
    /\ movePosition_Left (self session_xa) 1 = 1
    /\ filtered (replace_names (Some [py "axe"]) session_xa) 1 = [py "axe"]
    /\ autocompleteStart (self w') = None
    /\ popup (self w') = [move 1; setGeometry 200 100; hide; show; hide].
Proof.
  eexists. split; [vm_compute; reflexivity|]. repeat split; reflexivity.
Qed.


(** The sort key on letters beyond [z]: the small and the capital e with
    acute accent, 233 and 201, have the same key and keep their order, and
    both come behind [z] and [Z]. *)
Example sort_key_of_accented_letters :
  sorted_response ctx_food (py "food")
    (["233"%char] ++ py "," ++ ["201"%char] ++ py ",z,Z")
  = [py "z"; py "Z"; ["233"%char]; ["201"%char]].
Proof. reflexivity. Qed.

(** ** The line-prefix parser on every text *)

Lemma parse_unfold (text : str) :
  parseLine_autocomplete text =
  if is_commented text then Ret (py "", py "")
  else
    e <- scan text (length text) (rfind "#"%char text) 0 ;;
    match e with
    | Returned r => Ret r
    | Broke i i_base => Ret (finish text i i_base)
    | Exhausted i i_base => Ret (finish text (i - 1) i_base)
    end.
Proof. reflexivity. Qed.

Lemma i_base_after_set (s : str) (off : nat) (ib : Z) :
  ib <> 0 -> i_base_after off s ib = ib.
Proof.
  revert off; induction s as [|x s IH]; intros off H; simpl; [reflexivity|].
  rewrite IH by assumption.
  destruct (Ascii.eqb x "."); [|reflexivity].
  destruct (Z.eqb_spec ib 0); [contradiction|reflexivity].
Qed.

Lemma i_base_after_app (s1 s2 : str) (off : nat) (ib : Z) :
  i_base_after off (s1 ++ s2) ib
  = i_base_after off s1 (i_base_after (off + length s1) s2 ib).
Proof.
  revert off; induction s1 as [|x s1 IH]; intros off; simpl.
  - now rewrite Nat.add_0_r.
  - rewrite IH. replace (S off + length s1)%nat with (off + S (length s1))%nat by lia.
    reflexivity.
Qed.

(** Where [i_base] ends after a walk over [s1 ++ "." ++ s2], [s2] being a
    name: on the index of that dot, the last one. *)
Lemma i_base_after_last_dot (s1 s2 : str) (off : nat) :
  forallb is_namechar s2 = true ->
  (1 <= off + length s1)%nat ->
  i_base_after off (s1 ++ "."%char :: s2) 0 = Z.of_nat (off + length s1).
Proof.
  intros Hs2 Hpos. rewrite i_base_after_app. cbn [i_base_after].
  rewrite (i_base_after_names s2 _ 0 Hs2). simpl.
  apply i_base_after_set. lia.
Qed.

(** The walked part is either a name, or ends in a dot and a name. *)
Lemma name_or_dot_split (s : str) :
  forallb name_or_dot s = true ->
  forallb is_namechar s = true
  \/ exists s1 s2, s = s1 ++ "."%char :: s2
                   /\ forallb name_or_dot s1 = true
                   /\ forallb is_namechar s2 = true.
Proof.
  induction s as [|x s IH]; intros H; [now left|].
  simpl in H. apply andb_true_iff in H as [Hx Hs].
  destruct (IH Hs) as [Hn|(s1 & s2 & -> & H1 & H2)].
  - unfold name_or_dot in Hx. destruct (is_namechar x) eqn:E.
    + left. simpl. now rewrite E.
    + simpl in Hx. apply Ascii.eqb_eq in Hx. subst x.
      right. exists [], s. repeat split; assumption.
  - right. exists (x :: s1), s2. repeat split; [|assumption].
    simpl. now rewrite Hx.
Qed.

Lemma slice_from_app {A : Type} (p r : list A) :
  slice_from (p ++ r) (len p) = r.
Proof.
  unfold slice_from, clamp, len. rewrite length_app.
  destruct (Z.ltb_spec (Z.of_nat (length p)) 0); [lia|].
  rewrite Z.min_l by lia. rewrite Nat2Z.id.
  rewrite skipn_app, skipn_all, Nat.sub_diag. reflexivity.
Qed.

Lemma slice_app {A : Type} (p s r : list A) :
  slice (p ++ s ++ r) (len p) (len p + len s) = s.
Proof.
  unfold slice, clamp, len. rewrite !length_app.
  destruct (Z.ltb_spec (Z.of_nat (length p)) 0); [lia|].
  destruct (Z.ltb_spec (Z.of_nat (length p) + Z.of_nat (length s)) 0); [lia|].
  rewrite !Z.min_l by lia.
  replace (Z.to_nat (Z.of_nat (length p) + Z.of_nat (length s) - Z.of_nat (length p)))
    with (length s) by lia.
  rewrite Nat2Z.id, skipn_app, skipn_all, Nat.sub_diag.
  change (firstn (length s) (s ++ r) = s).
  rewrite firstn_app, firstn_all, Nat.sub_diag. cbn [firstn]. apply app_nil_r.
Qed.

(** The loop reaches the character that stops it with [i_base] set by the
    walk. *)
Lemma scan_to_stop (pre : str) (c : ascii) (suf : str) (i : Z) :
  forallb name_or_dot suf = true ->
  scan (pre ++ c :: suf) (length (pre ++ c :: suf)) i 0
  = scan (pre ++ c :: suf) (S (length pre))
         (match suf with [] => i | _ => Z.of_nat (S (length pre)) end)
         (i_base_after (S (length pre)) suf 0).
Proof.
  intros Hsuf.
  assert (Etext : pre ++ c :: suf = (pre ++ [c]) ++ suf ++ []).
  { now rewrite <- app_assoc, app_nil_r. }
  assert (Elen : length (pre ++ c :: suf) = (length (pre ++ [c]) + length suf)%nat).
  { rewrite !length_app. simpl. lia. }
  rewrite Elen. rewrite Etext.
  rewrite scan_walk by assumption.
  rewrite length_app; simpl length.
  now replace (length pre + 1)%nat with (S (length pre)) by lia.
Qed.

Lemma index_stop (pre : str) (c : ascii) (suf : str) :
  index (pre ++ c :: suf) (Z.of_nat (length pre)) = Ret c.
Proof.
  apply index_nat. rewrite nth_error_app2 by lia. now rewrite Nat.sub_diag.
Qed.

Lemma is_break_spec (c : ascii) :
  is_break c = true ->
  Ascii.eqb c "."%char = false
  /\ Ascii.eqb c squote || Ascii.eqb c dquote = false
  /\ Ascii.eqb c "]"%char = false
  /\ contains c namechars = false.
Proof.
  unfold is_break, name_or_dot, is_quote, is_namechar. intros H.
  apply andb_true_iff in H as [H H3]. apply andb_true_iff in H as [H1 H2].
  apply negb_true_iff in H1, H2, H3. apply orb_false_iff in H1 as [H1 H1'].
  auto.
Qed.

(** Behind a character that is no part of an expression, the parser splits
    what follows at its last dot, and takes all of it for the partial name
    when it has no dot. *)
Lemma parse_behind_break (pre : str) (sep : ascii) (base name : str) :
  is_break sep = true ->
  forallb name_or_dot base = true ->
  forallb is_namechar name = true ->
  (is_commented (pre ++ sep :: base ++ "."%char :: name) = false ->
   parseLine_autocomplete (pre ++ sep :: base ++ "."%char :: name)
   = Ret (base, name))
  /\ (is_commented (pre ++ sep :: name) = false ->
      parseLine_autocomplete (pre ++ sep :: name) = Ret (py "", name)).
Proof.
  intros Hsep Hbase Hname.
  destruct (is_break_spec sep Hsep) as (Hdot & Hq & Hb & Hn).
  split; intros Hc; rewrite parse_unfold, Hc.
  - assert (Hsuf : forallb name_or_dot (base ++ "."%char :: name) = true).
    { rewrite forallb_app, Hbase. simpl.
      apply forallb_forall. intros x Hx. unfold name_or_dot.
      rewrite forallb_forall in Hname. now rewrite (Hname x Hx). }
    rewrite scan_to_stop by assumption.
    rewrite i_base_after_last_dot by (assumption || lia).
    cbn [scan]. rewrite index_stop. cbn [bind].
    rewrite Hdot, Hq, Hb, Hn. cbn [negb bind].
    unfold finish.
    destruct (Z.eqb_spec (Z.of_nat (S (length pre) + length base)) 0); [lia|].
    f_equal. f_equal.
    + replace (pre ++ sep :: base ++ "."%char :: name)
        with ((pre ++ [sep]) ++ base ++ "."%char :: name)
        by now rewrite <- app_assoc.
      replace (Z.of_nat (length pre) + 1) with (len (pre ++ [sep]))
        by (unfold len; rewrite length_app; simpl; lia).
      replace (Z.of_nat (S (length pre) + length base))
        with (len (pre ++ [sep]) + len base)
        by (unfold len; rewrite length_app; simpl; lia).
      apply slice_app.
    + replace (pre ++ sep :: base ++ "."%char :: name)
        with ((pre ++ sep :: base ++ ["."%char]) ++ name)
        by (rewrite <- !app_assoc; simpl; now rewrite <- app_assoc).
      replace (Z.of_nat (S (length pre) + length base) + 1)
        with (len (pre ++ sep :: base ++ ["."%char]))
        by (unfold len; rewrite !length_app; simpl; rewrite length_app; simpl; lia).
      apply slice_from_app.
  - assert (Hsuf : forallb name_or_dot name = true).
    { apply forallb_forall. intros x Hx. unfold name_or_dot.
      rewrite forallb_forall in Hname. now rewrite (Hname x Hx). }
    rewrite scan_to_stop by assumption.
    rewrite i_base_after_names by assumption.
    cbn [scan]. rewrite index_stop. cbn [bind].
    rewrite Hdot, Hq, Hb, Hn. cbn [negb bind].
    unfold finish. cbn [Z.eqb]. f_equal. f_equal.
    replace (pre ++ sep :: name) with ((pre ++ [sep]) ++ name)
      by now rewrite <- app_assoc.
    replace (Z.of_nat (length pre) + 1) with (len (pre ++ [sep]))
      by (unfold len; rewrite length_app; simpl; lia).
    apply slice_from_app.
Qed.

Lemma names_are_name_or_dot (s : str) :
  forallb is_namechar s = true -> forallb name_or_dot s = true.
Proof.
  intros H. apply forallb_forall. intros x Hx. unfold name_or_dot.
  rewrite forallb_forall in H. now rewrite (H x Hx).
Qed.

Lemma name_or_dot_not_hash (s : str) :
  forallb name_or_dot s = true -> "#"%char ∉ s.
Proof.
  intros H Hin. apply list_elem_of_In in Hin.
  rewrite forallb_forall in H. specialize (H _ Hin). discriminate.
Qed.

Lemma not_commented_without_hash (text : str) :
  "#"%char ∉ text -> is_commented text = false.
Proof.
  intros H. unfold is_commented. now rewrite (rfind_absent _ _ H).
Qed.

(** A text that is an expression from its first character on is split at
    its last dot; without a dot it is the partial name.  A dot at index 0
    is not seen as one when it is the only dot. *)
Lemma parse_expression_line (base name : str) :
  forallb name_or_dot base = true ->
  forallb is_namechar name = true ->
  parseLine_autocomplete name = Ret (py "", name)
  /\ parseLine_autocomplete (base ++ "."%char :: name)
     = Ret (match base with
            | [] => (py "", "."%char :: name)
            | _ :: _ => (base, name)
            end).
Proof.
  intros Hbase Hname.
  pose proof (names_are_name_or_dot name Hname) as Hname'.
  assert (Hsuf : forallb name_or_dot (base ++ "."%char :: name) = true).
  { rewrite forallb_app, Hbase. simpl. assumption. }
  assert (Hwalk : forall suf i,
    forallb name_or_dot suf = true ->
    scan suf (length suf) i 0
    = Ret (Exhausted (match suf with [] => i | _ => 0 end)
                     (i_base_after 0 suf 0))).
  { intros suf i H.
    pose proof (scan_walk [] suf [] i 0 H) as E.
    simpl in E. rewrite app_nil_r in E. exact E. }
  split.
  - rewrite parse_unfold.
    rewrite (not_commented_without_hash _ (name_or_dot_not_hash _ Hname')).
    rewrite Hwalk by assumption. cbn [bind].
    rewrite i_base_after_names by assumption. unfold finish. cbn [Z.eqb].
    destruct name as [|x name]; [reflexivity|].
    f_equal.
  - rewrite parse_unfold.
    rewrite (not_commented_without_hash _ (name_or_dot_not_hash _ Hsuf)).
    rewrite Hwalk by assumption. cbn [bind].
    destruct base as [|b base].
    + cbn [app i_base_after]. rewrite i_base_after_names by assumption.
      reflexivity.
    + rewrite i_base_after_last_dot by (assumption || (simpl; lia)).
      cbn [app]. unfold finish.
      destruct (Z.eqb_spec (Z.of_nat (0 + length (b :: base))) 0) as [E|_];
        [simpl in E; lia|].
      f_equal. f_equal.
      * change (slice ([] ++ (b :: base) ++ "."%char :: name) (0 - 1 + 1)
                      (Z.of_nat (0 + length (b :: base))) = b :: base).
        replace (0 - 1 + 1) with (len (@nil ascii)) by reflexivity.
        replace (Z.of_nat (0 + length (b :: base)))
          with (len (@nil ascii) + len (b :: base)) by (unfold len; simpl; lia).
        apply slice_app.
      * replace (b :: base ++ "."%char :: name)
          with (((b :: base) ++ ["."%char]) ++ name)
          by (rewrite <- app_assoc; reflexivity).
        replace (0 - 1 + 1) with 0 by reflexivity.
        replace (Z.of_nat (0 + length (b :: base)) + 1)
          with (len ((b :: base) ++ ["."%char]))
          by (unfold len; rewrite length_app; simpl; lia).
        apply slice_from_app.
Qed.

Lemma quote_not_dot (q : ascii) :
  is_quote q = true -> Ascii.eqb q "."%char = false.
Proof.
  unfold is_quote, squote, dquote. intros H.
  destruct (Ascii.eqb_spec q "."); [subst; discriminate|reflexivity].
Qed.

(** A quote directly followed by a dot and a name gives the marker for
    strings, an empty pair of brackets directly followed by a dot and a
    name gives the marker for lists. *)
Lemma parse_marker_forms (pre : str) (q : ascii) (name : str) :
  is_quote q = true ->
  forallb is_namechar name = true ->
  (is_commented (pre ++ q :: "."%char :: name) = false ->
   parseLine_autocomplete (pre ++ q :: "."%char :: name) = Ret (py "''", name))
  /\ (is_commented (pre ++ "["%char :: "]"%char :: "."%char :: name) = false ->
      parseLine_autocomplete (pre ++ "["%char :: "]"%char :: "."%char :: name)
      = Ret (py "[]", name)).
Proof.
  intros Hq Hname.
  pose proof (names_are_name_or_dot name Hname) as Hname'.
  assert (Hsuf : forallb name_or_dot ("."%char :: name) = true) by (simpl; assumption).
  assert (Hib : forall off, (1 <= off)%nat ->
            i_base_after off ("."%char :: name) 0 = Z.of_nat off).
  { intros off Hoff.
    pose proof (i_base_after_last_dot [] name off Hname) as E.
    simpl in E. rewrite Nat.add_0_r in E. apply E. lia. }
  split; intros Hc; rewrite parse_unfold, Hc.
  - rewrite scan_to_stop by assumption. rewrite Hib by lia.
    cbn [scan]. rewrite index_stop. cbn [bind].
    rewrite (quote_not_dot q Hq). unfold is_quote in Hq. rewrite Hq.
    replace (Z.of_nat (length pre) + 1) with (Z.of_nat (S (length pre))) by lia.
    rewrite Z.eqb_refl. cbn [bind]. f_equal. f_equal.
    replace (pre ++ q :: "."%char :: name)
      with ((pre ++ [q; "."%char]) ++ name) by now rewrite <- app_assoc.
    replace (Z.of_nat (S (length pre)) + 1) with (len (pre ++ [q; "."%char]))
      by (unfold len; rewrite length_app; simpl; lia).
    apply slice_from_app.
  - replace (pre ++ "["%char :: "]"%char :: "."%char :: name)
      with ((pre ++ ["["%char]) ++ "]"%char :: "."%char :: name)
      by now rewrite <- app_assoc.
    rewrite scan_to_stop by assumption. rewrite Hib by lia.
    cbn [scan]. rewrite index_stop. cbn [bind].
    change (Ascii.eqb "]" ".") with false.
    change ((Ascii.eqb "]" squote) || (Ascii.eqb "]" dquote)) with false.
    change (Ascii.eqb "]" "]") with true. cbv iota.
    replace (Z.of_nat (length (pre ++ ["["%char])) + 1)
      with (Z.of_nat (S (length (pre ++ ["["%char])))) by lia.
    rewrite Z.eqb_refl.
    assert (Hpos : (0 <? Z.of_nat (length (pre ++ ["["%char]))) = true).
    { apply Z.ltb_lt. rewrite length_app. simpl. lia. }
    rewrite Hpos. cbn [andb].
    assert (Hidx : index ((pre ++ ["["%char]) ++ "]"%char :: "."%char :: name)
                         (Z.of_nat (length (pre ++ ["["%char])) - 1) = Ret "["%char).
    { replace (Z.of_nat (length (pre ++ ["["%char])) - 1)
        with (Z.of_nat (length pre)) by (rewrite length_app; simpl; lia).
      rewrite <- app_assoc. apply index_stop. }
    rewrite Hidx. cbn [bind]. change (Ascii.eqb "[" "[") with true. cbv iota.
    cbn [bind]. f_equal. f_equal.
    replace ((pre ++ ["["%char]) ++ "]"%char :: "."%char :: name)
      with (((pre ++ ["["%char]) ++ ["]"%char; "."%char]) ++ name)
      by now rewrite <- !app_assoc.
    replace (Z.of_nat (S (length (pre ++ ["["%char]))) + 1)
      with (len ((pre ++ ["["%char]) ++ ["]"%char; "."%char]))
      by (unfold len; rewrite !length_app; simpl; lia).
    apply slice_from_app.
Qed.

(** Every text is an expression throughout, or has a last character that
    is neither a name character nor a dot. *)
Lemma stop_split (text : str) :
  forallb name_or_dot text = true
  \/ exists pre c suf,
       text = pre ++ c :: suf
       /\ name_or_dot c = false
       /\ forallb name_or_dot suf = true.
Proof.
  induction text as [|x text IH]; [now left|].
  destruct IH as [Hall|(pre & c & suf & -> & Hc & Hsuf)].
  - destruct (name_or_dot x) eqn:E.
    + left. simpl. now rewrite E.
    + right. exists [], x, text. repeat split; assumption.
  - right. exists (x :: pre), c, suf. repeat split; assumption.
Qed.

Lemma dot_then_name_inv (s : str) :
  dot_then_name s = true ->
  exists name, s = "."%char :: name /\ forallb is_namechar name = true.
Proof.
  destruct s as [|c s]; [discriminate|]. simpl. intros H.
  apply andb_true_iff in H as [Hc Hs]. apply Ascii.eqb_eq in Hc. subst c.
  now exists s.
Qed.

Lemma ends_with_inv (c : ascii) (s : str) :
  ends_with c s = true -> exists s', s = s' ++ [c].
Proof.
  unfold ends_with. destruct s as [|x s] using rev_ind; [discriminate|].
  rewrite map_app. cbn [map]. rewrite last_last. intros H.
  apply Ascii.eqb_eq in H. subst x. now exists s.
Qed.

(** X4: whatever the line, a result of the parser has one of a few shapes.
    The name is the end of the line and holds name characters and dots
    only; the base is empty, or it is one of the markers [''] and [[]] and
    the line ends in a dot and the name, or it holds name characters and
    dots only and the line ends in the base, a dot and the name. *)
Theorem X4_parse_shape (text base partial : str) :
  parseLine_autocomplete text = Ret (base, partial) ->
  (exists front, text = front ++ partial)
  /\ forallb name_or_dot partial = true
  /\ (base = []
      \/ ((base = py "''" \/ base = py "[]")
          /\ exists front, text = front ++ "."%char :: partial)
      \/ (forallb name_or_dot base = true
          /\ exists front, text = front ++ base ++ "."%char :: partial)).
Proof.
  intros Hparse.
  assert (Hempty : parseLine_autocomplete text = Ret (py "", py "") ->
          (exists front, text = front ++ partial)
          /\ forallb name_or_dot partial = true
          /\ (base = []
              \/ ((base = py "''" \/ base = py "[]")
                  /\ exists front, text = front ++ "."%char :: partial)
              \/ (forallb name_or_dot base = true
                  /\ exists front, text = front ++ base ++ "."%char :: partial))).
  { intros E. rewrite E in Hparse. inversion Hparse; subst.
    split; [exists text; now rewrite app_nil_r|]. split; [reflexivity|now left]. }
  destruct (is_commented text) eqn:Hc.
  { apply Hempty. rewrite parse_unfold, Hc. reflexivity. }
  destruct (stop_split text) as [Hall|(pre & c & suf & -> & Hcstop & Hsuf)].
  - (* an expression throughout *)
    destruct (name_or_dot_split text Hall) as [Hn|(s1 & s2 & -> & H1 & H2)].
    + destruct (parse_expression_line [] text eq_refl Hn) as [E _].
      rewrite E in Hparse. inversion Hparse; subst.
      split; [now exists []|]. split; [assumption|now left].
    + destruct (parse_expression_line s1 s2 H1 H2) as [_ E].
      rewrite E in Hparse. destruct s1 as [|b s1]; inversion Hparse; subst.
      * split; [now exists []|]. split; [assumption|now left].
      * split; [exists ((b :: s1) ++ ["."%char]); now rewrite <- app_assoc|].
        split; [now apply names_are_name_or_dot|].
        right. right. split; [assumption|now exists []].
  - (* a character stops the scan *)
    destruct (is_quote c) eqn:Hq.
    { destruct (dot_then_name suf) eqn:Hd.
      - destruct (dot_then_name_inv suf Hd) as (name & -> & Hname).
        destruct (parse_marker_forms pre c name Hq Hname) as [E _].
        rewrite (E Hc) in Hparse. inversion Hparse; subst.
        split; [exists (pre ++ [c; "."%char]); now rewrite <- app_assoc|].
        split; [now apply names_are_name_or_dot|].
        right. left. split; [now left|].
        exists (pre ++ [c]). now rewrite <- app_assoc.
      - apply Hempty. apply parseLine_unrecognized; [assumption|assumption|].
        unfold unrecognized. now rewrite Hq, Hd. }
    destruct (Ascii.eqb c "]") eqn:Hb.
    { apply Ascii.eqb_eq in Hb. subst c.
      destruct (dot_then_name suf && ends_with "["%char pre) eqn:Hd.
      - apply andb_true_iff in Hd as [Hd He].
        destruct (dot_then_name_inv suf Hd) as (name & -> & Hname).
        destruct (ends_with_inv _ _ He) as (pre' & ->).
        destruct (parse_marker_forms pre' squote name eq_refl Hname) as [_ E].
        rewrite <- app_assoc in Hparse, Hc. cbn [app] in Hparse, Hc.
        rewrite (E Hc) in Hparse. inversion Hparse; subst.
        split; [exists (pre' ++ ["["%char; "]"%char; "."%char]);
                now rewrite <- !app_assoc|].
        split; [now apply names_are_name_or_dot|].
        right. left. split; [now right|].
        exists (pre' ++ ["["%char; "]"%char]). now rewrite <- !app_assoc.
      - apply Hempty. apply parseLine_unrecognized; [assumption|assumption|].
        unfold unrecognized. rewrite Hq. cbn [Ascii.eqb]. simpl.
        now rewrite Hd. }
    assert (Hbreak : is_break c = true).
    { unfold is_break. now rewrite Hcstop, Hq, Hb. }
    destruct (name_or_dot_split suf Hsuf) as [Hn|(s1 & s2 & -> & H1 & H2)].
    + destruct (parse_behind_break pre c [] suf Hbreak eq_refl Hn) as [_ E].
      rewrite (E Hc) in Hparse. inversion Hparse; subst.
      split; [exists (pre ++ [c]); now rewrite <- app_assoc|].
      split; [assumption|now left].
    + destruct (parse_behind_break pre c s1 s2 Hbreak H1 H2) as [E _].
      rewrite (E Hc) in Hparse. inversion Hparse; subst.
      split; [exists (pre ++ c :: base ++ ["."%char]);
              rewrite <- !app_assoc; simpl; now rewrite <- app_assoc|].
      split; [now apply names_are_name_or_dot|].
      right. right. split; [assumption|].
      exists (pre ++ [c]). now rewrite <- app_assoc.
Qed.

(** ** From the key press to the response *)

Lemma split_nonempty (sep : ascii) (s : str) : split sep s <> [].
Proof.
  destruct s as [|c s]; simpl; [discriminate|].
  destruct (Ascii.eqb c sep); [discriminate|].
  destruct (split sep s); discriminate.
Qed.

Lemma split_absent (sep : ascii) (s : str) : sep ∉ s -> split sep s = [s].
Proof.
  induction s as [|c s IH]; intros H; simpl; [reflexivity|].
  apply not_elem_of_cons in H as [Hc Hs].
  destruct (Ascii.eqb_spec c sep); [congruence|].
  now rewrite (IH Hs).
Qed.

Lemma split_first (sep : ascii) (a b : str) :
  sep ∉ a -> split sep (a ++ sep :: b) = a :: split sep b.
Proof.
  induction a as [|c a IH]; intros H; simpl.
  - now rewrite Ascii.eqb_refl.
  - apply not_elem_of_cons in H as [Hc Ha].
    destruct (Ascii.eqb_spec c sep); [congruence|].
    now rewrite (IH Ha).
Qed.

Lemma split_length (sep : ascii) (s : str) :
  len (split sep s) = 1 + count sep s.
Proof.
  unfold len. induction s as [|c s IH]; simpl; [reflexivity|].
  destruct (Ascii.eqb c sep).
  - simpl length. lia.
  - pose proof (split_nonempty sep s) as Hne.
    destruct (split sep s) as [|w ws]; [congruence|]. simpl in *. lia.
Qed.

Lemma count_nonneg (c : ascii) (s : str) : 0 <= count c s.
Proof.
  induction s as [|x s IH]; simpl; [lia|]. destruct (Ascii.eqb x c); lia.
Qed.

Lemma count_app (c : ascii) (a b : str) :
  count c (a ++ b) = count c a + count c b.
Proof.
  induction a as [|x a IH]; simpl; [reflexivity|]. rewrite IH. lia.
Qed.

Lemma count_present (c : ascii) (s : str) : c ∈ s -> 1 <= count c s.
Proof.
  induction s as [|x s IH]; intros H; [now apply elem_of_nil in H|].
  simpl. pose proof (count_nonneg c s).
  apply elem_of_cons in H as [->|H].
  - rewrite Ascii.eqb_refl. lia.
  - specialize (IH H). destruct (Ascii.eqb x c); lia.
Qed.

Lemma unpack2_length (parts : list str) :
  len parts <> 2 -> unpack2 parts = Raise ValueError.
Proof.
  unfold len. destruct parts as [|a [|b [|c parts]]]; simpl; try reflexivity.
  lia.
Qed.

Lemma lower_dot (s : str) : "."%char ∈ lower s <-> "."%char ∈ s.
Proof.
  unfold lower. induction s as [|c s IH]; simpl; [reflexivity|].
  rewrite !elem_of_cons, IH.
  assert (H : "."%char = lower_char c <-> "."%char = c).
  { unfold lower_char. destruct (is_upper c) eqn:E; [|reflexivity].
    split; intros H.
    - exfalso. apply (f_equal nat_of_ascii) in H.
      change (nat_of_ascii ".") with 46%nat in H.
      unfold is_upper, in_range in E.
      repeat (apply orb_true_iff in E as [E|E]);
        apply andb_true_iff in E as [E1 E2]; apply Nat.leb_le in E1, E2;
        rewrite nat_ascii_embedding in H by lia; lia.
    - subst c. discriminate. }
  now rewrite H.
Qed.

(** What the timer's handler stores and requests. *)
Lemma do_now_spec (shell : bool) (c : ctrl) (base name : str) :
  delayTimer_line c <> [] ->
  parseLine_autocomplete (delayTimer_line c) = Ret (base, name) ->
  ctrl_autoComp_name (fst (autoComplete_do_now shell c))
  = base ++ py "." ++ lower name
  /\ snd (autoComplete_do_now shell c)
     = match lower name, base with
       | [], [] => Ret None
       | _, _ => if shell then Ret (Some (py "DIR " ++ base))
                 else Raise AttributeError
       end.
Proof.
  intros Hline Hparse. unfold autoComplete_do_now. cbn [delayTimer_line].
  destruct (delayTimer_line c) as [|x line] eqn:E; [congruence|].
  rewrite Hparse.
  destruct (lower name) as [|n ns]; destruct base as [|b bs];
    try destruct shell; split; reflexivity.
Qed.

(** The stored name read back by [autoComplete_process]. *)
Lemma stored_name_unpack (base name : str) :
  (("."%char ∉ base) -> ("."%char ∉ name) ->
   unpack2 (split "."%char (base ++ py "." ++ name)) = Ret (base, name))
  /\ ("."%char ∈ base \/ "."%char ∈ name ->
      unpack2 (split "."%char (base ++ py "." ++ name)) = Raise ValueError).
Proof.
  split.
  - intros Hb Hn. change (py ".") with ["."%char]. cbn [app].
    rewrite split_first by assumption. now rewrite split_absent.
  - intros H. apply unpack2_length. rewrite split_length.
    change (py ".") with ["."%char]. rewrite !count_app. cbn [count].
    change (Ascii.eqb "." ".") with true. cbv iota.
    pose proof (count_nonneg "." base). pose proof (count_nonneg "." name).
    destruct H as [H|H]; apply count_present in H; lia.
Qed.

(** ** More on the completion session *)

Lemma last_completionIndex (R : list str) (t : str) :
  NoDup R -> last R = Some t -> completionIndex R t = len R - 1.
Proof.
  intros HR Hlast. rewrite last_lookup in Hlast.
  rewrite (completionIndex_NoDup R t _ HR Hlast).
  unfold len. destruct R; [discriminate|]. simpl length. lia.
Qed.

(** X7: while a session is open, the completion accepted last is the one
    the prefix update selects, whenever the popup lists it and it starts
    with the prefix as typed, case included. *)
Theorem X7_most_recent_selected (w : world) (start : Z) (t : str) :
  autocompleteStart (self w) = Some start ->
  NoDup (recent w) ->
  last (recent w) = Some t ->
  t ∈ filtered w start ->
  startswith t (selectedText (self w) start) = true ->
  exists row w',
    updateAutocompleterPrefix w = Ret w'
    /\ popup_calls w w' [setCurrentIndex (Z.of_nat row)]
    /\ filtered w start !! row = Some t.
Proof.
  intros Hs HR Hlast Hin Hexact.
  assert (Hne : filtered w start <> []).
  { intros E. rewrite E in Hin. now apply elem_of_nil in Hin. }
  destruct (rank_head (recent w) (selectedText (self w) start)
              (filtered w start) Hne) as (row & best & rest & Hrank & Hbest & Hall).
  exists row.
  assert (Hrun : updateAutocompleterPrefix w =
            Ret (with_self w (call_popup (setCurrentIndex (Z.of_nat row))
                   (setCompletionPrefix (selectedText (self w) start) (self w))))).
  { unfold updateAutocompleterPrefix. rewrite Hs.
    change (completionModel (setCompletionPrefix (selectedText (self w) start) (self w)))
      with (filtered w start).
    assert (Hlen : negb (len (filtered w start) =? 0) = true).
    { unfold len. destruct (filtered w start); [congruence|reflexivity]. }
    rewrite Hlen, Hrank. reflexivity. }
  eexists. split; [exact Hrun|]. split; [reflexivity|].
  apply list_elem_of_lookup in Hin as [r Hr].
  destruct (decide (r = row)) as [->|Hneq]; [assumption|].
  specialize (Hall r t Hr Hneq).
  unfold by_case, by_recency, stable_before, by_row, bool_ltb in Hall.
  cbn [fst snd] in Hall. rewrite Hexact in Hall.
  pose proof (completionIndex_range (recent w) best) as Hrange.
  pose proof (last_completionIndex _ _ HR Hlast) as Ht.
  assert (Hidx : completionIndex (recent w) best = completionIndex (recent w) t).
  { destruct Hall as [H|[_ [H|[H _]]]].
    - destruct (startswith best (selectedText (self w) start)); discriminate.
    - apply Z.ltb_lt in H. lia.
    - apply Z.ltb_ge in H. lia. }
  assert (H0 : 0 <= completionIndex (recent w) t).
  { rewrite Ht. unfold len. destruct (recent w); [discriminate|]. simpl length. lia. }
  pose proof (completionIndex_found (recent w) t H0) as Hft.
  pose proof (completionIndex_found (recent w) best ltac:(lia)) as Hfb.
  rewrite Hidx, Hft in Hfb. inversion Hfb; subst best. assumption.
Qed.

Lemma selectedText_at_cursor (e : editor) : selectedText e (textCursor e) = [].
Proof.
  unfold selectedText, slice. rewrite Z.min_id, Z.max_id, Z.sub_diag. reflexivity.
Qed.

Lemma startswith_nil (s : str) : startswith s [] = true.
Proof. now destruct s. Qed.

(** With nothing typed yet, every candidate is listed. *)
Lemma filtered_at_cursor (w : world) :
  filtered w (textCursor (self w)) = completerModel (self w).
Proof.
  unfold filtered, completionModel. rewrite selectedText_at_cursor.
  cbn [setCompletionPrefix completerModel completionPrefix lower map].
  induction (completerModel (self w)) as [|c l IH]; [reflexivity|].
  simpl. rewrite startswith_nil. now f_equal.
Qed.

Lemma show_anew_unfold (offset : Z) (names : option (list str)) (w : world) :
  places_anew offset w ->
  autocompleteShow offset names w =
  (w1 <- updateAutocompleterPrefix
           (with_self w
              (call_popup (setGeometry 200 100)
                 (call_popup (move (movePosition_Left (self w) offset))
                    (set_autocompleteStart
                       (Some (movePosition_Left (self w) offset)) (self w))))) ;;
   updateAutocompleterPrefix
     (replace_names names (with_self w1 (call_popup show (self w1))))).
Proof.
  intros H. unfold autocompleteShow, places_anew in *.
  destruct (autocompleteStart (self w)) as [start|].
  - assert (E : negb (movePosition_Left (self w) offset =? start) = true).
    { apply negb_true_iff, Z.eqb_neq. assumption. }
    rewrite E. unfold positionAutocompleter.
    cbn [autocompleteStart set_autocompleteStart bind].
    match goal with
    | |- bind (bind ?m ?k) ?k2 = _ => destruct m; reflexivity
    end.
  - unfold positionAutocompleter.
    cbn [autocompleteStart set_autocompleteStart bind].
    match goal with
    | |- bind (bind ?m ?k) ?k2 = _ => destruct m; reflexivity
    end.
Qed.

(** X8: a request that places the popup anew, with a match for the new
    prefix among the candidates held before and among those held after the
    names are taken, opens the session at the new anchor: the popup is
    moved, sized and shown, a row is selected before and after the names
    are taken, and the text and the cursor stay as they are. *)
Theorem X8_show_anew_opens (offset : Z) (names : option (list str)) (w : world) :
  places_anew offset w ->
  let anchor := movePosition_Left (self w) offset in
  filtered w anchor <> [] ->
  filtered (replace_names names w) anchor <> [] ->
  exists w' row1 row2,
    autocompleteShow offset names w = Ret w'
    /\ autocompleteStart (self w') = Some anchor
    /\ completerModel (self w') = completerModel (self (replace_names names w))
    /\ document (self w') = document (self w)
    /\ textCursor (self w') = textCursor (self w)
    /\ popup_calls w w' [move anchor; setGeometry 200 100;
                         setCurrentIndex row1; show; setCurrentIndex row2].
Proof.
  intros Hanew anchor Hold Hnew.
  rewrite (show_anew_unfold offset names w Hanew). fold anchor.
  set (e2 := call_popup (setGeometry 200 100)
               (call_popup (move anchor)
                  (set_autocompleteStart (Some anchor) (self w)))).
  assert (Hs2 : autocompleteStart (self (with_self w e2)) = Some anchor)
    by reflexivity.
  assert (Hf2 : filtered (with_self w e2) anchor <> []).
  { rewrite (filtered_fields _ w) by reflexivity. assumption. }
  destruct (update_match _ anchor Hs2 Hf2) as (row1 & best1 & Hu1 & _).
  rewrite Hu1. cbn [bind].
  set (w3 := with_self _ _).
  destruct (replace_names_fields names w3) as (Hpop3 & Hst3 & Hdoc3 & Hcur3 & _).
  destruct (replace_names_fields names w) as (_ & _ & Hdoc & Hcur & _).
  assert (Hmodel3 : completerModel (self (replace_names names w3))
                    = completerModel (self (replace_names names w))).
  { apply replace_names_model; reflexivity. }
  assert (Hf3 : filtered (replace_names names w3) anchor <> []).
  { rewrite (filtered_fields _ (replace_names names w)); [assumption| | |assumption].
    - now rewrite Hdoc3, Hdoc.
    - now rewrite Hcur3, Hcur. }
  destruct (update_match _ anchor Hst3 Hf3) as (row2 & best2 & Hu2 & _).
  eexists _, (Z.of_nat row1), (Z.of_nat row2).
  split; [exact Hu2|]. unfold popup_calls.
  cbn [self with_self call_popup setCompletionPrefix popup completerModel
       autocompleteStart document textCursor].
  rewrite Hpop3, Hst3, Hmodel3, Hdoc3, Hcur3.
  split; [reflexivity|]. split; [reflexivity|].
  split; [reflexivity|]. split; [reflexivity|].
  unfold w3, e2.
  cbn [self with_self call_popup setCompletionPrefix set_autocompleteStart popup].
  now rewrite <- !app_assoc.
Qed.

(** X9: a request that places the popup anew while no candidate held so
    far matches the new prefix ends with the session closed, whatever names
    it brings: the first prefix update, run on the old candidates, cancels
    the session before the names are taken, and the popup is shown and
    hidden again. *)
Theorem X9_show_anew_stale (offset : Z) (names : option (list str)) (w : world) :
  places_anew offset w ->
  let anchor := movePosition_Left (self w) offset in
  filtered w anchor = [] ->
  exists w',
    autocompleteShow offset names w = Ret w'
    /\ autocompleteStart (self w') = None
    /\ popup_calls w w' [move anchor; setGeometry 200 100; hide; show; hide].
Proof.
  intros Hanew anchor Hold.
  rewrite (show_anew_unfold offset names w Hanew). fold anchor.
  set (e2 := call_popup (setGeometry 200 100)
               (call_popup (move anchor)
                  (set_autocompleteStart (Some anchor) (self w)))).
  assert (Hs2 : autocompleteStart (self (with_self w e2)) = Some anchor)
    by reflexivity.
  assert (Hf2 : filtered (with_self w e2) anchor = []).
  { rewrite (filtered_fields _ w) by reflexivity. assumption. }
  rewrite (update_no_match _ anchor Hs2 Hf2). cbn [bind].
  set (w3 := with_self _ _).
  destruct (replace_names_fields names w3) as (Hpop3 & Hst3 & _).
  assert (Hnone : autocompleteStart (self (replace_names names w3)) = None).
  { rewrite Hst3. reflexivity. }
  rewrite (update_inactive _ Hnone).
  eexists. split; [reflexivity|]. unfold popup_calls.
  cbn [self with_self call_popup popup autocompleteStart].
  rewrite Hpop3, Hst3. split; [reflexivity|].
  unfold w3, e2.
  cbn [self with_self call_popup setCompletionPrefix set_autocompleteStart
       autocompleteCancel popup].
  now rewrite <- !app_assoc.
Qed.

(** X10: the keys that cancel an open session.  Escape without modifier,
    and every key other than Tab without modifier whose text is neither
    alphanumeric nor an underscore and that is neither Shift nor a
    Backspace behind the anchor, hide the popup once and leave the session
    closed and the recency list untouched; Escape is consumed, so the text
    and the cursor stay as they are. *)
Theorem X10_key_closes (ev : event) (w : world) (start : Z) :
  autocompleteStart (self w) = Some start ->
  closes_session ev start (textCursor (self w)) = true ->
  exists w',
    AutoCompletion.keyPressEvent ev w = Ret w'
    /\ autocompleteStart (self w') = None
    /\ popup_calls w w' [hide]
    /\ lists w' = lists w
    /\ (event_key ev = Key_Escape -> NoModifier ev = true ->
        document (self w') = document (self w)
        /\ textCursor (self w') = textCursor (self w)).
Proof.
  intros Hs Hclose. unfold closes_session in Hclose.
  unfold AutoCompletion.keyPressEvent, autocompleteActive. rewrite Hs.
  rewrite !andb_true_r.
  destruct (key_eqb (event_key ev) Key_Escape && NoModifier ev) eqn:Hesc.
  - eexists. split; [reflexivity|].
    destruct w as [ls [doc cur model pre names loc st pop]].
    repeat split; reflexivity.
  - cbn [orb] in Hclose.
    repeat (apply andb_true_iff in Hclose as [Hclose ?]).
    apply negb_true_iff in Hclose. rewrite Hclose.
    match goal with
    | H1 : negb (isalnum _) = true, H2 : negb (bool_decide _) = true,
      H3 : negb (key_eqb _ Key_Shift) = true,
      H4 : negb (key_eqb _ Key_Backspace && _) = true |- _ =>
        apply negb_true_iff in H1, H2, H3, H4; rewrite H1, H2, H3, H4
    end.
    cbn [orb].
    destruct w as [ls [doc cur model pre names loc st pop]].
    cbn [self] in *.
    assert (Hnone : forall e, autocompleteStart e = None ->
              autocompleteStart (super_keyPressEvent ev e) = None
              /\ popup (super_keyPressEvent ev e) = popup e).
    { intros e He. unfold super_keyPressEvent.
      destruct (event_key ev); try (split; [assumption|reflexivity]).
      - destruct (0 <? textCursor e); [|split; [assumption|reflexivity]].
        rewrite He. split; reflexivity.
      - rewrite He. split; reflexivity. }
    match goal with
    | |- context [super_keyPressEvent ev ?e] =>
        destruct (Hnone e eq_refl) as [Hst' Hpop']
    end.
    rewrite Hst'. eexists. split; [reflexivity|].
    cbn [self with_self]. split; [assumption|].
    unfold popup_calls. cbn [self with_self lists]. rewrite Hpop'.
    split; [reflexivity|]. split; [reflexivity|].
    intros Hk Hm. rewrite Hk, Hm in Hesc. discriminate.
Qed.

Lemma split_three {A : Type} (l : list A) (a c : nat) :
  (a <= c)%nat ->
  l = firstn a l ++ firstn (c - a) (skipn a l) ++ skipn c l.
Proof.
  intros H. rewrite <- (firstn_skipn a l) at 1. f_equal.
  rewrite <- (firstn_skipn (c - a) (skipn a l)) at 1. f_equal.
  rewrite skipn_skipn. f_equal. lia.
Qed.

(** Accepting replaces the text between the anchor and the cursor. *)
Lemma accept_document (text : str) (w : world) (start : Z) :
  autocompleteStart (self w) = Some start ->
  0 <= start <= textCursor (self w) ->
  textCursor (self w) <= len (document (self w)) ->
  exists w',
    onAutoComplete text w = Ret w'
    /\ document (self w)
       = firstn (Z.to_nat start) (document (self w))
         ++ selectedText (self w) start
         ++ skipn (Z.to_nat (textCursor (self w))) (document (self w))
    /\ document (self w')
       = firstn (Z.to_nat start) (document (self w))
         ++ text
         ++ skipn (Z.to_nat (textCursor (self w))) (document (self w))
    /\ textCursor (self w') = start + len text
    /\ autocompleteStart (self w') = None.
Proof.
  intros Hs Hstart Hcur. unfold onAutoComplete. rewrite Hs.
  destruct (accept_list text (recent w)) as (r & Hr & _). rewrite Hr.
  cbn [bind]. eexists. split; [reflexivity|].
  destruct w as [ls [doc cur model pre names loc st pop]].
  cbn [self document textCursor autocompleteStart autocompleteCancel
       set_autocompleteStart call_popup set_text] in *.
  assert (Hc1 : clamp (len doc) start = start).
  { unfold clamp. destruct (Z.ltb_spec start 0); lia. }
  assert (Hc2 : clamp (len doc) cur = cur).
  { unfold clamp. destruct (Z.ltb_spec cur 0); lia. }
  rewrite Z.min_l, Z.max_r by lia.
  unfold selectedText, replace_range, slice, slice_to, slice_from.
  cbn [document textCursor].
  rewrite Z.min_l, Z.max_r by lia. rewrite !Hc1, !Hc2.
  split; [|split; [reflexivity|split; reflexivity]].
  replace (Z.to_nat (cur - start)) with (Z.to_nat cur - Z.to_nat start)%nat by lia.
  apply split_three. lia.
Qed.

Lemma accept_closed (text : str) (w : world) :
  autocompleteStart (self w) = None ->
  onAutoComplete text w = Raise AttributeError.
Proof. intros H. unfold onAutoComplete. now rewrite H. Qed.

(** ** The recency list as a history *)

Lemma update_loc (w w' : world) :
  updateAutocompleterPrefix w = Ret w' ->
  recentCompletions (self w') = recentCompletions (self w).
Proof.
  destruct (autocompleteStart (self w)) as [start|] eqn:Hs.
  - destruct (filtered w start) as [|c0 l0] eqn:Hf.
    + rewrite (update_no_match w start Hs Hf). intros H; inversion H. reflexivity.
    + assert (Hne : filtered w start <> []) by (rewrite Hf; discriminate).
      destruct (update_match w start Hs Hne) as (row & best & Hu & _).
      rewrite Hu. intros H; inversion H. reflexivity.
  - rewrite (update_inactive w Hs). intros H; inversion H. reflexivity.
Qed.

Lemma replace_names_loc (names : option (list str)) (w : world) :
  recentCompletions (self (replace_names names w)) = recentCompletions (self w).
Proof.
  unfold replace_names. destruct names as [n|]; [|reflexivity].
  now destruct (negb _).
Qed.

Lemma show_loc (offset : Z) (names : option (list str)) (w w' : world) :
  autocompleteShow offset names w = Ret w' ->
  recentCompletions (self w') = recentCompletions (self w).
Proof.
  unfold autocompleteShow.
  destruct (match autocompleteStart (self w) with
            | Some start => negb (movePosition_Left (self w) offset =? start)
            | None => true
            end).
  - unfold positionAutocompleter. cbn [autocompleteStart set_autocompleteStart bind].
    match goal with
    | |- context [updateAutocompleterPrefix (with_self w ?e)] =>
        destruct (updateAutocompleterPrefix (with_self w e)) as [w1|] eqn:E1;
          [|discriminate]
    end.
    cbn [bind]. intros H. apply update_loc in H, E1.
    rewrite H, replace_names_loc. cbn [self with_self call_popup recentCompletions].
    rewrite E1. reflexivity.
  - cbn [bind]. intros H. apply update_loc in H.
    now rewrite H, replace_names_loc.
Qed.

Lemma super_key_loc (ev : event) (e : editor) :
  recentCompletions (super_keyPressEvent ev e) = recentCompletions e.
Proof.
  unfold super_keyPressEvent. destruct (event_key ev); try reflexivity.
  now destruct (0 <? textCursor e).
Qed.

Lemma keyPress_loc (ev : event) (w w' : world) :
  AutoCompletion.keyPressEvent ev w = Ret w' ->
  recentCompletions (self w') = recentCompletions (self w).
Proof.
  unfold AutoCompletion.keyPressEvent.
  destruct (_ && _ && _); [intros H; now inversion H|].
  destruct (_ && _ && _); [intros H; now inversion H|].
  match goal with
  | |- context [super_keyPressEvent ev ?e] =>
      assert (Hloc : recentCompletions (super_keyPressEvent ev e)
                     = recentCompletions (self w))
        by (rewrite super_key_loc; now destruct (match autocompleteStart (self w) with
                                                 | Some _ => _ | None => _ end));
      generalize dependent (super_keyPressEvent ev e); intros e1 Hloc
  end.
  destruct (autocompleteActive e1).
  - unfold positionAutocompleter.
    destruct (autocompleteStart e1); [|discriminate].
    cbn [bind]. intros H. apply update_loc in H. now rewrite H.
  - intros H; inversion H. assumption.
Qed.

Ltac case_elem_of :=
  match goal with
  | |- context [list_elem_of_dec ?x ?l] => destruct (list_elem_of_dec x l)
  end.

(** Dropping all but the last occurrence of each value, one value later. *)
Lemma remove_dups_snoc (h : list str) (t : str) :
  remove_dups (h ++ [t])
  = List.filter (fun y => negb (bool_decide (y = t))) (remove_dups h) ++ [t].
Proof.
  induction h as [|x h IH]; [reflexivity|].
  cbn [app remove_dups]. unfold decide_rel. rewrite IH.
  destruct (decide (x = t)) as [->|Hne].
  - assert (Hin : t ∈ h ++ [t]) by (apply elem_of_app; right; left).
    repeat case_elem_of; try contradiction; try reflexivity.
    cbn [List.filter]. now rewrite bool_decide_eq_true_2.
  - assert (Hiff : x ∈ h ++ [t] <-> x ∈ h).
    { rewrite elem_of_app, list_elem_of_singleton. tauto. }
    repeat case_elem_of; try tauto.
    cbn [List.filter]. now rewrite bool_decide_eq_false_2.
Qed.

Lemma remove_dups_app_l (a k : list str) :
  remove_dups (remove_dups a ++ k) = remove_dups (a ++ k).
Proof.
  induction a as [|x a IH]; [reflexivity|].
  cbn [app remove_dups]. unfold decide_rel.
  assert (Hiff : x ∈ remove_dups a ++ k <-> x ∈ a ++ k).
  { now rewrite !elem_of_app, elem_of_remove_dups. }
  assert (Hl : x ∈ a -> x ∈ a ++ k) by (intros; apply elem_of_app; now left).
  repeat case_elem_of; cbn [app remove_dups]; unfold decide_rel;
    repeat case_elem_of; try tauto; now rewrite IH.
Qed.

Lemma remove_dups_NoDup (l : list str) : NoDup l -> remove_dups l = l.
Proof.
  induction 1 as [|x l Hx Hl IH]; [reflexivity|].
  cbn [remove_dups]. unfold decide_rel.
  case_elem_of; [contradiction|]. now rewrite IH.
Qed.

(** X12: after any sequence of operations that leaves the editor its list,
    the recency list is the list held before followed by the accepted
    texts in order, with all but the last occurrence of each text
    dropped. *)
Theorem X12_recent_history (ops : list operation) (w w' : world) :
  keeps_its_list ops = true ->
  run_all ops w = Ret w' ->
  unique_lists w ->
  recent w' = remove_dups (recent w ++ accepted ops).
Proof.
  revert w. induction ops as [|op ops IH]; intros w Hkeep Hrun Huniq.
  - simpl in Hrun. inversion Hrun; subst. simpl. rewrite app_nil_r.
    symmetry. apply remove_dups_NoDup. now apply recent_NoDup.
  - simpl in Hrun. destruct (run op w) as [w1|] eqn:E; [|discriminate].
    cbn [bind] in Hrun.
    simpl in Hkeep. apply andb_true_iff in Hkeep as [Hop Hkeep].
    destruct (run_step op w w1 E Huniq) as [Huniq1 Hstep].
    rewrite (IH w1 Hkeep Hrun Huniq1).
    pose proof (recent_NoDup w Huniq) as Hnd.
    assert (Hsame : forall v, lists v = lists w ->
              recentCompletions (self v) = recentCompletions (self w) ->
              recent v = recent w).
    { intros v H1 H2. unfold recent. now rewrite H1, H2. }
    destruct op as [offset names| |text| |ev|value]; simpl in E; cbn [accepted].
    + rewrite (Hsame w1 Hstep (show_loc _ _ _ _ E)). reflexivity.
    + inversion E; subst. reflexivity.
    + destruct Hstep as (_ & Hrec & _). rewrite Hrec.
      rewrite <- (remove_dups_NoDup (recent w) Hnd) at 1.
      rewrite <- remove_dups_snoc, remove_dups_app_l.
      now rewrite <- app_assoc.
    + rewrite (Hsame w1 Hstep (update_loc _ _ E)). reflexivity.
    + rewrite (Hsame w1 Hstep (keyPress_loc _ _ _ E)). reflexivity.
    + discriminate.
Qed.

(** ** The split console *)

Lemma join_empty_cons (w : str) (ws : list str) :
  join (py "") (w :: ws) = w ++ join (py "") ws.
Proof.
  destruct ws as [|v ws]; simpl; [now rewrite app_nil_r|reflexivity].
Qed.

Lemma join_empty_app (a b : list str) :
  join (py "") (a ++ b) = join (py "") a ++ join (py "") b.
Proof.
  induction a as [|w a IH]; [reflexivity|].
  cbn [app]. rewrite !join_empty_cons, IH. now rewrite app_assoc.
Qed.

(** What [splitConsole] leaves behind. *)
Lemma splitConsole_spec (f g : option nat) (c : Logging.console) :
  exists so se,
    Logging.stdout (fst (Logging.splitConsole f g c)) = Logging.split_stream so
    /\ Logging.stderr (fst (Logging.splitConsole f g c)) = Logging.split_stream se
    /\ Logging.history so = Logging.history se
    /\ Logging.original so = file_behind (Logging.stdout c)
    /\ Logging.original se = file_behind (Logging.stderr c)
    /\ function_of (Logging.split_stream so)
       = match f with Some k => Some k | None => function_of (Logging.stdout c) end
    /\ function_of (Logging.split_stream se)
       = match g with Some k => Some k | None => function_of (Logging.stderr c) end
    /\ Logging.effects (fst (Logging.splitConsole f g c)) = Logging.effects c
    /\ snd (Logging.splitConsole f g c)
       = join (py "")
           (default [] (Logging.histories (fst (Logging.splitConsole f g c))
                        !! Logging.history so))
    /\ (forall s, Logging.stdout c = Logging.split_stream s ->
          Logging.history so = Logging.history s
          /\ default [] (Logging.histories (fst (Logging.splitConsole f g c))
                         !! Logging.history s)
             = default [] (Logging.histories c !! Logging.history s)).
Proof.
  unfold Logging.splitConsole.
  destruct (Logging.new_splitter (Logging.stdout c) (Logging.histories c))
    as [out h] eqn:Eout.
  destruct (Logging.new_splitter (Logging.stderr c) h) as [err h'] eqn:Eerr.
  cbn [fst snd Logging.stdout Logging.stderr Logging.effects Logging.histories].
  eexists _, _. split; [reflexivity|]. split; [reflexivity|].
  assert (Hout : Logging.original out = file_behind (Logging.stdout c)
                 /\ function_of (Logging.split_stream out)
                    = function_of (Logging.stdout c)).
  { unfold Logging.new_splitter in Eout.
    destruct (Logging.stdout c) as [x|s]; inversion Eout; subst; split; reflexivity. }
  assert (Herr : Logging.original err = file_behind (Logging.stderr c)
                 /\ function_of (Logging.split_stream err)
                    = function_of (Logging.stderr c)).
  { unfold Logging.new_splitter in Eerr.
    destruct (Logging.stderr c) as [x|s]; inversion Eerr; subst; split; reflexivity. }
  destruct Hout as [Ho1 Ho2], Herr as [He1 He2].
  assert (Hlast : forall s, Logging.stdout c = Logging.split_stream s ->
            Logging.history out = Logging.history s
            /\ default [] (h' !! Logging.history s)
               = default [] (Logging.histories c !! Logging.history s)).
  { intros s H. unfold Logging.new_splitter in Eout, Eerr. rewrite H in Eout.
    inversion Eout; subst out h; clear Eout. split; [reflexivity|].
    destruct (Logging.stderr c) as [x|s']; inversion Eerr; subst; [|reflexivity].
    destruct (decide (fresh (dom (Logging.histories c)) = Logging.history s))
      as [E|E].
    - rewrite <- E. rewrite lookup_insert_eq.
      assert (Hnone : Logging.histories c !! fresh (dom (Logging.histories c)) = None)
        by (apply not_elem_of_dom, is_fresh).
      now rewrite Hnone.
    - now rewrite lookup_insert_ne. }
  cbn [function_of] in Ho2, He2.
  destruct f, g; cbn [function_of Logging.history Logging.original Logging.defer];
    (split; [reflexivity|]); (split; [assumption|]); (split; [assumption|]);
    (split; [reflexivity || assumption|]); (split; [reflexivity || assumption|]);
    (split; [reflexivity|]); (split; [reflexivity|]); exact Hlast.
Qed.

(** One write to a split stream. *)
Lemma write_split (s : Logging.OutputStreamSplitter) (text : str)
    (c : Logging.console) :
  Logging.stdout (Logging.write (Logging.split_stream s) text c) = Logging.stdout c
  /\ Logging.stderr (Logging.write (Logging.split_stream s) text c) = Logging.stderr c
  /\ default [] (Logging.histories (Logging.write (Logging.split_stream s) text c)
                 !! Logging.history s)
     = default [] (Logging.histories c !! Logging.history s) ++ [text]
  /\ Logging.effects (Logging.write (Logging.split_stream s) text c)
     = Logging.effects c
       ++ Logging.file_write (Logging.original s) text
          :: match function_of (Logging.split_stream s) with
             | Some k => [Logging.call k text]
             | None => []
             end.
Proof.
  unfold Logging.write. cbn [function_of].
  destruct (Logging.defer s);
    cbn [Logging.stdout Logging.stderr Logging.histories Logging.effects];
    rewrite lookup_insert_eq; repeat split; try reflexivity.
  now rewrite <- app_assoc.
Qed.

(** While both streams share one history, it records every write. *)
Lemma write_all_shared (ws : list (Logging.channel * str)) (c : Logging.console)
    (so se : Logging.OutputStreamSplitter) :
  Logging.stdout c = Logging.split_stream so ->
  Logging.stderr c = Logging.split_stream se ->
  Logging.history so = Logging.history se ->
  Logging.stdout (write_all ws c) = Logging.stdout c
  /\ Logging.stderr (write_all ws c) = Logging.stderr c
  /\ default [] (Logging.histories (write_all ws c) !! Logging.history so)
     = default [] (Logging.histories c !! Logging.history so) ++ map snd ws.
Proof.
  revert c. induction ws as [|[ch text] ws IH]; intros c Hout Herr Hshare.
  - simpl. now rewrite app_nil_r.
  - unfold write_all. cbn [fold_left fst snd].
    fold (write_all ws (Logging.write_to ch text c)).
    assert (Hw : Logging.stdout (Logging.write_to ch text c) = Logging.stdout c
                 /\ Logging.stderr (Logging.write_to ch text c) = Logging.stderr c
                 /\ default [] (Logging.histories (Logging.write_to ch text c)
                                !! Logging.history so)
                    = default [] (Logging.histories c !! Logging.history so)
                      ++ [text]).
    { destruct ch; unfold Logging.write_to.
      - destruct (write_split so text c) as (H1 & H2 & H3 & _).
        rewrite <- Hout in H1, H2, H3. auto.
      - destruct (write_split se text c) as (H1 & H2 & H3 & _).
        rewrite <- Herr in H1, H2, H3. rewrite <- Hshare in H3. auto. }
    destruct Hw as (H1 & H2 & H3).
    destruct (IH (Logging.write_to ch text c)) as (I1 & I2 & I3);
      [now rewrite H1|now rewrite H2|assumption|].
    rewrite I1, I2, I3, H1, H2, H3. cbn [map].
    now rewrite <- app_assoc.
Qed.

(** ** The stack trace menu *)

Lemma uint_digits_no_colon (d : Decimal.uint) :
  ":"%char ∉ list_ascii_of_string (DecimalString.NilEmpty.string_of_uint d).
Proof.
  induction d; simpl;
    [apply not_elem_of_nil|..];
    (apply not_elem_of_cons; split; [discriminate|assumption]).
Qed.

Lemma str_of_int_no_colon (n : Z) : ":"%char ∉ str_of_int n.
Proof.
  unfold str_of_int, DecimalString.NilZero.string_of_int,
    DecimalString.NilZero.string_of_uint.
  assert (H : forall d,
    ":"%char ∉ list_ascii_of_string
      match d with
      | Decimal.Nil => "0"%string
      | _ => DecimalString.NilEmpty.string_of_uint d
      end).
  { intros d. destruct d; try apply uint_digits_no_colon.
    simpl. apply not_elem_of_cons. split; [discriminate|apply not_elem_of_nil]. }
  destruct (Z.to_int n) as [d|d]; [apply H|].
  cbn [list_ascii_of_string]. apply not_elem_of_cons. split; [discriminate|apply H].
Qed.

Lemma startswith_app (p s : str) : startswith (p ++ s) p = true.
Proof.
  induction p as [|c p IH]; simpl; [now destruct s|].
  now rewrite Ascii.eqb_refl, IH.
Qed.

Lemma find_unfold (sub s : str) :
  find sub s = if startswith s sub then Some 0%nat
               else match s with
                    | [] => None
                    | _ :: s' => option_map S (find sub s')
                    end.
Proof. now destruct s. Qed.

Lemma find_first (c : ascii) (sep a b : str) :
  c ∉ a -> find (c :: sep) (a ++ (c :: sep) ++ b) = Some (length a).
Proof.
  induction a as [|x a IH]; intros H; rewrite find_unfold.
  - cbn [app length]. change (c :: sep ++ b) with ((c :: sep) ++ b).
    now rewrite startswith_app.
  - apply not_elem_of_cons in H as [Hx Ha].
    change ((x :: a) ++ (c :: sep) ++ b) with (x :: (a ++ (c :: sep) ++ b)).
    cbn [startswith].
    destruct (Ascii.eqb_spec x c); [congruence|]. cbn [andb].
    rewrite (IH Ha). reflexivity.
Qed.

Lemma split1_first (c : ascii) (sep a b : str) :
  c ∉ a -> split1 (c :: sep) (a ++ (c :: sep) ++ b) = Ret [a; b].
Proof.
  intros H. unfold split1. rewrite (find_first c sep a b H).
  f_equal. f_equal.
  - rewrite firstn_app, firstn_all, Nat.sub_diag. cbn [firstn]. apply app_nil_r.
  - f_equal. rewrite app_assoc, <- length_app.
    rewrite skipn_app, skipn_all, Nat.sub_diag. reflexivity.
Qed.

(** The action [setTrace] makes for a frame. *)
Lemma frame_actions_lookup (index : Z) (frames : list str) (k : nat)
    (frame : str) (thisIndex : Z) (theAction : option ShellTabs.action) :
  frames !! k = Some frame ->
  fst (ShellTabs.frame_actions index frames thisIndex theAction) !! k
  = Some (ShellTabs.Action
            (str_of_int (thisIndex + Z.of_nat k) ++ py ": " ++ frame)
            (thisIndex + Z.of_nat k)
            (Some (thisIndex + Z.of_nat k =? index))).
Proof.
  revert k thisIndex theAction.
  induction frames as [|f frames IH]; intros k thisIndex theAction Hk; [discriminate|].
  cbn [ShellTabs.frame_actions].
  match goal with
  | |- context [ShellTabs.frame_actions index frames ?i ?a] =>
      pose proof (IH (pred k) i a) as IH';
      destruct (ShellTabs.frame_actions index frames i a) as [rest acc]
  end.
  cbn [fst] in *. destruct k as [|k].
  - simpl in Hk. inversion Hk; subst. simpl. now rewrite Z.add_0_r.
  - simpl in Hk. cbn [pred] in IH'. specialize (IH' Hk).
    change ((?a :: rest) !! S k) with (rest !! k). rewrite IH'.
    now replace (thisIndex + 1 + Z.of_nat k) with (thisIndex + Z.of_nat (S k)) by lia.
Qed.

Lemma frame_actions_length (index : Z) (frames : list str) (thisIndex : Z)
    (theAction : option ShellTabs.action) :
  length (fst (ShellTabs.frame_actions index frames thisIndex theAction))
  = length frames.
Proof.
  revert thisIndex theAction.
  induction frames as [|f frames IH]; intros thisIndex theAction; [reflexivity|].
  cbn [ShellTabs.frame_actions].
  match goal with
  | |- context [ShellTabs.frame_actions index frames ?i ?a] =>
      specialize (IH i a); destruct (ShellTabs.frame_actions index frames i a)
  end.
  simpl in *. now rewrite IH.
Qed.

(** The frame [setTrace] takes for the current one. *)
Lemma frame_actions_current (index : Z) (frames : list str) (thisIndex : Z)
    (theAction : option ShellTabs.action) :
  snd (ShellTabs.frame_actions index frames thisIndex theAction)
  = match frames !! Z.to_nat (index - thisIndex) with
    | Some frame =>
        if thisIndex <=? index then
          Some (ShellTabs.Action (str_of_int index ++ py ": " ++ frame) index
                                 (Some true))
        else theAction
    | None => theAction
    end.
Proof.
  revert thisIndex theAction.
  induction frames as [|f frames IH]; intros thisIndex theAction.
  - reflexivity.
  - cbn [ShellTabs.frame_actions].
    match goal with
    | |- context [ShellTabs.frame_actions index frames ?i ?a] =>
        specialize (IH i a); destruct (ShellTabs.frame_actions index frames i a)
    end.
    cbn [snd] in *. rewrite IH.
    destruct (Z.eqb_spec thisIndex index) as [->|Hne].
    + rewrite Z.sub_diag, Z.leb_refl.
      replace (index - (index + 1)) with (-1) by lia.
      change (Z.to_nat (-1)) with 0%nat. change (Z.to_nat 0) with 0%nat.
      destruct (Z.leb_spec (index + 1) index); [lia|].
      cbn [lookup list_lookup]. now destruct (frames !! 0%nat).
    + destruct (Z.leb_spec thisIndex index) as [Hle|Hgt].
      * replace (Z.to_nat (index - thisIndex))
          with (S (Z.to_nat (index - (thisIndex + 1)))) by lia.
        cbn [lookup list_lookup].
        destruct (Z.leb_spec (thisIndex + 1) index); [reflexivity|lia].
      * destruct (Z.leb_spec (thisIndex + 1) index); [lia|].
        replace (Z.to_nat (index - thisIndex)) with 0%nat by lia.
        replace (Z.to_nat (index - (thisIndex + 1))) with 0%nat by lia.
        cbn [lookup list_lookup]. now destruct (frames !! 0%nat).
Qed.

(** ** The parser on the lines an editor holds *)

(** X1: behind a character that breaks the scan off (a space, an opening
    bracket, an operator and the like) the parser reads a dotted
    expression whatever stands before: the base is what stands between
    that character and the last dot, the name what follows the last dot;
    without a dot the base is empty.  The line must not be commented. *)
Theorem X1_parse_behind_break (pre : str) (sep : ascii) (base name : str) :
  is_break sep = true ->
  forallb name_or_dot base = true ->
  forallb is_namechar name = true ->
  (is_commented (pre ++ sep :: base ++ "."%char :: name) = false ->
   parseLine_autocomplete (pre ++ sep :: base ++ "."%char :: name)
   = Ret (base, name))
  /\ (is_commented (pre ++ sep :: name) = false ->
      parseLine_autocomplete (pre ++ sep :: name) = Ret (py "", name)).
Proof. apply parse_behind_break. Qed.

Lemma X1_witness :
  parseLine_autocomplete (py "x = foo.bar.ba") = Ret (py "foo.bar", py "ba")
  /\ parseLine_autocomplete (py "x = ba") = Ret (py "", py "ba").
Proof.
  split.
  - exact (proj1 (X1_parse_behind_break (py "x =") " "%char (py "foo.bar")
                    (py "ba") eq_refl eq_refl eq_refl) eq_refl).
  - exact (proj2 (X1_parse_behind_break (py "x =") " "%char (py "foo.bar")
                    (py "ba") eq_refl eq_refl eq_refl) eq_refl).
Defined.

(** X2: a line that is one dotted expression from its first character on
    is split at the last dot, and a lone name gets the empty base.  At the
    start of the line the variable that marks the dot cannot tell the index
    0 from unset: a line that starts with its only dot comes back whole as
    the name, dot included, with the empty base. *)
Theorem X2_parse_expression_line (base name : str) :
  forallb name_or_dot base = true ->
  forallb is_namechar name = true ->
  parseLine_autocomplete name = Ret (py "", name)
  /\ parseLine_autocomplete (base ++ "."%char :: name)
     = Ret (match base with
            | [] => (py "", "."%char :: name)
            | _ :: _ => (base, name)
            end).
Proof. apply parse_expression_line. Qed.

Lemma X2_witness :
  (parseLine_autocomplete (py "pa") = Ret (py "", py "pa")
   /\ parseLine_autocomplete (py "os.path.pa") = Ret (py "os.path", py "pa"))
  /\ parseLine_autocomplete (py ".pa") = Ret (py "", py ".pa").
Proof.
  split.
  - exact (X2_parse_expression_line (py "os.path") (py "pa") eq_refl eq_refl).
  - exact (proj2 (X2_parse_expression_line (py "") (py "pa") eq_refl eq_refl)).
Defined.

(** X3: a quote directly followed by a dot and a name gives the string
    marker as the base, and an empty pair of brackets directly followed by
    a dot and a name gives the list marker, whatever stands before, as long
    as the line is not commented. *)
Theorem X3_parse_marker_forms (pre : str) (q : ascii) (name : str) :
  is_quote q = true ->
  forallb is_namechar name = true ->
  (is_commented (pre ++ q :: "."%char :: name) = false ->
   parseLine_autocomplete (pre ++ q :: "."%char :: name) = Ret (py "''", name))
  /\ (is_commented (pre ++ "["%char :: "]"%char :: "."%char :: name) = false ->
      parseLine_autocomplete (pre ++ "["%char :: "]"%char :: "."%char :: name)
      = Ret (py "[]", name)).
Proof. apply parse_marker_forms. Qed.

Lemma X3_witness :
  parseLine_autocomplete (py "x = 'abc'.up") = Ret (py "''", py "up")
  /\ parseLine_autocomplete (py "x = [].ap") = Ret (py "[]", py "ap").
Proof.
  split.
  - exact (proj1 (X3_parse_marker_forms (py "x = 'abc") squote (py "up")
                    eq_refl eq_refl) eq_refl).
  - exact (proj2 (X3_parse_marker_forms (py "x = ") squote (py "ap")
                    eq_refl eq_refl) eq_refl).
Defined.

Lemma X4_witness :
  (exists front, py "a = b.c" = front ++ py "c")
  /\ forallb name_or_dot (py "c") = true
  /\ (py "b" = []
      \/ ((py "b" = py "''" \/ py "b" = py "[]")
          /\ exists front, py "a = b.c" = front ++ "."%char :: py "c")
      \/ (forallb name_or_dot (py "b") = true
          /\ exists front, py "a = b.c" = front ++ py "b" ++ "."%char :: py "c")).
Proof. exact (X4_parse_shape (py "a = b.c") (py "b") (py "c") eq_refl). Defined.

(** ** From the timer to the response *)

(** X5: the name [autoComplete_do_now] stores is read back by
    [autoComplete_process] by splitting at every dot.  When neither the
    base nor the name the parser gave holds a dot, the base and the
    lower-cased name come back; when one of them holds a dot, as for
    [os.path.jo], the response raises [ValueError]. *)
Theorem X5_stored_name_read_back (has_shell : bool) (c : ctrl)
    (base name : str) (is_editor : bool) (sh : option shell) (active : bool)
    (response : str) :
  delayTimer_line c <> [] ->
  parseLine_autocomplete (delayTimer_line c) = Ret (base, name) ->
  let c' := fst (autoComplete_do_now has_shell c) in
  (("."%char ∉ base) -> ("."%char ∉ name) ->
   unpack2 (split "."%char (ctrl_autoComp_name c')) = Ret (base, lower name))
  /\ ("."%char ∈ base \/ "."%char ∈ name ->
      autoComplete_process (context_of c' is_editor sh active) response
      = Raise ValueError).
Proof.
  intros Hline Hparse c'.
  destruct (do_now_spec has_shell c base name Hline Hparse) as [Hname _].
  fold c' in Hname.
  destruct (stored_name_unpack base (lower name)) as [Hok Hbad].
  split.
  - intros Hb Hn. rewrite Hname. apply Hok; [assumption|].
    intros H. apply Hn. now apply lower_dot.
  - intros H. unfold autoComplete_process, context_of. cbn [autoComp_name].
    rewrite Hname.
    assert (Hraise : unpack2 (split "."%char (base ++ py "." ++ lower name))
                     = Raise ValueError).
    { apply Hbad. destruct H as [H|H]; [now left|right; now apply lower_dot]. }
    destruct (base ++ py "." ++ lower name) eqn:E;
      [destruct base; discriminate|].
    now rewrite Hraise.
Qed.

Lemma X5_witness :
  unpack2 (split "."%char
             (ctrl_autoComp_name (fst (autoComplete_do_now true ctrl_os))))
  = Ret (py "os", py "jo")
  /\ autoComplete_process
       (context_of (fst (autoComplete_do_now true ctrl_os_path)) true None false)
       (py "join,joinpath")
     = Raise ValueError.
Proof.
  split.
  - apply (X5_stored_name_read_back true ctrl_os (py "os") (py "jo")
             true None false (py ""));
      [discriminate|reflexivity|..];
      intros H; repeat (apply elem_of_cons in H as [H|H]; [discriminate|]);
      now apply elem_of_nil in H.
  - apply (X5_stored_name_read_back true ctrl_os_path (py "os.path") (py "jo")
             true None false (py "join,joinpath"));
      [discriminate|reflexivity|].
    left. do 2 (apply elem_of_cons; right). apply elem_of_cons. now left.
Defined.

Lemma index_last {A : Type} (front : list A) (x : A) :
  index (front ++ [x]) (-1) = Ret x.
Proof.
  unfold index, len. rewrite length_app. cbn [length].
  change (-1 <? 0) with true. cbv iota.
  destruct (Z.ltb_spec (-1 + Z.of_nat (length front + 1)) 0) as [?|_]; [lia|].
  replace (Z.to_nat (-1 + Z.of_nat (length front + 1))) with (length front) by lia.
  rewrite nth_error_app2, Nat.sub_diag by lia. reflexivity.
Qed.

(** X6: a key press discards a completion that is under way.  Whatever the
    key, the stored name is empty afterwards, so a response that arrives
    then only cancels the popup; and the line the timer holds is empty, or
    it is the line up to the cursor and ends in a name character or a
    dot. *)
Theorem X6_key_press_discards_pending (text : str) (after : surroundings)
    (c : ctrl) (is_editor : bool) (sh : option shell) (active : bool)
    (response : str) :
  let c' := fst (BaseTextCtrl.keyPressEvent text after c) in
  ctrl_autoComp_name c' = py ""
  /\ autoComplete_process (context_of c' is_editor sh active) response
     = Ret [SCI_AUTOCCANCEL]
  /\ (delayTimer_line c' = py ""
      \/ (delayTimer_line c' = slice_to (lineString after) (lineIndex after)
          /\ exists front last,
               delayTimer_line c' = front ++ [last]
               /\ name_or_dot last = true)).
Proof.
  intros c'.
  assert (H : ctrl_autoComp_name c' = py ""
              /\ (delayTimer_line c' = py ""
                  \/ (delayTimer_line c'
                      = slice_to (lineString after) (lineIndex after)
                      /\ exists front last,
                           delayTimer_line c' = front ++ [last]
                           /\ name_or_dot last = true))).
  { unfold c', BaseTextCtrl.keyPressEvent.
    set (c0 := Ctrl (py "") (delayTimer_started c) (py "")).
    destruct text as [|t text]; [split; [reflexivity|left; reflexivity]|].
    destruct (ord (t :: text)) as [key|e];
      [|split; [reflexivity|left; reflexivity]].
    destruct ((48 <=? key) || (key =? 8));
      [|split; [reflexivity|left; reflexivity]].
    unfold autoComplete_do.
    destruct (isValidPython after); cbn [negb];
      [|split; [reflexivity|left; reflexivity]].
    destruct (slice_to (lineString after) (lineIndex after)) as [|x l];
      [split; [reflexivity|left; reflexivity]|].
    destruct (exists_last (l := x :: l) ltac:(discriminate))
      as (front & last & Hl).
    rewrite Hl, index_last. cbn [bind].
    change (contains last namechars || Ascii.eqb last "."%char)
      with (name_or_dot last).
    destruct (name_or_dot last) eqn:Hlast; cbn [negb fst];
      [|split; [reflexivity|left; reflexivity]].
    cbn [ctrl_autoComp_name delayTimer_line c0].
    split; [reflexivity|]. right. split; [reflexivity|].
    now exists front, last. }
  destruct H as [Hname Hline]. split; [assumption|]. split; [|assumption].
  unfold autoComplete_process, context_of. cbn [autoComp_name].
  now rewrite Hname.
Qed.

(** ** The completion session *)

Lemma X7_witness :
  exists row w',
    updateAutocompleterPrefix session_a = Ret w'
    /\ popup_calls session_a w' [setCurrentIndex (Z.of_nat row)]
    /\ filtered session_a 10 !! row = Some (py "amend").
Proof.
  apply (X7_most_recent_selected session_a 10 (py "amend")).
  - reflexivity.
  - apply NoDup_ListNoDup. vm_compute.
    repeat constructor; simpl; intuition discriminate.
  - reflexivity.
  - vm_compute. do 2 (apply elem_of_cons; right). apply elem_of_cons. now left.
  - reflexivity.
Defined.

Lemma X8_witness :
  exists w' row1 row2,
    autocompleteShow 0 (Some names_abc) editor_10 = Ret w'
    /\ autocompleteStart (self w') = Some 10
    /\ completerModel (self w') = names_abc
    /\ document (self w') = document (self editor_10)
    /\ textCursor (self w') = textCursor (self editor_10)
    /\ popup_calls editor_10 w' [move 10; setGeometry 200 100;
                                 setCurrentIndex row1; show;
                                 setCurrentIndex row2].
Proof.
  apply (X8_show_anew_opens 0 (Some names_abc) editor_10).
  - exact I.
  - vm_compute. discriminate.
  - vm_compute. discriminate.
Defined.

Lemma X9_witness :
  exists w',
    autocompleteShow 1 (Some [py "axe"]) session_xa = Ret w'
    /\ autocompleteStart (self w') = None
    /\ popup_calls session_xa w' [move 1; setGeometry 200 100; hide; show; hide].
Proof.
  apply (X9_show_anew_stale 1 (Some [py "axe"]) session_xa).
  - vm_compute. discriminate.
  - reflexivity.
Defined.

Lemma X10_witness :
  exists w',
    AutoCompletion.keyPressEvent escape session_a = Ret w'
    /\ autocompleteStart (self w') = None
    /\ popup_calls session_a w' [hide]
    /\ lists w' = lists session_a
    /\ (event_key escape = Key_Escape -> NoModifier escape = true ->
        document (self w') = document (self session_a)
        /\ textCursor (self w') = textCursor (self session_a)).
Proof.
  exact (X10_key_closes escape session_a 10 eq_refl eq_refl).
Defined.

(** X11: accepting a completion replaces exactly the text between the
    anchor and the cursor by the completion, puts the cursor behind it and
    closes the session; the text before the anchor and behind the cursor
    stays.  A completion activated once more after that finds no anchor and
    raises [AttributeError]. *)
Theorem X11_accept_replaces_typed_text (text again : str) (w : world)
    (start : Z) :
  autocompleteStart (self w) = Some start ->
  0 <= start <= textCursor (self w) ->
  textCursor (self w) <= len (document (self w)) ->
  exists w',
    onAutoComplete text w = Ret w'
    /\ document (self w)
       = firstn (Z.to_nat start) (document (self w))
         ++ selectedText (self w) start
         ++ skipn (Z.to_nat (textCursor (self w))) (document (self w))
    /\ document (self w')
       = firstn (Z.to_nat start) (document (self w))
         ++ text
         ++ skipn (Z.to_nat (textCursor (self w))) (document (self w))
    /\ textCursor (self w') = start + len text
    /\ autocompleteStart (self w') = None
    /\ onAutoComplete again w' = Raise AttributeError.
Proof.
  intros Hopen Hstart Hcursor.
  destruct (accept_document text w start Hopen Hstart Hcursor)
    as (w' & Hrun & Hdoc & Hdoc' & Hcur & Hclosed).
  exists w'. repeat split; try assumption.
  now apply accept_closed.
Qed.

Lemma X11_witness :
  exists w',
    onAutoComplete (py "alpha") session_a = Ret w'
    /\ document (self w') = py "0123456789alpha"
    /\ textCursor (self w') = 15
    /\ onAutoComplete (py "alpha") w' = Raise AttributeError.
Proof.
  destruct (X11_accept_replaces_typed_text (py "alpha") (py "alpha") session_a 10
              eq_refl ltac:(vm_compute; split; discriminate)
              ltac:(vm_compute; discriminate))
    as (w' & Hrun & _ & Hdoc & Hcur & _ & Hagain).
  exists w'. repeat split; assumption.
Defined.

Lemma X12_witness :
  exists w',
    run_all [Show 0 (Some names_abc); Accept (py "alpha");
             Show 0 (Some names_abc); Accept (py "amend");
             Show 0 (Some names_abc); Accept (py "alpha")] editor_10 = Ret w'
    /\ recent w' = [py "amend"; py "alpha"].
Proof.
  destruct (run_all [Show 0 (Some names_abc); Accept (py "alpha");
                     Show 0 (Some names_abc); Accept (py "amend");
                     Show 0 (Some names_abc); Accept (py "alpha")] editor_10)
    as [w'|] eqn:E; [|vm_compute in E; discriminate].
  exists w'. split; [reflexivity|].
  assert (Huniq : unique_lists editor_10).
  { intros l r Hl. unfold editor_10 in Hl. cbn [lists] in Hl.
    apply lookup_singleton_Some in Hl as [_ <-].
    apply NoDup_ListNoDup. repeat constructor; simpl; intuition discriminate. }
  rewrite (X12_recent_history
             [Show 0 (Some names_abc); Accept (py "alpha");
              Show 0 (Some names_abc); Accept (py "amend");
              Show 0 (Some names_abc); Accept (py "alpha")]
             editor_10 w' eq_refl E Huniq).
  reflexivity.
Defined.

(** ** The console *)

(** X13: once the console is split, its history records every text
    written to either stream, in the order of the writes: a later call of
    [splitConsole] returns what the earlier call returned followed by the
    texts written in between, whatever functions the calls give. *)
Theorem X13_history_records_writes (f g f' g' : option nat)
    (c : Logging.console) (ws : list (Logging.channel * str)) :
  snd (Logging.splitConsole f' g'
         (write_all ws (fst (Logging.splitConsole f g c))))
  = snd (Logging.splitConsole f g c) ++ join (py "") (map snd ws).
Proof.
  destruct (splitConsole_spec f g c)
    as (so & se & Hout & Herr & Hshare & _ & _ & _ & _ & _ & Hret & _).
  set (c1 := fst (Logging.splitConsole f g c)) in *.
  destruct (write_all_shared ws c1 so se Hout Herr Hshare) as (Hout2 & _ & Hhist).
  destruct (splitConsole_spec f' g' (write_all ws c1))
    as (so2 & _ & _ & _ & _ & _ & _ & _ & _ & _ & Hret2 & Hsame).
  destruct (Hsame so) as [Hloc Hkeep]; [now rewrite Hout2|].
  rewrite Hret2, Hloc, Hkeep, Hhist, join_empty_app, <- Hret. reflexivity.
Qed.

Lemma split_all_snoc (args : list (option nat * option nat))
    (a : option nat * option nat) (c : Logging.console) :
  split_all (args ++ [a]) c
  = fst (Logging.splitConsole (fst a) (snd a) (split_all args c)).
Proof. unfold split_all. now rewrite fold_left_app. Qed.

(** What calls of [splitConsole] keep of the standard output. *)
Lemma split_all_keeps (args : list (option nat * option nat))
    (c : Logging.console) :
  file_behind (Logging.stdout (split_all args c))
  = file_behind (Logging.stdout c)
  /\ function_of (Logging.stdout (split_all args c))
     = last_given (map fst args) (function_of (Logging.stdout c))
  /\ Logging.effects (split_all args c) = Logging.effects c
  /\ (args <> [] ->
      exists s, Logging.stdout (split_all args c) = Logging.split_stream s).
Proof.
  induction args as [|a args IH] using rev_ind.
  - repeat split; try reflexivity. congruence.
  - destruct IH as (Hfile & Hfun & Heff & _).
    rewrite split_all_snoc.
    destruct (splitConsole_spec (fst a) (snd a) (split_all args c))
      as (so & se & Hout & _ & _ & Ho & _ & Hf & _ & He & _).
    rewrite Hout. split; [|split; [|split]].
    + cbn [file_behind]. now rewrite Ho.
    + rewrite Hf, Hfun, map_app. unfold last_given. rewrite fold_left_app.
      cbn [map fold_left]. now destruct (fst a).
    + now rewrite He.
    + intros _. now exists so.
Qed.

(** X14: however often the console is split, the standard output keeps
    the file it had at first, not a chain of splitters: a text written to
    it reaches that file exactly once, and after that the function given
    last is called, once, if one was given. *)
Theorem X14_resplit_writes_once (a : option nat * option nat)
    (args : list (option nat * option nat)) (c : Logging.console)
    (text : str) :
  Logging.effects
    (Logging.write_to Logging.to_stdout text (split_all (a :: args) c))
  = Logging.effects c
    ++ Logging.file_write (file_behind (Logging.stdout c)) text
       :: match last_given (map fst (a :: args))
                           (function_of (Logging.stdout c)) with
          | Some k => [Logging.call k text]
          | None => []
          end.
Proof.
  destruct (split_all_keeps (a :: args) c) as (Hfile & Hfun & Heff & Hsplit).
  destruct Hsplit as [s Hs]; [discriminate|].
  unfold Logging.write_to. rewrite Hs.
  destruct (write_split s text (split_all (a :: args) c)) as (_ & _ & _ & Hw).
  rewrite Hw, Heff. rewrite Hs in Hfile, Hfun. cbn [file_behind] in Hfile.
  now rewrite Hfile, Hfun.
Qed.

(** ** The title of the help tool *)

Lemma slice_to_short {A : Type} (s : list A) (n : nat) :
  (n <= length s)%nat -> slice_to s (Z.of_nat n) = firstn n s.
Proof.
  intros H. unfold slice_to, clamp, len.
  destruct (Z.ltb_spec (Z.of_nat n) 0) as [?|_]; [lia|].
  f_equal. lia.
Qed.

(** X15: the title shows a representation of at most 40 characters, put
    between the title without representation and its closing line: a
    representation of up to 40 characters is shown whole, of a longer one
    the first 37 characters are shown, followed by three dots. *)
Theorem X15_title_repr_bounded (objectName h_class h_repr : str) :
  h_repr <> [] ->
  exists head shown,
    InteractiveHelp.get_title_text objectName h_class (py "")
    = head ++ title_finish
    /\ InteractiveHelp.get_title_text objectName h_class h_repr
       = head ++ py ", <b><i>repr:</i></b> " ++ shown ++ title_finish
    /\ len shown <= 40
    /\ (len h_repr <= 40 -> shown = h_repr)
    /\ (40 < len h_repr -> shown = firstn 37 h_repr ++ py "..."
                           /\ len shown = 40).
Proof.
  intros Hne. unfold InteractiveHelp.get_title_text.
  set (head := match h_class with
               | [] => py "<b><i>Object:</i></b> " ++ objectName
               | _ :: _ => (py "<b><i>Object:</i></b> " ++ objectName)
                           ++ py ", <b><i>class:</i></b> " ++ h_class
               end).
  destruct h_repr as [|r h_repr]; [congruence|].
  set (repr := r :: h_repr) in *.
  exists head.
  destruct (Z.ltb_spec 40 (len repr)) as [Hlong|Hshort].
  - exists (slice_to repr 37 ++ py "...").
    assert (H37 : slice_to repr 37 = firstn 37 repr).
    { apply (slice_to_short repr 37). unfold len in Hlong. lia. }
    assert (Hlen : len (slice_to repr 37 ++ py "...") = 40).
    { rewrite H37. unfold len in *. rewrite length_app, length_firstn.
      cbn [length py list_ascii_of_string]. lia. }
    split; [reflexivity|]. split; [now rewrite <- !app_assoc|].
    split; [lia|]. split; [lia|].
    intros _. split; [now rewrite H37|assumption].
  - exists repr.
    split; [reflexivity|]. split; [now rewrite <- !app_assoc|].
    split; [assumption|]. split; [reflexivity|lia].
Qed.

Lemma X15_witness :
  exists head shown,
    InteractiveHelp.get_title_text (py "os") (py "module") (py "")
    = head ++ title_finish
    /\ InteractiveHelp.get_title_text (py "os") (py "module") repr_45
       = head ++ py ", <b><i>repr:</i></b> " ++ shown ++ title_finish
    /\ len shown <= 40
    /\ (len repr_45 <= 40 -> shown = repr_45)
    /\ (40 < len repr_45 -> shown = firstn 37 repr_45 ++ py "..."
                            /\ len shown = 40).
Proof.
  apply (X15_title_repr_bounded (py "os") (py "module") repr_45).
  discriminate.
Defined.

(** ** The stack trace menu, chosen from *)

(** X16: the menu [setTrace] builds and [onTriggered] fit together.  The
    menu holds the entry that stops debugging and then one entry per
    frame; choosing the first sends [DB STOP]; choosing the entry of a
    frame hands exactly that frame to [debugFocus], whatever the frame
    text holds, after [DB FRAME] with the number of the frame was sent,
    unless the frame is the current one.  When the index names a frame,
    the button shows that number and the number of frames. *)
Theorem X16_trace_menu_round_trip (index : Z) (frames : list str) (k : nat)
    (frame : str) (d : ShellTabs.DebugControl) :
  frames !! k = Some frame ->
  exists main actions a,
    ShellTabs.menu (ShellTabs.setTrace (Some (index, frames)) d)
    = Some (main :: actions)
    /\ length actions = length frames
    /\ ShellTabs.onTriggered true main
       = Ret [ShellTabs.executeCommand (py "DB STOP" ++ [ShellTabs.newline])]
    /\ actions !! k = Some a
    /\ ShellTabs.onTriggered true a
       = Ret ((if Z.of_nat (S k) =? index then []
               else [ShellTabs.executeCommand
                       (py "DB FRAME " ++ str_of_int (Z.of_nat (S k))
                        ++ [ShellTabs.newline])])
              ++ [ShellTabs.debugFocus frame])
    /\ (1 <= index <= len frames ->
        ShellTabs.text (ShellTabs.setTrace (Some (index, frames)) d)
        = py "Stack Trace (" ++ str_of_int index ++ py "/"
          ++ str_of_int (len frames) ++ py "):  ").
Proof.
  intros Hk.
  pose proof (frame_actions_lookup index frames k frame 1 None Hk) as Hact.
  pose proof (frame_actions_length index frames 1 None) as Hlen.
  pose proof (frame_actions_current index frames 1 None) as Hcur.
  unfold ShellTabs.setTrace.
  destruct frames as [|f0 frames0] eqn:Ef; [discriminate|]. rewrite <- Ef in *.
  destruct (ShellTabs.frame_actions index frames 1 None) as [actions theAction].
  cbn [fst snd] in *.
  replace (1 + Z.of_nat k) with (Z.of_nat (S k)) in Hact by lia.
  exists (ShellTabs.Action (py "MAIN: stop debugging") 0 None), actions.
  eexists. split; [|split; [exact Hlen|split; [reflexivity|split; [exact Hact|]]]].
  - rewrite Ef. now destruct theAction.
  - split.
    + unfold ShellTabs.onTriggered.
      cbn [negb ShellTabs.action_index ShellTabs.action_isCurrent
           ShellTabs.action_text bind].
      destruct (Z.ltb_spec (Z.of_nat (S k)) 1) as [?|_]; [lia|].
      change (py ": ") with (":"%char :: py " ").
      rewrite (split1_first ":"%char (py " ") (str_of_int (Z.of_nat (S k))) frame)
        by apply str_of_int_no_colon.
      cbn [bind]. change (Py.index [str_of_int (Z.of_nat (S k)); frame] 1)
        with (Ret frame).
      now destruct (Z.of_nat (S k) =? index).
    + intros [H1 Hn].
      destruct (frames !! Z.to_nat (index - 1)) as [fr|] eqn:Efr.
      * destruct (Z.leb_spec 1 index); [|lia]. now rewrite Hcur.
      * apply lookup_ge_None in Efr. exfalso. unfold len, str in *. lia.
Qed.

Lemma X16_witness :
  exists main actions a,
    ShellTabs.menu (ShellTabs.setTrace (Some (2, frames_2)) debug_button)
    = Some (main :: actions)
    /\ actions !! 0%nat = Some a
    /\ ShellTabs.onTriggered true a
       = Ret [ShellTabs.executeCommand (py "DB FRAME 1" ++ [ShellTabs.newline]);
              ShellTabs.debugFocus (py "File one.py, line 3, in f")]
    /\ ShellTabs.text (ShellTabs.setTrace (Some (2, frames_2))
                         debug_button)
       = py "Stack Trace (2/2):  ".
Proof.
  destruct (X16_trace_menu_round_trip 2 frames_2 0
              (py "File one.py, line 3, in f")
              debug_button eq_refl)
    as (main & actions & a & Hmenu & _ & _ & Ha & Hrun & Htext).
  exists main, actions, a.
  split; [exact Hmenu|]. split; [exact Ha|]. split; [exact Hrun|].
  apply Htext. vm_compute. split; discriminate.
Defined.

(** ** Labels and tooltips *)

Lemma startswith_inv (s p : str) :
  startswith s p = true -> exists b, s = p ++ b.
Proof.
  revert s. induction p as [|a p IH]; intros s H.
  - now exists s.
  - destruct s as [|b s]; [discriminate|]. cbn [startswith] in H.
    apply andb_true_iff in H as [Hb Hs]. apply Ascii.eqb_eq in Hb. subst b.
    destruct (IH s Hs) as [r ->]. now exists r.
Qed.

(** [find] gives the first place where [sub] stands. *)
Lemma find_Some (sub s : str) (i : nat) :
  find sub s = Some i ->
  exists a b, s = a ++ sub ++ b /\ length a = i
              /\ forall a' b', s = a' ++ sub ++ b' -> (i <= length a')%nat.
Proof.
  revert i. induction s as [|c s IH]; intros i; rewrite find_unfold.
  - destruct (startswith [] sub) eqn:E; [|discriminate].
    intros [= <-]. apply startswith_inv in E as [b Hb].
    exists [], b. repeat split; [assumption|]. intros; lia.
  - destruct (startswith (c :: s) sub) eqn:E.
    + intros [= <-]. apply startswith_inv in E as [b Hb].
      exists [], b. repeat split; [assumption|]. intros; lia.
    + destruct (find sub s) as [j|] eqn:Ej; [|discriminate].
      cbn [option_map]. intros [= <-].
      destruct (IH j eq_refl) as (a & b & Hs & Hlen & Hfirst).
      exists (c :: a), b. split; [now rewrite Hs|]. split; [simpl; lia|].
      intros a' b' H'. destruct a' as [|c' a'].
      * cbn [app] in H'. rewrite H', startswith_app in E. discriminate.
      * injection H' as _ H'. specialize (Hfirst a' b' H'). simpl. lia.
Qed.

Lemma find_None (sub s : str) :
  find sub s = None -> forall a b, s <> a ++ sub ++ b.
Proof.
  induction s as [|c s IH]; rewrite find_unfold.
  - destruct (startswith [] sub) eqn:E; [discriminate|].
    intros _ a b H. destruct a; [|discriminate].
    cbn [app] in H. rewrite H, startswith_app in E. discriminate.
  - destruct (startswith (c :: s) sub) eqn:E; [discriminate|].
    destruct (find sub s) eqn:Ej; [discriminate|]. intros _ a b H.
    destruct a as [|c' a].
    + cbn [app] in H. rewrite H, startswith_app in E. discriminate.
    + injection H as _ H. now apply (IH eq_refl a b).
Qed.

Lemma contains_sub_false (sub s : str) :
  Iep.contains_sub sub s = false <-> forall a b, s <> a ++ sub ++ b.
Proof.
  unfold Iep.contains_sub. split.
  - destruct (find sub s) eqn:E; [discriminate|]. intros _. now apply find_None.
  - intros H. destruct (find sub s) as [i|] eqn:E; [|reflexivity].
    apply find_Some in E as (a & b & Hs & _). now destruct (H a b).
Qed.

(** A part of a string that lacks [sub] lacks it as well. *)
Lemma contains_sub_part (sub x s y : str) :
  Iep.contains_sub sub (x ++ s ++ y) = false -> Iep.contains_sub sub s = false.
Proof.
  rewrite !contains_sub_false. intros H a b ->.
  apply (H (x ++ a) (b ++ y)). now rewrite <- !app_assoc.
Qed.

Lemma lstrip_spec (s : str) :
  exists ws, s = ws ++ Iep.lstrip s
             /\ forallb Iep.isspace ws = true
             /\ Iep.lstrip (Iep.lstrip s) = Iep.lstrip s.
Proof.
  induction s as [|c s IH].
  - now exists [].
  - cbn [Iep.lstrip]. destruct (Iep.isspace c) eqn:E.
    + destruct IH as (ws & Hs & Hws & Hfix).
      exists (c :: ws). split; [cbn [app]; now rewrite <- Hs|].
      split; [cbn [forallb]; now rewrite E|assumption].
    + exists []. repeat split. cbn [Iep.lstrip]. now rewrite E.
Qed.

Lemma rstrip_spec (s : str) :
  exists ws, s = Iep.rstrip s ++ ws
             /\ forallb Iep.isspace ws = true
             /\ Iep.rstrip (Iep.rstrip s) = Iep.rstrip s.
Proof.
  unfold Iep.rstrip. destruct (lstrip_spec (rev s)) as (ws & Hs & Hws & Hfix).
  exists (rev ws). split; [|split].
  - rewrite <- rev_app_distr, <- Hs. now rewrite rev_involutive.
  - rewrite forallb_forall in *. intros x Hx. apply Hws. now apply in_rev.
  - now rewrite rev_involutive, Hfix.
Qed.

(** What [lstrip] leaves is empty or starts with another character. *)
Lemma lstrip_fixed (s : str) :
  Iep.lstrip s = s <->
  match s with
  | [] => True
  | c :: _ => Iep.isspace c = false
  end.
Proof.
  destruct s as [|c s]; [easy|]. cbn [Iep.lstrip].
  destruct (Iep.isspace c) eqn:E; [|easy]. split; [|discriminate].
  intros H. destruct (lstrip_spec s) as (ws & Hs & _).
  apply (f_equal (@length ascii)) in H, Hs.
  rewrite length_app in Hs. simpl in H. lia.
Qed.

(** Stripping on the left keeps a right end that is stripped. *)
Lemma rstrip_lstrip (s : str) :
  Iep.rstrip s = s -> Iep.rstrip (Iep.lstrip s) = Iep.lstrip s.
Proof.
  intros H. destruct (lstrip_spec s) as (ws & Hs & _ & _).
  destruct (Iep.lstrip s) as [|c t] eqn:E; [reflexivity|].
  unfold Iep.rstrip in *. apply (f_equal (@rev ascii)) in H.
  rewrite rev_involutive in H. rewrite Hs, rev_app_distr in H.
  apply lstrip_fixed in H.
  assert (Hfix : Iep.lstrip (rev (c :: t)) = rev (c :: t)).
  { apply lstrip_fixed. destruct (rev (c :: t)) as [|d r] eqn:Er.
    - exact I.
    - exact H. }
  now rewrite Hfix, rev_involutive.
Qed.

(** What [splitMainAndTt] gives. *)
Lemma splitMainAndTt_spec (s : str) :
  exists main tt,
    Iep.splitMainAndTt s = Ret (main, tt)
    /\ (Iep.contains_sub (py ":::") s = false -> main = s /\ tt = py "")
    /\ (Iep.contains_sub (py ":::") s = true ->
        exists ws1 ws2,
          s = main ++ ws1 ++ py ":::" ++ ws2 ++ tt
          /\ forallb Iep.isspace ws1 = true
          /\ forallb Iep.isspace ws2 = true
          /\ Iep.contains_sub (py ":::") (main ++ ws1) = false
          /\ Iep.rstrip main = main
          /\ Iep.lstrip tt = tt).
Proof.
  unfold Iep.splitMainAndTt.
  destruct (Iep.contains_sub (py ":::") s) eqn:E.
  - unfold Iep.contains_sub in E.
    destruct (find (py ":::") s) as [i|] eqn:Ei; [|discriminate].
    destruct (find_Some _ _ _ Ei) as (a & b & Hs & Hlen & Hfirst).
    assert (Hsplit : split1 (py ":::") s = Ret [a; b]).
    { unfold split1. rewrite Ei. cbn [py list_ascii_of_string].
      rewrite Hs, <- Hlen. f_equal. f_equal.
      - rewrite firstn_app, firstn_all, Nat.sub_diag. cbn [firstn].
        apply app_nil_r.
      - f_equal. rewrite app_assoc.
        change 3%nat with (length (py ":::")). rewrite <- length_app.
        rewrite skipn_app, skipn_all, Nat.sub_diag. reflexivity. }
    rewrite Hsplit. cbn [bind].
    change (index [a; b] 0) with (Ret (A := str) a).
    change (index [a; b] 1) with (Ret (A := str) b). cbn [bind].
    exists (Iep.rstrip a), (Iep.lstrip b).
    split; [reflexivity|]. split; [discriminate|]. intros _.
    destruct (rstrip_spec a) as (ws1 & Ha & Hws1 & Hfix1).
    destruct (lstrip_spec b) as (ws2 & Hb & Hws2 & Hfix2).
    exists ws1, ws2. rewrite <- Ha.
    split; [now rewrite (app_assoc (Iep.rstrip a) ws1), <- Ha, <- Hb|].
    split; [assumption|]. split; [assumption|].
    split; [|split; assumption].
    apply contains_sub_false. intros a' b' Ha'.
    specialize (Hfirst a' (b' ++ py ":::" ++ b)).
    rewrite Hs, Ha', <- !app_assoc in Hfirst. specialize (Hfirst eq_refl).
    apply (f_equal (@length ascii)) in Ha'.
    rewrite !length_app in Ha'. cbn [length py list_ascii_of_string] in *. lia.
  - exists s, (py ""). split; [reflexivity|]. split; [easy|discriminate].
Qed.


(** X17: a text is split into label and tooltip at the first [:::].  The
    text is the label, white space, the marker, white space and the
    tooltip; there is no marker before the one the text is split at, the
    label has no white space at its end and the tooltip none at its start.
    A text without marker is the label whole, with the empty tooltip. *)
Theorem X17_label_and_tooltip (s : str) :
  exists main tt,
    Iep.splitMainAndTt s = Ret (main, tt)
    /\ (Iep.contains_sub (py ":::") s = false -> main = s /\ tt = py "")
    /\ (Iep.contains_sub (py ":::") s = true ->
        exists ws1 ws2,
          s = main ++ ws1 ++ py ":::" ++ ws2 ++ tt
          /\ forallb Iep.isspace ws1 = true
          /\ forallb Iep.isspace ws2 = true
          /\ Iep.contains_sub (py ":::") (main ++ ws1) = false
          /\ Iep.rstrip main = main
          /\ Iep.lstrip tt = tt).
Proof. apply splitMainAndTt_spec. Qed.

(** The label [splitMainAndTt] gives holds no marker. *)
Lemma splitMainAndTt_main (s main tt : str) :
  Iep.splitMainAndTt s = Ret (main, tt) ->
  Iep.contains_sub (py ":::") main = false.
Proof.
  intros H.
  destruct (splitMainAndTt_spec s) as (m & t & Hrun & Hno & Hyes).
  rewrite Hrun in H. injection H as <- <-.
  destruct (Iep.contains_sub (py ":::") s) eqn:E.
  - destruct (Hyes eq_refl) as (ws1 & ws2 & _ & _ & _ & Hfree & _).
    apply (contains_sub_part _ [] m ws1). exact Hfree.
  - now destruct (Hno eq_refl) as [-> _].
Qed.

(** X18: [translate] never raises, whatever the translation it is given.
    The string of the result and its key hold no [:::], the key has no
    white space at either end, and the original is the text passed in. *)
Theorem X18_translate_total
    (QtCore_translate : str -> str -> option str -> str)
    (context text : str) (disambiguation : option str) :
  exists t,
    Iep.translate QtCore_translate context text disambiguation = Ret t
    /\ Iep.original t = text
    /\ Iep.contains_sub (py ":::") (Iep.translation_str t) = false
    /\ Iep.contains_sub (py ":::") (Iep.key t) = false
    /\ Iep.lstrip (Iep.key t) = Iep.key t
    /\ Iep.rstrip (Iep.key t) = Iep.key t.
Proof.
  unfold Iep.translate.
  destruct (splitMainAndTt_spec (QtCore_translate context text disambiguation))
    as (s & tt & Hnew & _).
  destruct (splitMainAndTt_spec text) as (main & tt' & Hkey & _).
  rewrite Hnew. cbn [bind]. rewrite Hkey. cbn [bind fst].
  eexists. split; [reflexivity|].
  cbn [Iep.original Iep.translation_str Iep.key].
  split; [reflexivity|].
  split; [exact (splitMainAndTt_main _ _ _ Hnew)|].
  destruct (rstrip_spec main) as (ws & Hmain & _ & Hfix).
  destruct (lstrip_spec (Iep.rstrip main)) as (ws' & Hstrip & _ & Hfix').
  unfold Iep.strip. split; [|split].
  - apply (contains_sub_part _ ws' _ ws).
    rewrite app_assoc, <- Hstrip, <- Hmain.
    exact (splitMainAndTt_main _ _ _ Hkey).
  - exact Hfix'.
  - now apply rstrip_lstrip.
Qed.
